(** * Subtitle_Search: the subtitle parser, the corpus, the search and the
      translator entry point of [subtitle_search.py], embedded in Rocq.

    Conventions of the embedding.

    - Subtitle text (file content, time stamps, caption text, the query) is
      inspected by the program character by character.  Such a Python [str]
      is a [list ascii]: a sequence of code points below 256, with Python's
      own character classes on that range ([str.isspace], [\d], [\s],
      [str.lower], the line boundaries of [str.splitlines]).
    - File names and the texts shown to the user (status line, message boxes,
      translations) are only compared, concatenated and displayed; they are
      [string]s holding the UTF-8 form of the Python literal.  Byte-wise
      comparison of UTF-8 is comparison by code point, which is Python's
      order on [str].
    - The two regular expressions of [load_srt_file] are run by a
      backtracking matcher with Python's priorities (greedy and lazy
      repetition, capture groups, left-most non-overlapping scan).
    - Files, dialogs and the network are inputs: a file is what [open]
      returns for each encoding, a dialog is its answer, a translation
      backend is a function from requests to a returned text or a raised
      exception. *)

From Stdlib Require Import Ascii String DecimalString Bool Arith Lia List.
Import ListNotations.

Set Implicit Arguments.

(* ================================================================== *)
(** ** Python strings *)

Definition str := list ascii.

Definition lit (s : string) : str := list_ascii_of_string s.

Definition code (c : ascii) : nat := nat_of_ascii c.

Definition between (lo hi : nat) (c : ascii) : bool :=
  (lo <=? code c) && (code c <=? hi).

Definition LF : ascii := ascii_of_nat 10.
Definition CR : ascii := ascii_of_nat 13.
Definition SP : ascii := ascii_of_nat 32.

(** [\d] on code points below 256: the ten ASCII digits. *)
Definition is_digit (c : ascii) : bool := between 48 57 c.

(** [str.isspace] / [\s] on code points below 256:
    TAB LF VT FF CR, FS GS RS US, SPACE, NEL (0x85), NBSP (0xA0). *)
Definition is_space (c : ascii) : bool :=
  between 9 13 c || between 28 32 c || (code c =? 133) || (code c =? 160).

(** Line boundaries of [str.splitlines] below 256:
    LF VT FF CR, FS GS RS, NEL. *)
Definition is_linebreak (c : ascii) : bool :=
  between 10 13 c || between 28 30 c || (code c =? 133).

(** [str.lower] on one code point below 256: A-Z, and the Latin-1 capitals
    0xC0-0xDE except the multiplication sign 0xD7. *)
Definition lower_char (c : ascii) : ascii :=
  if between 65 90 c
     || (between 192 222 c && negb (code c =? 215))
  then ascii_of_nat (code c + 32) else c.

Definition lower (s : str) : str := map lower_char s.

(** [s.strip()] *)
Fixpoint lstrip (s : str) : str :=
  match s with
  | c :: s' => if is_space c then lstrip s' else s
  | [] => []
  end.

Definition rstrip (s : str) : str := rev (lstrip (rev s)).

Definition strip (s : str) : str := rstrip (lstrip s).

(** [s.isspace()]: at least one character, all of them white space. *)
Definition isspace (s : str) : bool :=
  match s with
  | [] => false
  | _ => forallb is_space s
  end.

(** Truth value of a [str]: non-empty. *)
Definition truthy (s : str) : bool :=
  match s with [] => false | _ => true end.

(** [s.replace(a, b)] for one-character [a] and [b]. *)
Definition replace_char (a b : ascii) (s : str) : str :=
  map (fun c => if Ascii.eqb c a then b else c) s.

(** [s.splitlines()]: [cur] is the current line, reversed. *)
Fixpoint splitlines_from (cur : str) (s : str) : list str :=
  match s with
  | [] => match cur with [] => [] | _ => [rev cur] end
  | c :: s' =>
      if Ascii.eqb c CR then
        match s' with
        | d :: s'' =>
            if Ascii.eqb d LF then rev cur :: splitlines_from [] s''
            else rev cur :: splitlines_from [] s'
        | [] => rev cur :: splitlines_from [] s'
        end
      else if is_linebreak c then rev cur :: splitlines_from [] s'
      else splitlines_from (c :: cur) s'
  end.

Definition splitlines (s : str) : list str := splitlines_from [] s.

(** [sep.join(parts)] *)
Fixpoint join (sep : str) (parts : list str) : str :=
  match parts with
  | [] => []
  | [p] => p
  | p :: rest => p ++ sep ++ join sep rest
  end.

(** [needle in hay] *)
Fixpoint starts_with (needle hay : str) : bool :=
  match needle, hay with
  | [], _ => true
  | a :: n', b :: h' => Ascii.eqb a b && starts_with n' h'
  | _ :: _, [] => false
  end.

Fixpoint contains (needle hay : str) : bool :=
  starts_with needle hay
  || match hay with
     | [] => false
     | _ :: h' => contains needle h'
     end.

(* ================================================================== *)
(** ** The regular expressions of [load_srt_file]

    The fragment of [re] syntax the two patterns use: character classes,
    concatenation, capture groups, and repetition of a character class,
    greedy with a lower bound ([\s*], [[\n\r]+], [[\n\r]{2,}]) or lazy
    ([.*?]). *)

Inductive regex : Type :=
| Eps
| Chr (p : ascii -> bool)
| Seq (r1 r2 : regex)
| Group (n : nat) (r : regex)
| Greedy (min : nat) (p : ascii -> bool)
| Lazy (p : ascii -> bool).

Definition captures := list (nat * str).

Fixpoint group (n : nat) (caps : captures) : str :=
  match caps with
  | [] => []
  | (m, s) :: rest => if m =? n then s else group n rest
  end.

Section Backtracking.
Variable A : Type.

(** [p{min,}], greedy: the longest run first, then one character less at
    a time, never fewer than [min]. *)
Fixpoint greedy (p : ascii -> bool) (min : nat) (s : str)
         (k : str -> option A) : option A :=
  match s with
  | c :: s' =>
      if p c then
        match greedy p (pred min) s' k with
        | Some r => Some r
        | None => if min =? 0 then k s else None
        end
      else if min =? 0 then k s else None
  | [] => if min =? 0 then k [] else None
  end.

(** [p*?], lazy: the rest of the pattern first, then one character more at
    a time. *)
Fixpoint lazy (p : ascii -> bool) (s : str)
         (k : str -> option A) {struct s} : option A :=
  match k s with
  | Some r => Some r
  | None =>
      match s with
      | c :: s' => if p c then lazy p s' k else None
      | [] => None
      end
  end.

(** The matcher, in continuation-passing style: [k] is the rest of the
    pattern, run on the rest of the input and the groups captured so
    far; [None] makes the matcher backtrack. *)
Fixpoint bt (r : regex) (s : str) (caps : captures)
         (k : str -> captures -> option A) : option A :=
  match r with
  | Eps => k s caps
  | Chr p =>
      match s with
      | c :: s' => if p c then k s' caps else None
      | [] => None
      end
  | Seq r1 r2 => bt r1 s caps (fun s1 caps1 => bt r2 s1 caps1 k)
  | Group n r1 =>
      bt r1 s caps
         (fun s1 caps1 =>
            k s1 ((n, firstn (length s - length s1) s) :: caps1))
  | Greedy min p => greedy p min s (fun s1 => k s1 caps)
  | Lazy p => lazy p s (fun s1 => k s1 caps)
  end.
End Backtracking.

(** [pattern.match] at the head of [s]: the rest of the input after the
    match, and the groups. *)
Definition match_at (r : regex) (s : str) : option (str * captures) :=
  bt r s [] (fun rest caps => Some (rest, caps)).

(** [re.finditer]: left-most matches that do not overlap.  [skip] counts the
    characters still covered by the previous match.  Neither pattern of the
    program matches the empty string. *)
Fixpoint finditer_from (r : regex) (skip : nat) (s : str) : list captures :=
  match s with
  | [] => []
  | _ :: s' =>
      match skip with
      | S n => finditer_from r n s'
      | O =>
          match match_at r s with
          | Some (rest, caps) =>
              caps :: finditer_from r (length s - length rest - 1) s'
          | None => finditer_from r 0 s'
          end
      end
  end.

Definition finditer (r : regex) (s : str) : list captures :=
  finditer_from r 0 s.

(** [re.sub(r, repl, s)] for a replacement without group references. *)
Fixpoint sub_from (r : regex) (repl : str) (skip : nat) (s : str) : str :=
  match s with
  | [] => []
  | c :: s' =>
      match skip with
      | S n => sub_from r repl n s'
      | O =>
          match match_at r s with
          | Some (rest, _) =>
              repl ++ sub_from r repl (length s - length rest - 1) s'
          | None => c :: sub_from r repl 0 s'
          end
      end
  end.

Definition re_sub (r : regex) (repl : str) (s : str) : str :=
  sub_from r repl 0 s.

Definition is_char (a : ascii) (c : ascii) : bool := Ascii.eqb c a.

(** [[\n\r]] *)
Definition nl (c : ascii) : bool := is_char LF c || is_char CR c.

(** [.] under [re.DOTALL] *)
Definition dot_all (c : ascii) : bool := true.

(** [.] without [re.DOTALL]: anything but a line feed. *)
Definition dot (c : ascii) : bool := negb (is_char LF c).

Fixpoint seq (rs : list regex) : regex :=
  match rs with
  | [] => Eps
  | [r] => r
  | r :: rest => Seq r (seq rest)
  end.

Definition d : regex := Chr is_digit.
Definition ch (s : string) : regex :=
  seq (map (fun a => Chr (is_char a)) (lit s)).

(** [\d{2}:\d{2}:\d{2}[,.]\d{3}] *)
Definition timestamp_re : regex :=
  seq [d; d; ch ":"; d; d; ch ":"; d; d;
       Chr (fun c => is_char "," c || is_char "." c); d; d; d].

(** [(\d{2}:\d{2}:\d{2}[,.]\d{3})\s*-->.*?[\n\r]+(.*?)[\n\r]{2,}]
    with [re.DOTALL | re.MULTILINE]; the pattern has no [^] or [$], so
    [re.MULTILINE] changes nothing. *)
Definition pattern : regex :=
  seq [Group 1 timestamp_re; Greedy 0 is_space; ch "-->"; Lazy dot_all;
       Greedy 1 nl; Group 2 (Lazy dot_all); Greedy 2 nl].

(** [<.*?>] *)
Definition tag_pattern : regex :=
  seq [ch "<"; Lazy dot; ch ">"].

(* ================================================================== *)
(** ** Parsing the content of one file *)

Definition entry : Type := str * str.      (* (start_time, text) *)

(** The body of the [for match in re.finditer(...)] loop. *)
Definition parse_match (m : captures) : option entry :=
  let start_time := replace_char "." "," (group 1 m) in
  let text_block := strip (group 2 m) in
  let clean_text := re_sub tag_pattern [] text_block in
  let clean_text :=
    join [SP]
         (map strip (filter (fun line => truthy (strip line))
                            (splitlines clean_text))) in
  if truthy clean_text then Some (start_time, clean_text) else None.

Fixpoint collect (ms : list captures) : list entry :=
  match ms with
  | [] => []
  | m :: rest =>
      match parse_match m with
      | Some e => e :: collect rest
      | None => collect rest
      end
  end.

(** The list [subtitles] that [load_srt_file] builds from [content]. *)
Definition parse (content : str) : list entry :=
  collect (finditer pattern content).


(* ================================================================== *)
(** ** Exceptions *)

Inductive exn : Type :=
| ValueError (msg : string)
| RuntimeError (msg : string)
| ConnectionError (msg : string)
| TimeoutError (msg : string)
| KeyError (msg : string)
| IndexError (msg : string)
| OtherException (msg : string).

Inductive py (A : Type) : Type :=
| Return (a : A)
| Raise (e : exn).

Arguments Return {A} a.
Arguments Raise {A} e.

(** [str(n)] *)
Definition str_of_nat (n : nat) : string :=
  DecimalString.NilEmpty.string_of_uint (Nat.to_uint n).

(* ================================================================== *)
(** ** The corpus: [self.subtitle_data]

    A Python [dict] keeps its keys in insertion order, and the search walks
    it in that order: the corpus is an association list with distinct
    keys. *)

Definition dict (V : Type) : Type := list (string * V).

Section Dict.
Variable V : Type.

(** [key in d] *)
Fixpoint dict_mem (key : string) (dd : dict V) : bool :=
  match dd with
  | [] => false
  | (k, _) :: rest => String.eqb k key || dict_mem key rest
  end.

(** [d.get(key)] *)
Fixpoint dict_get (key : string) (dd : dict V) : option V :=
  match dd with
  | [] => None
  | (k, v) :: rest => if String.eqb k key then Some v else dict_get key rest
  end.

(** [d[key] = v]: a present key keeps its place, a new key goes last. *)
Fixpoint dict_set (key : string) (v : V) (dd : dict V) : dict V :=
  match dd with
  | [] => [(key, v)]
  | (k, w) :: rest =>
      if String.eqb k key then (k, v) :: rest
      else (k, w) :: dict_set key v rest
  end.

(** [del d[key]] for a present key. *)
Fixpoint dict_del (key : string) (dd : dict V) : dict V :=
  match dd with
  | [] => []
  | (k, w) :: rest =>
      if String.eqb k key then rest else (k, w) :: dict_del key rest
  end.

Definition keys (dd : dict V) : list string := map fst dd.
End Dict.

Definition match_record : Type := string * str * str.
                                   (* (filename, start_time, text) *)

Record state : Type := {
  subtitle_data : dict (list entry);
  search_results : list match_record
}.

(** [SubtitleSearcher.__init__] *)
Definition initial : state :=
  {| subtitle_data := []; search_results := [] |}.

(** What the user is shown: the status line and the message boxes. *)
Inductive ui_event : Type :=
| UpdateStatus (message : string)
| ShowInfo (title message : string)
| ShowWarning (title message : string)
| ShowError (title message : string).

(* ================================================================== *)
(** ** Loading files *)

Inductive encoding : Type := utf_8 | gbk | gb2312 | utf_16.

Definition SUPPORTED_ENCODINGS : list encoding := [utf_8; gbk; gb2312; utf_16].

(** A file chosen in the dialog: the base name of its path, and for each
    encoding what [open(path, 'r', encoding=...)] followed by [read()]
    gives: the decoded content, or [None] when it raises. *)
Record file : Type := {
  basename : string;
  read : encoding -> option str
}.

(** The [for encoding in SUPPORTED_ENCODINGS] loop: the first encoding that
    reads the file. *)
Fixpoint first_decoding (encodings : list encoding) (f : file)
  : option (str * encoding) :=
  match encodings with
  | [] => None
  | e :: rest =>
      match read f e with
      | Some content => Some (content, e)
      | None => first_decoding rest f
      end
  end.

Definition undecodable_msg : string := "无法使用支持的编码解码文件".
Definition no_entries_msg : string := "未能解析到有效的字幕条目".

(** [load_srt_file]: the new [subtitle_data], or the exception raised.  The
    matcher is total, so the [except Exception] around the parsing loop is
    never entered. *)
Definition load_srt_file (subtitle_data : dict (list entry)) (f : file)
  : py (dict (list entry)) :=
  match first_decoding SUPPORTED_ENCODINGS f with
  | None => Raise (ValueError undecodable_msg)
  | Some (content, detected_encoding) =>
      let filename := basename f in
      let subtitles := parse content in
      match subtitles with
      | _ :: _ => Return (dict_set filename subtitles subtitle_data)
      | [] => Raise (ValueError no_entries_msg)
      end
  end.

(** [str(e)] *)
Definition exn_message (e : exn) : string :=
  match e with
  | ValueError m | RuntimeError m | ConnectionError m | TimeoutError m
  | KeyError m | IndexError m | OtherException m => m
  end.

(** The local variables of [select_files] while it walks the chosen files. *)
Record progress : Type := {
  data : dict (list entry);
  loaded_count : nat;
  error_files : list string;
  shown : list ui_event
}.

(** One round of [for i, file_path in enumerate(files)]; [total] is
    [len(files)]. *)
Definition select_files_step (total i : nat) (f : file) (p : progress)
  : progress :=
  let filename := basename f in
  if dict_mem filename (data p) then
    {| data := data p;
       loaded_count := loaded_count p;
       error_files := error_files p;
       shown := shown p ++ [UpdateStatus ("跳过已加载的文件: " ++ filename)%string] |}
  else
    match load_srt_file (data p) f with
    | Return data' =>
        {| data := data';
           loaded_count := loaded_count p + 1;
           error_files := error_files p;
           shown := shown p ++
             [UpdateStatus ("加载中 (" ++ str_of_nat (i + 1) ++ "/"
                            ++ str_of_nat total ++ "): " ++ filename)%string] |}
    | Raise (ValueError m) =>
        {| data := data p;
           loaded_count := loaded_count p;
           error_files := error_files p ++ [(filename ++ " (" ++ m ++ ")")%string];
           shown := shown p ++ [UpdateStatus ("加载失败: " ++ filename)%string] |}
    | Raise e =>
        {| data := data p;
           loaded_count := loaded_count p;
           error_files :=
             error_files p
               ++ [(filename ++ " (未知错误: " ++ exn_message e ++ ")")%string];
           shown := shown p ++ [UpdateStatus ("加载失败: " ++ filename)%string] |}
    end.

Fixpoint select_files_loop (total i : nat) (files : list file) (p : progress)
  : progress :=
  match files with
  | [] => p
  | f :: rest =>
      select_files_loop total (i + 1) rest (select_files_step total i f p)
  end.

Definition newline : string := String (ascii_of_nat 10) EmptyString.

(** ["\n".join(parts)] on displayed texts. *)
Definition join_lines (parts : list string) : string :=
  String.concat newline parts.

(** [select_files], given the files chosen in the dialog. *)
Definition select_files (files : list file) (st : state)
  : state * list ui_event :=
  match files with
  | [] => (st, [])
  | _ =>
      let total := length files in
      let p :=
        select_files_loop total 0 files
          {| data := subtitle_data st;
             loaded_count := 0;
             error_files := [];
             shown :=
               [UpdateStatus
                  ("开始加载 " ++ str_of_nat total ++ " 个文件...")%string]
          |} in
      let final_status :=
        ("加载完成: 成功 " ++ str_of_nat (loaded_count p) ++ " 个")%string in
      ({| subtitle_data := data p; search_results := search_results st |},
       shown p ++
       match error_files p with
       | [] => [UpdateStatus (final_status ++ "。")%string]
       | _ =>
           [ShowError "加载错误"
              ("以下文件加载失败:" ++ newline
               ++ join_lines (error_files p))%string;
            UpdateStatus
              (final_status ++ ", 失败 "
               ++ str_of_nat (length (error_files p)) ++ " 个。")%string]
       end)
  end.

(* ================================================================== *)
(** ** Removing files *)

(** [clear_search_results]: the stored result set is emptied (the text
    area and the buttons are not modelled). *)
Definition clear_search_results (st : state) : state :=
  {| subtitle_data := subtitle_data st; search_results := [] |}.

(** The [for filename in filenames_to_delete] loop of [delete_selected]. *)
Fixpoint delete_loop (filenames_to_delete : list string)
         (subtitle_data : dict (list entry)) (deleted_count : nat)
  : dict (list entry) * nat :=
  match filenames_to_delete with
  | [] => (subtitle_data, deleted_count)
  | filename :: rest =>
      if dict_mem filename subtitle_data
      then delete_loop rest (dict_del filename subtitle_data)
                       (deleted_count + 1)
      else delete_loop rest subtitle_data deleted_count
  end.

(** [delete_selected], given the selection of the file list and the answer
    to the confirmation dialog. *)
Definition delete_selected (selected_items : list string) (confirmed : bool)
           (st : state) : state * list ui_event :=
  match selected_items with
  | [] => (st, [ShowWarning "提示" "请先在文件列表中选择要删除的文件"])
  | _ =>
      if confirmed then
        let (subtitle_data', deleted_count) :=
          delete_loop selected_items (subtitle_data st) 0 in
        (clear_search_results
           {| subtitle_data := subtitle_data';
              search_results := search_results st |},
         [UpdateStatus
            ("已移除 " ++ str_of_nat deleted_count ++ " 个文件")%string])
      else (st, [])
  end.

(** [clear_all], given the answer to the confirmation dialog. *)
Definition clear_all (confirmed : bool) (st : state)
  : state * list ui_event :=
  match subtitle_data st with
  | [] => (st, [ShowInfo "提示" "当前没有已加载的文件。"])
  | _ =>
      if confirmed then
        (clear_search_results
           {| subtitle_data := []; search_results := search_results st |},
         [UpdateStatus "已清除所有数据"])
      else (st, [])
  end.

(* ================================================================== *)
(** ** Searching *)

Section SearchTask.
Variable query_lower : str.

(** [for start_time, text in subtitles] *)
Fixpoint scan_subtitles (filename : string) (subtitles : list entry)
         (temp_results : list match_record) : list match_record :=
  match subtitles with
  | [] => temp_results
  | (start_time, text) :: rest =>
      if contains query_lower (lower text)
      then scan_subtitles filename rest
                          (temp_results ++ [(filename, start_time, text)])
      else scan_subtitles filename rest temp_results
  end.

(** [for filename, subtitles in self.subtitle_data.items()] *)
Fixpoint scan_files (items : dict (list entry))
         (temp_results : list match_record) : list match_record :=
  match items with
  | [] => temp_results
  | (filename, subtitles) :: rest =>
      scan_files rest (scan_subtitles filename subtitles temp_results)
  end.
End SearchTask.

(** [search_task] of [search]: the list [temp_results] it hands back. *)
Definition search_task (subtitle_data : dict (list entry)) (query : str)
  : list match_record :=
  let query_lower := lower query in
  scan_files query_lower subtitle_data [].

Definition dquote : string := String (ascii_of_nat 34) EmptyString.

(** A text as it is shown: the displayed texts are UTF-8, where a character
    from 128 to 255 takes two bytes. *)
Fixpoint display (s : str) : string :=
  match s with
  | [] => EmptyString
  | c :: rest =>
      if code c <? 128 then String c (display rest)
      else String (ascii_of_nat (192 + code c / 64))
                  (String (ascii_of_nat (128 + code c mod 64)) (display rest))
  end.

Definition quoted (query : str) : string :=
  (dquote ++ display query ++ dquote)%string.

(** [search], given the content of the search box.  The worker thread and
    the hand-over of its result are taken as one step. *)
Definition search (search_entry : str) (st : state) : state * list ui_event :=
  let query := strip search_entry in
  if negb (truthy query) then
    (st, [ShowWarning "提示" "请输入搜索关键字"])
  else
    match subtitle_data st with
    | [] => (st, [ShowWarning "提示" "请先添加 SRT 文件"])
    | _ =>
        let temp_results := search_task (subtitle_data st) query in
        let total_matches := length temp_results in
        ({| subtitle_data := subtitle_data st;
            search_results := temp_results |},
         [UpdateStatus ("正在搜索 " ++ quoted query ++ "...")%string;
          match temp_results with
          | [] =>
              UpdateStatus
                ("未找到 " ++ quoted query ++ " 的匹配结果")%string
          | _ =>
              UpdateStatus
                ("搜索完成，找到 " ++ str_of_nat total_matches
                 ++ " 个结果")%string
          end])
    end.

(* ================================================================== *)
(** ** [TranslatorService.translate] *)

Record TranslatorService : Type := {
  current_service : option string;
  azure_key : string;
  azure_region : string;
  google_key : string;
  deepl_key : string
}.

(** The calls of the provider methods, with their arguments:
    [_translate_azure(text, key, region)], [_translate_google_paid(text,
    key)], [_translate_google_free(text)], [_translate_deepl(text, key)].
    Each makes at most one request through [_make_request].  The Google and
    DeepL methods put the text into the request as it is; [_translate_azure]
    first splices it into the text of a JSON body and reads that back
    (line 191), which raises a [ValueError] before any request when the
    result is not JSON, and sends another text when the text holds an
    escape. *)
Inductive request : Type :=
| translate_azure (text : str) (key region : string)
| translate_google_paid (text : str) (key : string)
| translate_google_free (text : str)
| translate_deepl (text : str) (key : string).

(** Truth value of a displayed text or of a credential: non-empty. *)
Definition nonempty (s : string) : bool :=
  match s with EmptyString => false | _ => true end.

(** Truth value of [self.current_service]: neither [None] nor [""]. *)
Definition service_selected (self : TranslatorService) : bool :=
  match current_service self with
  | Some name => nonempty name
  | None => false
  end.

Definition is_service (self : TranslatorService) (name : string) : bool :=
  match current_service self with
  | Some s => String.eqb s name
  | None => false
  end.

Section Translate.
(** What a provider call does, from its first line to its last: the text
    it returns or the exception it raises. *)
Variable backend : request -> py string.

(** The body of the [try] block: its value, and the provider calls made. *)
Definition translate_try (self : TranslatorService) (text : str)
  : py string * list request :=
  if is_service self "Azure" then
    if negb (nonempty (azure_key self)) || negb (nonempty (azure_region self))
    then (Return "[Azure Key/Region 未配置]"%string, [])
    else
      let rq := translate_azure text (azure_key self) (azure_region self) in
      (backend rq, [rq])
  else if is_service self "Google" then
    if nonempty (google_key self) then
      let rq := translate_google_paid text (google_key self) in
      (backend rq, [rq])
    else (Return "[Google API Key 未配置]"%string, [])
  else if is_service self "DeepL" then
    if negb (nonempty (deepl_key self))
    then (Return "[DeepL Key 未配置]"%string, [])
    else
      let rq := translate_deepl text (deepl_key self) in
      (backend rq, [rq])
  else (Return "[未知的翻译服务]"%string, []).

(** The three [except] clauses. *)
Definition translate_except (r : py string) : py string :=
  match r with
  | Return s => Return s
  | Raise (ConnectionError m) | Raise (TimeoutError m) =>
      Return ("[翻译网络错误: " ++ m ++ "]")%string
  | Raise (ValueError m) | Raise (KeyError m) | Raise (IndexError m) =>
      Return ("[翻译服务返回错误: " ++ m ++ "]")%string
  | Raise e =>
      Return ("[翻译时发生未知错误: " ++ exn_message e ++ "]")%string
  end.

(** [translate]: what it returns or raises, and the provider calls it
    made. *)
Definition translate (self : TranslatorService) (text : str)
  : py string * list request :=
  if negb (service_selected self) then
    (Return "[请先在设置中选择并配置翻译服务]"%string, [])
  else if negb (truthy text) || isspace text then
    (Return "[无需翻译的空文本]"%string, [])
  else
    let (r, sent) := translate_try self text in
    (translate_except r, sent).
End Translate.

(* ================================================================== *)
(** ** What a pattern matches, and the shapes the properties speak of *)

(** [matches r w caps caps']: the pattern [r] can match the text [w],
    taking the captured groups from [caps] to [caps']. *)
Inductive matches : regex -> str -> captures -> captures -> Prop :=
| matches_Eps caps :
    matches Eps [] caps caps
| matches_Chr p c caps :
    p c = true -> matches (Chr p) [c] caps caps
| matches_Seq r1 r2 w1 w2 caps caps1 caps2 :
    matches r1 w1 caps caps1 -> matches r2 w2 caps1 caps2 ->
    matches (Seq r1 r2) (w1 ++ w2) caps caps2
| matches_Group n r w caps caps1 :
    matches r w caps caps1 ->
    matches (Group n r) w caps ((n, w) :: caps1)
| matches_Greedy min p w caps :
    forallb p w = true -> min <= length w ->
    matches (Greedy min p) w caps caps
| matches_Lazy p w caps :
    forallb p w = true -> matches (Lazy p) w caps caps.

(** A time stamp in canonical form: [DD:DD:DD,DDD]. *)
Definition is_timestamp (s : str) : bool :=
  match s with
  | [h1; h2; c1; m1; m2; c2; s1; s2; c3; f1; f2; f3] =>
      forallb is_digit [h1; h2; m1; m2; s1; s2; f1; f2; f3]
      && is_char ":" c1 && is_char ":" c2 && is_char "," c3
  | _ => false
  end.

(** A time stamp as the pattern accepts it: comma or full stop before the
    milliseconds. *)
Definition is_raw_timestamp (s : str) : bool :=
  match s with
  | [h1; h2; c1; m1; m2; c2; s1; s2; c3; f1; f2; f3] =>
      forallb is_digit [h1; h2; m1; m2; s1; s2; f1; f2; f3]
      && is_char ":" c1 && is_char ":" c2
      && (is_char "," c3 || is_char "." c3)
  | _ => false
  end.

(** A [>] occurs before the first line feed. *)
Fixpoint closes (s : str) : bool :=
  match s with
  | [] => false
  | c :: s' =>
      if is_char ">" c then true
      else if is_char LF c then false
      else closes s'
  end.

(** The text contains a tag, in the sense of the program's tag pattern: a
    [<] followed by a [>] with no line feed in between, that is,
    [re.search(r'<.*?>', s)] finds something. *)
Fixpoint has_tag (s : str) : bool :=
  match s with
  | [] => false
  | c :: s' => (is_char "<" c && closes s') || has_tag s'
  end.

(** Two line-break characters of the pattern ([\n] or [\r]) in a row. *)
Fixpoint has_blank_line (s : str) : bool :=
  match s with
  | a :: s' =>
      match s' with
      | b :: _ => (nl a && nl b) || has_blank_line s'
      | [] => false
      end
  | [] => false
  end.

(** [l] is a contiguous piece of [s]. *)
Definition infix (l s : str) : Prop := exists a b, s = a ++ l ++ b.

(** No white space at either end. *)
Definition trimmed (s : str) : bool :=
  match s with
  | [] => true
  | c :: _ => negb (is_space c) && negb (is_space (last s c))
  end.

(** One line of a stored caption: not empty, no white space at either end,
    no line boundary inside, no tag. *)
Definition clean_line (l : str) : bool :=
  truthy l && trimmed l && forallb (fun c => negb (is_linebreak c)) l
  && negb (has_tag l).

(** The text starts with a line break of the pattern. *)
Definition starts_with_nl (s : str) : bool :=
  match s with
  | c :: _ => nl c
  | [] => false
  end.

(** The rest of the tag pattern after the lazy repetition. *)
Definition tag_rest (s1 : str) : option (str * captures) :=
  bt (Chr (is_char ">")) s1 [] (fun rest caps => Some (rest, caps)).

(** Continuations of the matcher on a text [x] and on the same text
    followed by [t]: [lift_tail t] puts [t] back after the rest of a match;
    [agree_on_tail t k k'] says that [k'] does on [x ++ t] what [k] does on
    [x]; [dead_in_tail t k'] says that [k'] fails once the matcher has gone
    into [t]. *)
Definition lift_tail (t : str) (r : option (str * captures))
  : option (str * captures) :=
  option_map (fun rc => (fst rc ++ t, snd rc)) r.

Definition proper_suffix (y t : str) : Prop :=
  exists u, u <> [] /\ t = u ++ y.

Definition agree_on_tail (t : str)
           (k k' : str -> captures -> option (str * captures)) : Prop :=
  forall x caps, k' (x ++ t) caps = lift_tail t (k x caps).

Definition dead_in_tail (t : str)
           (k' : str -> captures -> option (str * captures)) : Prop :=
  forall y caps, proper_suffix y t -> k' y caps = None.

(** The lines of a block's text as the program keeps them: tags removed
    from the stripped text, then each line stripped, blank lines dropped. *)
Definition clean_lines (body : str) : list str :=
  map strip (filter (fun line => truthy (strip line))
                    (splitlines (re_sub tag_pattern [] (strip body)))).

(** What holds of a stored entry: a canonical time stamp, and a text that is
    not empty, has no white space at either end and no line boundary, and
    is made of clean lines joined by single spaces. *)
Definition entry_ok (e : entry) : Prop :=
  is_timestamp (fst e) = true
  /\ truthy (snd e) = true
  /\ trimmed (snd e) = true
  /\ forallb (fun c => negb (is_linebreak c)) (snd e) = true
  /\ exists lines, snd e = join [SP] lines /\ forallb clean_line lines = true.

(** The invariant of the corpus: every stored file has at least one entry,
    and every stored entry is as [entry_ok] says. *)
Definition corpus_ok (subtitle_data : dict (list entry)) : Prop :=
  forall filename subtitles,
    In (filename, subtitles) subtitle_data ->
    subtitles <> [] /\ forall e, In e subtitles -> entry_ok e.

(* ================================================================== *)
(** ** Concrete inputs used by the examples *)

(** One block, terminated by a blank line. *)
Definition block1 : str :=
  lit "00:00:01,000 --> 00:00:02,000" ++ [LF] ++ lit "Hello there" ++ [LF; LF].

(** A file that every encoding reads as [content]. *)
Definition text_file (name : string) (content : str) : file :=
  {| basename := name; read := fun _ => Some content |}.

Definition file_a : file := text_file "a.srt" block1.
Definition file_b : file := text_file "b.srt" block1.

(** The file identifiers of a result sequence, and whether they ascend. *)
Definition file_of (r : match_record) : string := fst (fst r).

Fixpoint ascending (names : list string) : bool :=
  match names with
  | a :: (b :: _) as rest => String.leb a b && ascending rest
  | _ => true
  end.

(** The matching entries of one file, in entry order. *)
Definition matches_of (query : str) (filename : string)
           (subtitles : list entry) : list match_record :=
  map (fun e => (filename, fst e, snd e))
      (filter (fun e => contains (lower query) (lower (snd e))) subtitles).

(** The corpus after loading b.srt and then a.srt. *)
Definition loaded_b_then_a : state :=
  fst (select_files [file_b; file_a] initial).

(** A block whose tag is split over two lines, and a block with two spaces
    between its words. *)
Definition split_tag_block : str :=
  lit "00:00:01,000 --> 00:00:02,000" ++ [LF]
  ++ lit "<i" ++ [LF] ++ lit ">Hello" ++ [LF; LF].

Definition two_spaces_block : str :=
  lit "00:00:03,000 --> 00:00:04,000" ++ [LF]
  ++ lit "Hello  there" ++ [LF; LF].

(** A block that is not followed by a blank line. *)
Definition unterminated_block : str :=
  lit "00:00:01,000 --> 00:00:02,000" ++ [LF] ++ lit "Hello there" ++ [LF].

Definition unterminated_file : file :=
  text_file "bad.srt" (lit "00:00:01,000 --> 00:00:02,000" ++ [LF]
                       ++ lit "Hello there").

(** A backend that is never reached, and two configurations: no service
    selected; Azure selected without key and region. *)
Definition offline (r : request) : py string :=
  Raise (ConnectionError "offline").

Definition no_service : TranslatorService :=
  {| current_service := None; azure_key := ""; azure_region := "";
     google_key := ""; deepl_key := "" |}.

Definition azure_without_key : TranslatorService :=
  {| current_service := Some "Azure"%string; azure_key := "";
     azure_region := ""; google_key := ""; deepl_key := "" |}.

(* ================================================================== *)
(** ** A subtitle file as it is usually written *)

(** One block: an optional counter line, the time line (start, arrow, and
    whatever follows the arrow on that line), the caption lines, a blank
    line. *)
Record block : Type := {
  index : option str;
  start_time : str;
  end_time : str;
  lines : list str
}.

Definition index_line (b : block) : str :=
  match index b with
  | Some i => i ++ [LF]
  | None => []
  end.

Definition render (b : block) : str :=
  index_line b
  ++ start_time b ++ lit " --> " ++ end_time b ++ [LF]
  ++ join [LF] (lines b) ++ [LF; LF].

Definition well_formed (b : block) : bool :=
  match index b with
  | Some i => truthy i && forallb is_digit i
  | None => true
  end
  && is_raw_timestamp (start_time b)
  && forallb (fun c => negb (nl c)) (end_time b)
  && match lines b with [] => false | _ => true end
  && forallb clean_line (lines b).

(** The entry the program keeps of a block. *)
Definition entry_of (b : block) : entry :=
  (replace_char "." "," (start_time b), join [SP] (lines b)).

(** The first three characters are two digits and a colon. *)
Definition timestamp_head (s : str) : bool :=
  match s with
  | a :: b :: c :: _ => is_digit a && is_digit b && is_char ":" c
  | _ => false
  end.

(** The text starts with two line breaks of the pattern. *)
Definition starts_two_nl (s : str) : bool :=
  match s with
  | a :: b :: _ => nl a && nl b
  | _ => false
  end.

(** Two blocks: one with a counter line and a caption of two lines, one
    without counter line and with time stamps written with full stops. *)
Definition sample_blocks : list block :=
  [ {| index := Some (lit "1");
       start_time := lit "00:00:01,000";
       end_time := lit "00:00:02,500";
       lines := [lit "Hello there"; lit "General Kenobi"] |};
    {| index := None;
       start_time := lit "00:01:03.250";
       end_time := lit "00:01:04.000 X1:10";
       lines := [lit "Bye"] |} ].

(* ================================================================== *)
(** ** Invariants of the state *)

(** Every stored result record is an entry of a file that is loaded. *)
Definition results_in_corpus (st : state) : Prop :=
  forall filename start_time text,
    In (filename, start_time, text) (search_results st) ->
    exists subtitles,
      In (filename, subtitles) (subtitle_data st)
      /\ In (start_time, text) subtitles.

(** The state of the program is well formed: the file names of the corpus
    are distinct, as the keys of a dictionary are, and the result set
    refers to the corpus. *)
Definition state_ok (st : state) : Prop :=
  NoDup (keys (subtitle_data st)) /\ results_in_corpus st.

(* ================================================================== *)
(** ** [TranslatorService.test_api] *)

(** The keyword arguments of [test_api]: a credential typed in the settings
    window, when given, is used in place of the stored one. *)
Record test_kwargs : Type := {
  kw_azure_key : option string;
  kw_azure_region : option string;
  kw_google_key : option string;
  kw_deepl_key : option string
}.

(** [kwargs.get(name, default)] *)
Definition kwargs_get (value : option string) (default : string) : string :=
  match value with
  | Some v => v
  | None => default
  end.

Definition test_text : str := lit "Hello, world!".

(** The text a provider call is given, and whether the call is to the free
    endpoint. *)
Definition request_text (rq : request) : str :=
  match rq with
  | translate_azure text _ _ | translate_google_paid text _
  | translate_google_free text | translate_deepl text _ => text
  end.

Definition is_free_request (rq : request) : bool :=
  match rq with
  | translate_google_free _ => true
  | _ => false
  end.

Section ProbeAndBatch.
Variable backend : request -> py string.

(** The check after the provider call; the provider's answer is a text
    here, so [isinstance(translated_text, str)] holds. *)
Definition test_api_check (service translated_text : string) : bool * string :=
  if nonempty translated_text
     && negb (String.eqb translated_text "Hello, world!")
  then (true, (service ++ " API 测试成功")%string)
  else (false,
        (service ++ " API 测试似乎成功，但未返回预期翻译结果。")%string).

Definition test_api_call (service : string) (rq : request)
  : py (bool * string) * list request :=
  (match backend rq with
   | Return translated_text => Return (test_api_check service translated_text)
   | Raise e => Raise e
   end, [rq]).

(** The body of the [try] block. *)
Definition test_api_try (self : TranslatorService) (service : string)
           (kwargs : test_kwargs) : py (bool * string) * list request :=
  let azure_key := kwargs_get (kw_azure_key kwargs) (azure_key self) in
  let azure_region := kwargs_get (kw_azure_region kwargs) (azure_region self) in
  let google_key := kwargs_get (kw_google_key kwargs) (google_key self) in
  let deepl_key := kwargs_get (kw_deepl_key kwargs) (deepl_key self) in
  if String.eqb service "Azure" then
    if negb (nonempty azure_key) || negb (nonempty azure_region)
    then (Return (false, "请填写 Azure API Key 和 Region"%string), [])
    else test_api_call service (translate_azure test_text azure_key azure_region)
  else if String.eqb service "Google" then
    if nonempty google_key
    then test_api_call service (translate_google_paid test_text google_key)
    else test_api_call service (translate_google_free test_text)
  else if String.eqb service "DeepL" then
    if negb (nonempty deepl_key)
    then (Return (false, "请填写 DeepL API Key"%string), [])
    else test_api_call service (translate_deepl test_text deepl_key)
  else (Return (false, ("未知的服务: " ++ service)%string), []).

(** The two [except] clauses. *)
Definition test_api_except (service : string) (r : py (bool * string))
  : py (bool * string) :=
  match r with
  | Return v => Return v
  | Raise (ConnectionError m) | Raise (TimeoutError m) | Raise (ValueError m)
  | Raise (KeyError m) | Raise (IndexError m) =>
      Return (false, (service ++ " API 测试失败: " ++ m)%string)
  | Raise e =>
      Return (false,
              (service ++ " API 测试遇到未知错误: " ++ exn_message e)%string)
  end.

(** [test_api]: what it returns or raises, and the provider calls it
    made. *)
Definition test_api (self : TranslatorService) (service : string)
           (kwargs : test_kwargs) : py (bool * string) * list request :=
  let (r, sent) := test_api_try self service kwargs in
  (test_api_except service r, sent).

(* ---------------------------------------------------------------- *)
(** [_translate_all_results]: the loop over the stored results; the
    progress messages, which depend on the clock, are left out. *)
Fixpoint translate_all_loop (self : TranslatorService)
         (results : list match_record)
         (translated_results_data : list (match_record * string))
         (sent : list request)
  : py (list (match_record * string)) * list request :=
  match results with
  | [] => (Return translated_results_data, sent)
  | (filename, start_time, original_text) :: rest =>
      let (r, s) := translate backend self original_text in
      match r with
      | Return translated =>
          translate_all_loop self rest
            (translated_results_data
             ++ [(filename, start_time, original_text, translated)])
            (sent ++ s)
      | Raise e => (Raise e, sent ++ s)
      end
  end.

Definition translate_all_results (self : TranslatorService) (st : state)
  : py (list (match_record * string)) * list request :=
  translate_all_loop self (search_results st) [] [].

(** The text [translate] hands back. *)
Definition translated (self : TranslatorService) (text : str) : string :=
  match fst (translate backend self text) with
  | Return s => s
  | Raise e => exn_message e
  end.
End ProbeAndBatch.

(** The entries of the settings window: the chosen service and the four
    credential fields. *)
Record settings : Type := {
  service_var : string;
  azure_key_entry : string;
  azure_region_entry : string;
  google_key_entry : string;
  deepl_key_entry : string
}.

(** [save_settings]: the entries become the configuration. *)
Definition save_settings (entries : settings) : TranslatorService :=
  {| current_service := Some (service_var entries);
     azure_key := azure_key_entry entries;
     azure_region := azure_region_entry entries;
     google_key := google_key_entry entries;
     deepl_key := deepl_key_entry entries |}.

(** The keyword arguments that the Test button of the Google row passes to
    [test_api]: the content of the Google key field, also when it is
    empty. *)
Definition google_test_kwargs (entries : settings) : test_kwargs :=
  {| kw_azure_key := None; kw_azure_region := None;
     kw_google_key := Some (google_key_entry entries); kw_deepl_key := None |}.

(** What [translate] promises of a provider call it makes: the call is to
    the provider of the selected service, with the stored credentials, none
    of them empty; the Google and DeepL calls get the text as it was given.
    Nothing is said of the text of the Azure call, which [_translate_azure]
    rewrites before its request. *)
Definition call_of_selected_service (self : TranslatorService) (text : str)
           (rq : request) : Prop :=
  match rq with
  | translate_azure _ key region =>
      current_service self = Some "Azure"%string
      /\ key = azure_key self /\ nonempty key = true
      /\ region = azure_region self /\ nonempty region = true
  | translate_google_paid t key =>
      current_service self = Some "Google"%string
      /\ key = google_key self /\ nonempty key = true /\ t = text
  | translate_deepl t key =>
      current_service self = Some "DeepL"%string
      /\ key = deepl_key self /\ nonempty key = true /\ t = text
  | translate_google_free _ => False
  end.

Definition deepl_with_key : TranslatorService :=
  {| current_service := Some "DeepL"%string; azure_key := "";
     azure_region := ""; google_key := ""; deepl_key := "k" |}.

(** The settings window with Google chosen and every field left empty, and
    a configuration that holds a Google key. *)
Definition google_chosen_no_key : settings :=
  {| service_var := "Google"; azure_key_entry := ""; azure_region_entry := "";
     google_key_entry := ""; deepl_key_entry := "" |}.

Definition google_with_key : TranslatorService :=
  {| current_service := Some "Google"%string; azure_key := "";
     azure_region := ""; google_key := "k"; deepl_key := "" |}.

(** A backend that answers every call with the same text. *)
Definition answering (r : request) : py string := Return "你好"%string.

(* ================================================================== *)
(** ** The provider calls: transport and answer *)

(** A value as [response.json()] builds it: a text by its characters, as
    the subtitle texts are; an object as the dictionary that [json] builds,
    with distinct keys. *)
#[warnings="-register-all"]
Inductive json : Type :=
| JNull
| JBool (b : bool)
| JNumber (literal : string)
| JString (s : str)
| JArray (items : list json)
| JObject (members : list (string * json)).

(** [a == b] on texts *)
Definition str_eqb (a b : str) : bool :=
  if list_eq_dec Ascii.ascii_dec a b then true else false.

(** [str(KeyError(key))] *)
Definition key_error_text (key : string) : string :=
  ("'" ++ key ++ "'")%string.

Section Answers.
(** [str(data)] inside the messages, and the text of the [TypeError] that
    the interpreter raises on a value that cannot be searched or indexed;
    [TypeError] is not among the exceptions the program names, so it is an
    [OtherException]. *)
Variable py_repr : json -> string.
Variable type_error_text : json -> string.

Definition TypeError (x : json) : exn := OtherException (type_error_text x).

Definition bind {A B : Type} (a : py A) (f : A -> py B) : py B :=
  match a with
  | Return v => f v
  | Raise e => Raise e
  end.

(** [a and b] where it decides an [if]: [b] is not looked at when [a] is
    false. *)
Definition py_and (a b : py bool) : py bool :=
  bind a (fun v => if v then b else Return false).

(** [key in x], for a text [key]: a key of a dictionary, an item of a
    list, a part of a text; a [TypeError] on anything else. *)
Definition py_in (key : string) (x : json) : py bool :=
  match x with
  | JObject members => Return (dict_mem key members)
  | JArray items =>
      Return (existsb (fun i => match i with
                                | JString s => str_eqb s (lit key)
                                | _ => false
                                end) items)
  | JString s => Return (contains (lit key) s)
  | _ => Raise (TypeError x)
  end.

(** [x[key]], for a text [key] *)
Definition py_getitem (x : json) (key : string) : py json :=
  match x with
  | JObject members =>
      match dict_get key members with
      | Some v => Return v
      | None => Raise (KeyError (key_error_text key))
      end
  | _ => Raise (TypeError x)
  end.

(** [x[0]] *)
Definition py_first (x : json) : py json :=
  match x with
  | JArray (i :: _) => Return i
  | JArray [] => Raise (IndexError "list index out of range")
  | JString (c :: _) => Return (JString [c])
  | JString [] => Raise (IndexError "string index out of range")
  | JObject _ => Raise (KeyError "0")
  | _ => Raise (TypeError x)
  end.

(** A chain of subscripts, [x[0]['translations'][0]] and the like. *)
Inductive subscript : Type :=
| at0
| at_key (key : string).

Fixpoint py_path (x : json) (path : list subscript) : py json :=
  match path with
  | [] => Return x
  | at0 :: rest => bind (py_first x) (fun y => py_path y rest)
  | at_key key :: rest => bind (py_getitem x key) (fun y => py_path y rest)
  end.

(** [isinstance(x, list) and x] *)
Definition nonempty_list (x : json) : bool :=
  match x with
  | JArray (_ :: _) => true
  | _ => false
  end.

(** The answer check of [_translate_azure]. *)
Definition azure_answer (data : json) : py json :=
  bind
    (py_and (Return (nonempty_list data))
    (py_and (bind (py_path data [at0]) (py_in "translations"))
    (py_and (bind (py_path data [at0; at_key "translations"])
                  (fun t => Return (nonempty_list t)))
            (bind (py_path data [at0; at_key "translations"; at0])
                  (py_in "text")))))
    (fun ok =>
       if ok
       then py_path data [at0; at_key "translations"; at0; at_key "text"]
       else Raise (ValueError
                     ("Azure API 返回了非预期的格式: " ++ py_repr data)%string)).

(** The answer check of [_translate_google_paid]. *)
Definition google_paid_answer (data : json) : py json :=
  bind
    (py_and (py_in "data" data)
    (py_and (bind (py_path data [at_key "data"]) (py_in "translations"))
    (py_and (bind (py_path data [at_key "data"; at_key "translations"])
                  (fun t => Return (nonempty_list t)))
            (bind (py_path data [at_key "data"; at_key "translations"; at0])
                  (py_in "translatedText")))))
    (fun ok =>
       if ok
       then py_path data [at_key "data"; at_key "translations"; at0;
                          at_key "translatedText"]
       else Raise (ValueError
                     ("Google Paid API 返回了非预期的格式: "
                      ++ py_repr data)%string)).

(** The answer check of [_translate_deepl]. *)
Definition deepl_answer (data : json) : py json :=
  bind
    (py_and (py_in "translations" data)
    (py_and (bind (py_path data [at_key "translations"])
                  (fun t => Return (nonempty_list t)))
            (bind (py_path data [at_key "translations"; at0])
                  (py_in "text"))))
    (fun ok =>
       if ok
       then py_path data [at_key "translations"; at0; at_key "text"]
       else Raise (ValueError
                     ("DeepL API 返回了非预期的格式: " ++ py_repr data)%string)).

(** What [requests.request] followed by [raise_for_status] meets: a
    time-out, another failure of the request, or a response with its status
    code, the text of the [HTTPError] that the status would raise, and what
    [response.json()] makes of the body. *)
Inductive body : Type :=
| parsed (data : json)
| not_json (error : string).

Inductive transport : Type :=
| timed_out
| request_failed (error : string)
| responded (status_code : nat) (http_error : string) (content : body).

(** [_make_request]: the response (here its body), or the exception. *)
Definition _make_request (t : transport) : py body :=
  match t with
  | timed_out => Raise (TimeoutError "请求超时")
  | request_failed error =>
      Raise (ConnectionError ("网络请求失败: " ++ error)%string)
  | responded status_code http_error content =>
      if (400 <=? status_code) && (status_code <? 600)
      then Raise (ConnectionError ("网络请求失败: " ++ http_error)%string)
      else Return content
  end.

(** [response.json()]; its decoding error is a [ValueError]. *)
Definition response_json (content : body) : py json :=
  match content with
  | parsed data => Return data
  | not_json error => Raise (ValueError error)
  end.

(** [_translate_azure], [_translate_google_paid], [_translate_deepl], from
    the request on: one request, then the check of the answer.  What
    [_translate_azure] does before its request, the splice of the text into
    the body, is not part of this. *)
Definition _translate_azure (t : transport) : py json :=
  bind (_make_request t) (fun response =>
  bind (response_json response) azure_answer).

Definition _translate_google_paid (t : transport) : py json :=
  bind (_make_request t) (fun response =>
  bind (response_json response) google_paid_answer).

Definition _translate_deepl (t : transport) : py json :=
  bind (_make_request t) (fun response =>
  bind (response_json response) deepl_answer).
End Answers.

(** The request failed with the text [e], other than by a time-out: it
    raised, or [raise_for_status] turned its status down. *)
Definition network_failure (t : transport) (e : string) : Prop :=
  t = request_failed e \/
  exists status_code content,
    t = responded status_code e content /\ 400 <= status_code < 600.

(** An answer that holds the key only as a text. *)
Definition text_holding_the_key : json :=
  JArray [JString (lit "translations")].

(* ================================================================== *)
(** ** The file list on screen *)

(** The [Treeview] of the loaded files: its rows from top to bottom, each
    with its item id (the file name) and its count column, and the ids of
    the selected rows. *)
Record file_tree : Type := {
  children : list (string * string);
  selection : list string
}.

(** [file_tree.exists(item)] *)
Definition tree_exists (item : string) (tree : file_tree) : bool :=
  existsb (String.eqb item) (map fst (children tree)).

(** [file_tree.delete(item)] for a row of the tree: the row goes, and
    leaves the selection. *)
Definition tree_delete (item : string) (tree : file_tree) : file_tree :=
  {| children := filter (fun r => negb (String.eqb (fst r) item))
                        (children tree);
     selection := filter (fun i => negb (String.eqb i item))
                         (selection tree) |}.

(** [file_tree.insert("", "end", iid=..., values=(...,))]: a new last row;
    an id that is in use is refused with a [TclError]. *)
Definition tree_insert (iid count : string) (tree : file_tree)
  : py file_tree :=
  if tree_exists iid tree
  then Raise (OtherException ("Item " ++ iid ++ " already exists")%string)
  else Return {| children := children tree ++ [(iid, count)];
                 selection := selection tree |}.

(** [sorted(names)]: the names in ascending order of their characters. *)
Fixpoint insert_sorted (name : string) (names : list string) : list string :=
  match names with
  | [] => [name]
  | other :: rest =>
      if String.leb name other then name :: other :: rest
      else other :: insert_sorted name rest
  end.

Definition sorted (names : list string) : list string :=
  fold_right insert_sorted [] names.

(** The count column, [f"{len(subtitles)}条"]. *)
Definition count_text (n : nat) : string := (str_of_nat n ++ "条")%string.

(** The [for item in self.file_tree.get_children()] loop of
    [update_file_list]. *)
Fixpoint delete_children (items : list string) (tree : file_tree)
  : file_tree :=
  match items with
  | [] => tree
  | item :: rest => delete_children rest (tree_delete item tree)
  end.

(** The [for filename in sorted_filenames] loop of [update_file_list]. *)
Fixpoint fill_tree (sorted_filenames : list string)
         (subtitle_data : dict (list entry)) (tree : file_tree)
  : py file_tree :=
  match sorted_filenames with
  | [] => Return tree
  | filename :: rest =>
      match dict_get filename subtitle_data with
      | None => Raise (KeyError (key_error_text filename))
      | Some subtitles =>
          bind (tree_insert filename (count_text (length subtitles)) tree)
               (fill_tree rest subtitle_data)
      end
  end.

(** [update_file_list] *)
Definition update_file_list (subtitle_data : dict (list entry))
           (tree : file_tree) : py file_tree :=
  let selected_items := selection tree in
  let tree := delete_children (map fst (children tree)) tree in
  bind (fill_tree (sorted (keys subtitle_data)) subtitle_data tree)
       (fun tree =>
          let items_to_reselect :=
            filter (fun item => tree_exists item tree) selected_items in
          match items_to_reselect with
          | [] => Return tree
          | _ => Return {| children := children tree;
                           selection := items_to_reselect |}
          end).

(** What the [for filename in filenames_to_delete] loop of
    [delete_selected] does to the file list, beside [delete_loop]. *)
Fixpoint delete_loop_tree (filenames_to_delete : list string)
         (subtitle_data : dict (list entry)) (tree : file_tree)
  : file_tree :=
  match filenames_to_delete with
  | [] => tree
  | filename :: rest =>
      if dict_mem filename subtitle_data
      then delete_loop_tree rest (dict_del filename subtitle_data)
                            (if tree_exists filename tree
                             then tree_delete filename tree
                             else tree)
      else delete_loop_tree rest subtitle_data tree
  end.

(** The file list shows the corpus: a row for each loaded file, in the
    order of the names, with the number of its entries; and only rows are
    selected. *)
Definition row_of (subtitle_data : dict (list entry)) (filename : string)
  : string * string :=
  (filename,
   count_text (match dict_get filename subtitle_data with
               | Some subtitles => length subtitles
               | None => 0
               end)).

Definition shows (tree : file_tree) (subtitle_data : dict (list entry))
  : Prop :=
  children tree = map (row_of subtitle_data) (sorted (keys subtitle_data))
  /\ incl (selection tree) (map fst (children tree)).

(** [a <= b] on names *)
Definition name_le (a b : string) : Prop := String.leb a b = true.

(** [item in items] *)
Definition name_in (item : string) (items : list string) : bool :=
  existsb (String.eqb item) items.

(** A file list with no row yet. *)
Definition empty_tree : file_tree := {| children := []; selection := [] |}.

(* ================================================================== *)
(** * Properties *)

(** ** Substring test *)

Lemma starts_with_iff (needle hay : str) :
  starts_with needle hay = true <-> exists post, hay = needle ++ post.
Proof.
  revert hay; induction needle as [|a n IH]; intros hay; simpl.
  - split; [intros _; now exists hay | reflexivity].
  - destruct hay as [|b h].
    + split; [discriminate | intros [post H]; discriminate].
    + rewrite andb_true_iff, Ascii.eqb_eq, IH. split.
      * intros [-> [post ->]]. now exists post.
      * intros [post H]. injection H as -> ->. split; [reflexivity | now exists post].
Qed.

Lemma contains_iff (needle hay : str) :
  contains needle hay = true <-> exists pre post, hay = pre ++ needle ++ post.
Proof.
  induction hay as [|b h IH].
  - simpl. rewrite orb_false_r, starts_with_iff. split.
    + intros [post H]. now exists [], post.
    + intros [pre [post H]]. destruct pre; simpl in H.
      * now exists post.
      * discriminate.
  - cbn [contains]. rewrite orb_true_iff, starts_with_iff, IH. split.
    + intros [[post H] | [pre [post H]]].
      * now exists [], post.
      * exists (b :: pre), post. now rewrite H.
    + intros [pre [post H]]. destruct pre as [|c pre]; simpl in H.
      * left. now exists post.
      * right. injection H as _ H. now exists pre, post.
Qed.

(** ** The search loops *)

Lemma scan_subtitles_app query_lower filename subtitles temp_results :
  scan_subtitles query_lower filename subtitles temp_results =
  temp_results ++
  map (fun e => (filename, fst e, snd e))
      (filter (fun e => contains query_lower (lower (snd e))) subtitles).
Proof.
  revert temp_results.
  induction subtitles as [|[start_time text] rest IH]; intros acc; simpl.
  - now rewrite app_nil_r.
  - destruct (contains query_lower (lower text)); rewrite IH.
    + now rewrite <- app_assoc.
    + reflexivity.
Qed.

Lemma scan_files_app query_lower items temp_results :
  scan_files query_lower items temp_results =
  temp_results ++
  flat_map (fun item =>
              map (fun e => (fst item, fst e, snd e))
                  (filter (fun e => contains query_lower (lower (snd e)))
                          (snd item)))
           items.
Proof.
  revert temp_results.
  induction items as [|[filename subtitles] rest IH]; intros acc; simpl.
  - now rewrite app_nil_r.
  - rewrite IH, scan_subtitles_app. now rewrite <- app_assoc.
Qed.

Lemma search_task_flat_map subtitle_data query :
  search_task subtitle_data query =
  flat_map (fun item => matches_of query (fst item) (snd item)) subtitle_data.
Proof.
  unfold search_task. now rewrite scan_files_app.
Qed.

Lemma search_results_of_search search_entry st :
  truthy (strip search_entry) = true ->
  subtitle_data st <> [] ->
  fst (search search_entry st) =
  {| subtitle_data := subtitle_data st;
     search_results := search_task (subtitle_data st) (strip search_entry) |}.
Proof.
  intros Hq Hd. unfold search. rewrite Hq. simpl.
  destruct (subtitle_data st) as [|item rest] eqn:E; [congruence|].
  reflexivity.
Qed.

(** ** The corpus as an insertion-ordered dictionary *)

Section DictFacts.
Variable V : Type.
Implicit Types (dd : dict V) (key : string) (v : V).

Lemma dict_mem_keys key dd : dict_mem key dd = true <-> In key (keys dd).
Proof.
  induction dd as [|[k w] rest IH]; simpl.
  - split; [discriminate | tauto].
  - rewrite orb_true_iff, String.eqb_eq, IH. tauto.
Qed.

Lemma dict_set_new_keys key v dd :
  dict_mem key dd = false -> keys (dict_set key v dd) = keys dd ++ [key].
Proof.
  induction dd as [|[k w] rest IH]; simpl; intros H.
  - reflexivity.
  - apply orb_false_iff in H as [Hk Hr]. rewrite Hk. simpl.
    now rewrite IH.
Qed.

Lemma dict_mem_set key key' v dd :
  dict_mem key (dict_set key' v dd) = String.eqb key' key || dict_mem key dd.
Proof.
  induction dd as [|[k w] rest IH]; simpl.
  - now rewrite orb_false_r.
  - destruct (String.eqb k key') eqn:E; simpl.
    + apply String.eqb_eq in E. subst k.
      destruct (String.eqb key' key); reflexivity.
    + rewrite IH. destruct (String.eqb k key), (String.eqb key' key);
        reflexivity.
Qed.

Lemma dict_get_del_other key key' dd :
  key <> key' -> dict_get key (dict_del key' dd) = dict_get key dd.
Proof.
  intros Hne. induction dd as [|[k w] rest IH]; simpl.
  - reflexivity.
  - destruct (String.eqb k key') eqn:E; simpl.
    + apply String.eqb_eq in E. subst k.
      destruct (String.eqb key' key) eqn:E'.
      * apply String.eqb_eq in E'. congruence.
      * reflexivity.
    + now rewrite IH.
Qed.

Lemma dict_del_incl key dd x : In x (dict_del key dd) -> In x dd.
Proof.
  induction dd as [|[k w] rest IH]; simpl.
  - tauto.
  - destruct (String.eqb k key); simpl; tauto.
Qed.

Lemma dict_set_In key v dd x :
  In x (dict_set key v dd) -> In x dd \/ x = (key, v).
Proof.
  induction dd as [|[k w] rest IH]; simpl.
  - intros [<-|[]]. now right.
  - destruct (String.eqb k key) eqn:E; simpl.
    + apply String.eqb_eq in E. subst k. intros [<-|H]; auto.
    + intros [<-|H]; auto. destruct (IH H); auto.
Qed.
End DictFacts.

Lemma delete_loop_get filenames dd n key :
  ~ In key filenames ->
  dict_get key (fst (delete_loop filenames dd n)) = dict_get key dd.
Proof.
  revert dd n. induction filenames as [|f rest IH]; intros dd n Hnot; simpl.
  - reflexivity.
  - assert (key <> f) by (intros ->; apply Hnot; now left).
    assert (~ In key rest) by (intros ?; apply Hnot; now right).
    destruct (dict_mem f dd).
    + rewrite IH by assumption. now apply dict_get_del_other.
    + now apply IH.
Qed.

Lemma delete_loop_incl filenames dd n x :
  In x (fst (delete_loop filenames dd n)) -> In x dd.
Proof.
  revert dd n. induction filenames as [|f rest IH]; intros dd n; simpl.
  - tauto.
  - destruct (dict_mem f dd); intros H; apply IH in H.
    + eapply dict_del_incl; eassumption.
    + assumption.
Qed.

(** Loading puts a new file after the files already loaded. *)
Lemma select_files_step_keys total i f p :
  keys (data (select_files_step total i f p)) = keys (data p) \/
  (dict_mem (basename f) (data p) = false /\
   keys (data (select_files_step total i f p)) = keys (data p) ++ [basename f]).
Proof.
  unfold select_files_step.
  destruct (dict_mem (basename f) (data p)) eqn:Hm; [now left|].
  unfold load_srt_file.
  destruct (first_decoding SUPPORTED_ENCODINGS f) as [[content enc]|];
    [|now left].
  destruct (parse content) as [|e es]; [now left|].
  right. split; [reflexivity|]. simpl. now apply dict_set_new_keys.
Qed.

(** ** Search order *)

(** C1, as amended: for a non-blank query over a non-empty corpus, the
    result sequence is the concatenation, file after file in the order of
    the dictionary (the order in which the files were loaded, a newly loaded
    file going last), of each file's matching entries in their parsed
    order.  The files are not sorted by identifier. *)
Theorem search_grouped_in_load_order :
  forall (search_entry : str) (st : state),
    truthy (strip search_entry) = true ->
    subtitle_data st <> [] ->
    search_results (fst (search search_entry st)) =
      flat_map (fun item => matches_of (strip search_entry) (fst item) (snd item))
               (subtitle_data st)
    /\ forall total i f p,
        keys (data (select_files_step total i f p)) = keys (data p) \/
        (dict_mem (basename f) (data p) = false /\
         keys (data (select_files_step total i f p))
         = keys (data p) ++ [basename f]).
Proof.
  intros q st Hq Hd. split.
  - rewrite search_results_of_search by assumption. simpl.
    apply search_task_flat_map.
  - intros. apply select_files_step_keys.
Qed.

Lemma search_grouped_in_load_order_witness :
  search_results (fst (search (lit "hello") loaded_b_then_a)) =
  flat_map (fun item => matches_of (strip (lit "hello")) (fst item) (snd item))
           (subtitle_data loaded_b_then_a).
Proof.
  apply (search_grouped_in_load_order (lit "hello") loaded_b_then_a).
  - reflexivity.
  - vm_compute. discriminate.
Defined.

(** C1, as stated, fails: with b.srt loaded before a.srt, a valid query
    returns the records of b.srt before those of a.srt. *)
Lemma search_order_counterexample :
  truthy (strip (lit "hello")) = true /\
  map file_of (search_results (fst (search (lit "hello") loaded_b_then_a)))
  = ["b.srt"; "a.srt"]%string /\
  ascending
    (map file_of (search_results (fst (search (lit "hello") loaded_b_then_a))))
  = false.
Proof. vm_compute. repeat split; reflexivity. Qed.

(** ** Search over an empty corpus *)

(** C5, as amended: with a non-blank query and an empty corpus, [search]
    shows the warning that asks for files first, runs no search and leaves
    the state, its result set included, as it was. *)
Theorem search_empty_corpus_warns :
  forall (search_entry : str) (st : state),
    truthy (strip search_entry) = true ->
    subtitle_data st = [] ->
    search search_entry st = (st, [ShowWarning "提示" "请先添加 SRT 文件"]).
Proof.
  intros q st Hq Hd. unfold search. rewrite Hq, Hd. reflexivity.
Qed.

Lemma search_empty_corpus_warns_witness :
  search (lit "hello") initial =
  (initial, [ShowWarning "提示" "请先添加 SRT 文件"]).
Proof.
  apply (search_empty_corpus_warns (lit "hello") initial); reflexivity.
Defined.

(** C5, as stated, fails: the search over the empty corpus is answered by a
    warning box, not by a completed search with no records. *)
Lemma search_empty_corpus_counterexample :
  truthy (strip (lit "hello")) = true /\
  subtitle_data initial = [] /\
  exists title message,
    In (ShowWarning title message) (snd (search (lit "hello") initial)).
Proof.
  repeat split. eexists _, _. vm_compute. left. reflexivity.
Qed.

(** ** Case-insensitive matching *)

Lemma In_search_task subtitle_data query filename start_time text :
  In (filename, start_time, text) (search_task subtitle_data query) <->
  exists subtitles,
    In (filename, subtitles) subtitle_data /\
    In (start_time, text) subtitles /\
    contains (lower query) (lower text) = true.
Proof.
  rewrite search_task_flat_map, in_flat_map. unfold matches_of. split.
  - intros [[f subs] [Hin Hrec]]. simpl in Hrec.
    apply in_map_iff in Hrec as [[t x] [Heq He]]. simpl in Heq.
    injection Heq as -> -> ->.
    apply filter_In in He as [He Hc]. now exists subs.
  - intros [subs [Hin [He Hc]]]. exists (filename, subs). split; [assumption|].
    simpl. apply in_map_iff. exists (start_time, text). split; [reflexivity|].
    apply filter_In. now split.
Qed.

(** C8: searching for HELLO and searching for hello leave the same result
    set in every state, and a record is in the result of the search task
    exactly when its entry belongs to a loaded file and the lower-cased
    query occurs as a substring of the lower-cased entry text. *)
Theorem search_case_insensitive :
  (forall st : state,
      search_results (fst (search (lit "HELLO") st)) =
      search_results (fst (search (lit "hello") st)))
  /\ (forall subtitle_data : dict (list entry),
         search_task subtitle_data (lit "HELLO") =
         search_task subtitle_data (lit "hello"))
  /\ (forall subtitle_data query filename start_time text,
         In (filename, start_time, text) (search_task subtitle_data query) <->
         exists subtitles,
           In (filename, subtitles) subtitle_data /\
           In (start_time, text) subtitles /\
           exists pre post, lower text = pre ++ lower query ++ post).
Proof.
  split; [|split].
  - intros st. unfold search.
    change (strip (lit "HELLO")) with (lit "HELLO").
    change (strip (lit "hello")) with (lit "hello").
    simpl negb. cbv iota.
    destruct (subtitle_data st); reflexivity.
  - intros dd. reflexivity.
  - intros dd q f t x. rewrite In_search_task.
    split; intros [subs [H1 [H2 H3]]]; exists subs; repeat split;
      try assumption; now apply contains_iff.
Qed.

(** ** Removal clears the result set *)

(** C10: a confirmed removal with a non-empty selection empties the stored
    result set, whatever files the records came from, while every file that
    is not in the selection stays in the corpus with its entries. *)
Theorem delete_selected_clears_results :
  forall (selected_items : list string) (st : state),
    selected_items <> [] ->
    search_results (fst (delete_selected selected_items true st)) = []
    /\ forall filename,
        ~ In filename selected_items ->
        dict_get filename
                 (subtitle_data (fst (delete_selected selected_items true st)))
        = dict_get filename (subtitle_data st).
Proof.
  intros sel st Hne. unfold delete_selected.
  destruct sel as [|s0 sel']; [congruence|].
  destruct (delete_loop (s0 :: sel') (subtitle_data st) 0) as [dd n] eqn:E.
  simpl. split; [reflexivity|].
  intros f Hf.
  change dd with (fst (dd, n)). rewrite <- E.
  now apply delete_loop_get.
Qed.

Lemma delete_selected_clears_results_witness :
  search_results
    (fst (delete_selected ["b.srt"%string] true
                          (fst (search (lit "hello") loaded_b_then_a)))) = []
  /\ dict_get "a.srt"
              (subtitle_data
                 (fst (delete_selected ["b.srt"%string] true
                         (fst (search (lit "hello") loaded_b_then_a)))))
     = dict_get "a.srt"
                (subtitle_data (fst (search (lit "hello") loaded_b_then_a))).
Proof.
  destruct (@delete_selected_clears_results ["b.srt"%string]
              (fst (search (lit "hello") loaded_b_then_a))) as [H1 H2].
  - discriminate.
  - split; [exact H1|]. apply H2.
    intros [H|[]]. discriminate.
Defined.

(** ** Loading: duplicates, failures, batches *)

Lemma load_srt_file_decoded subtitle_data f content enc :
  first_decoding SUPPORTED_ENCODINGS f = Some (content, enc) ->
  load_srt_file subtitle_data f =
  match parse content with
  | _ :: _ => Return (dict_set (basename f) (parse content) subtitle_data)
  | [] => Raise (ValueError no_entries_msg)
  end.
Proof.
  intros H. unfold load_srt_file. rewrite H. reflexivity.
Qed.

Lemma select_files_step_mem total i f p key :
  dict_mem key (data p) = true ->
  dict_mem key (data (select_files_step total i f p)) = true.
Proof.
  intros Hk. unfold select_files_step.
  destruct (dict_mem (basename f) (data p)); [assumption|].
  unfold load_srt_file.
  destruct (first_decoding SUPPORTED_ENCODINGS f) as [[content enc]|];
    [|assumption].
  destruct (parse content); [assumption|].
  simpl. rewrite dict_mem_set, Hk. apply orb_true_r.
Qed.

Lemma select_files_loop_mem total i files p key :
  dict_mem key (data p) = true ->
  dict_mem key (data (select_files_loop total i files p)) = true.
Proof.
  revert i p. induction files as [|f rest IH]; intros i p Hk; simpl.
  - assumption.
  - apply IH. now apply select_files_step_mem.
Qed.

Lemma select_files_step_good total i f p content enc :
  first_decoding SUPPORTED_ENCODINGS f = Some (content, enc) ->
  parse content <> [] ->
  dict_mem (basename f) (data (select_files_step total i f p)) = true.
Proof.
  intros Hd Hp. unfold select_files_step.
  destruct (dict_mem (basename f) (data p)) eqn:Hm; [assumption|].
  rewrite (load_srt_file_decoded _ _ Hd).
  destruct (parse content) as [|e es]; [congruence|].
  simpl. rewrite dict_mem_set, String.eqb_refl. reflexivity.
Qed.

(** C4, as amended: when the file's name is already a key of the corpus,
    the round of the loading loop keeps the corpus as it is (nothing is
    merged or replaced), counts no load, records no error and only puts the
    notice that the file was skipped on the status line; a load of that
    single file leaves the whole state unchanged. *)
Theorem duplicate_load_is_skipped :
  forall (total i : nat) (f : file) (p : progress),
    dict_mem (basename f) (data p) = true ->
    data (select_files_step total i f p) = data p
    /\ loaded_count (select_files_step total i f p) = loaded_count p
    /\ error_files (select_files_step total i f p) = error_files p
    /\ shown (select_files_step total i f p) =
       shown p ++ [UpdateStatus ("跳过已加载的文件: " ++ basename f)%string]
    /\ forall st, data p = subtitle_data st ->
                  fst (select_files [f] st) = st.
Proof.
  intros total i f p Hm. unfold select_files_step. rewrite Hm. simpl.
  repeat split. intros st Hst. unfold select_files. simpl.
  unfold select_files_step. simpl. rewrite <- Hst, Hm. simpl.
  rewrite Hst. destruct st; reflexivity.
Qed.

(** The corpus after loading a.srt, and a second file of that name with
    another content. *)
Lemma duplicate_load_is_skipped_witness :
  fst (select_files [text_file "a.srt" (block1 ++ block1)]
                    (fst (select_files [file_a] initial)))
  = fst (select_files [file_a] initial).
Proof.
  refine (proj2 (proj2 (proj2 (proj2
    (@duplicate_load_is_skipped 1 0 (text_file "a.srt" (block1 ++ block1))
       {| data := subtitle_data (fst (select_files [file_a] initial));
          loaded_count := 0; error_files := []; shown := [] |} _)))) _ _).
  - vm_compute. reflexivity.
  - reflexivity.
Defined.

(** C4, as stated, fails: the second load of a.srt reports no error; the
    failure list stays empty, no error box is shown, and the status line
    ends on a plain completion message. *)
Lemma duplicate_load_counterexample :
  select_files [text_file "a.srt" (block1 ++ block1)]
               (fst (select_files [file_a] initial))
  = (fst (select_files [file_a] initial),
     [UpdateStatus "开始加载 1 个文件...";
      UpdateStatus "跳过已加载的文件: a.srt";
      UpdateStatus "加载完成: 成功 0 个。"]).
Proof. vm_compute. reflexivity. Qed.

(** C7: for a file that some supported encoding reads, [load_srt_file]
    raises the no-entries error exactly when the scan of the content yields
    no entry; in the loading loop such a file leaves the corpus and the
    load count as they were and adds one line to the failure list; and the
    loop goes on: every file that comes later in the batch, is readable and
    has an entry is in the corpus when the loop ends. *)
Theorem parse_failure_is_reported_per_file :
  forall (f : file) (content : str) (enc : encoding),
    first_decoding SUPPORTED_ENCODINGS f = Some (content, enc) ->
    (forall subtitle_data,
        load_srt_file subtitle_data f = Raise (ValueError no_entries_msg)
        <-> parse content = [])
    /\ (forall total i p,
           parse content = [] ->
           dict_mem (basename f) (data p) = false ->
           data (select_files_step total i f p) = data p
           /\ loaded_count (select_files_step total i f p) = loaded_count p
           /\ error_files (select_files_step total i f p) =
              error_files p
              ++ [(basename f ++ " (" ++ no_entries_msg ++ ")")%string])
    /\ (forall total i before between after p g content_g enc_g,
           first_decoding SUPPORTED_ENCODINGS g = Some (content_g, enc_g) ->
           parse content_g <> [] ->
           dict_mem (basename g)
             (data (select_files_loop total i
                      (before ++ f :: between ++ g :: after) p)) = true).
Proof.
  intros f content enc Hd. split; [|split].
  - intros dd. rewrite (load_srt_file_decoded _ _ Hd).
    destruct (parse content); split; congruence.
  - intros total i p Hp Hm. unfold select_files_step.
    rewrite Hm, (load_srt_file_decoded _ _ Hd), Hp. simpl. auto.
  - intros total i before between after p g cg eg Hg Hpg.
    revert i p. induction before as [|b before IH]; intros i p.
    + cbn [app select_files_loop].
      generalize (i + 1) (select_files_step total i f p). clear i p.
      induction between as [|a between IHa]; intros i p.
      * cbn [app select_files_loop]. apply select_files_loop_mem.
        eapply select_files_step_good; eassumption.
      * cbn [app select_files_loop]. apply IHa.
    + cbn [app select_files_loop]. apply IH.
Qed.

Lemma parse_failure_is_reported_per_file_witness :
  (load_srt_file [] unterminated_file = Raise (ValueError no_entries_msg)
   <-> parse (lit "00:00:01,000 --> 00:00:02,000" ++ [LF]
              ++ lit "Hello there") = [])
  /\ dict_mem "a.srt"
       (data (select_files_loop 2 0
                ([] ++ unterminated_file :: [] ++ file_a :: [])
                {| data := []; loaded_count := 0; error_files := [];
                   shown := [] |})) = true.
Proof.
  destruct (@parse_failure_is_reported_per_file unterminated_file
              (lit "00:00:01,000 --> 00:00:02,000" ++ [LF]
               ++ lit "Hello there") utf_8) as [H1 [H2 H3]].
  - reflexivity.
  - split.
    + apply H1.
    + apply (H3 2 0 [] [] [] _ file_a block1 utf_8).
      * reflexivity.
      * vm_compute. discriminate.
Defined.

(** ** [translate] *)

(** C6, as amended: [translate] returns a text and never raises, for every
    backend, configuration and input.  With no service selected it returns
    the select-a-service notice, whatever the text, and sends nothing; with
    a service selected and an empty or all-white-space text it returns the
    nothing-to-translate notice and sends nothing; with a service selected,
    a text that is not blank and the credentials of that service missing, it
    returns the notice that names them and sends nothing. *)
Theorem translate_never_raises :
  forall (backend : request -> py string) (self : TranslatorService)
         (text : str),
    (exists s, fst (translate backend self text) = Return s)
    /\ (service_selected self = false ->
        translate backend self text =
        (Return "[请先在设置中选择并配置翻译服务]"%string, []))
    /\ (service_selected self = true ->
        negb (truthy text) || isspace text = true ->
        translate backend self text =
        (Return "[无需翻译的空文本]"%string, []))
    /\ (service_selected self = true ->
        negb (truthy text) || isspace text = false ->
        (current_service self = Some "Azure"%string ->
         nonempty (azure_key self) && nonempty (azure_region self) = false ->
         translate backend self text =
         (Return "[Azure Key/Region 未配置]"%string, []))
        /\ (current_service self = Some "Google"%string ->
            nonempty (google_key self) = false ->
            translate backend self text =
            (Return "[Google API Key 未配置]"%string, []))
        /\ (current_service self = Some "DeepL"%string ->
            nonempty (deepl_key self) = false ->
            translate backend self text =
            (Return "[DeepL Key 未配置]"%string, []))).
Proof.
  intros backend self text. split; [|split; [|split]].
  - unfold translate.
    destruct (service_selected self); simpl; [|eauto].
    destruct (negb (truthy text) || isspace text); simpl; [eauto|].
    destruct (translate_try backend self text) as [r sent] eqn:E. simpl.
    destruct r as [s|e]; simpl; [eauto|].
    destruct e; simpl; eauto.
  - intros H. unfold translate. rewrite H. reflexivity.
  - intros H1 H2. unfold translate. rewrite H1, H2. reflexivity.
  - intros H1 H2. unfold translate, translate_try, is_service.
    rewrite H1, H2. simpl. split; [|split].
    + intros -> Hk. simpl.
      rewrite <- negb_andb, Hk. reflexivity.
    + intros -> Hk. simpl. rewrite Hk. reflexivity.
    + intros -> Hk. simpl. rewrite Hk. reflexivity.
Qed.

Lemma translate_never_raises_witness :
  (exists s, fst (translate offline azure_without_key (lit "hello")) = Return s)
  /\ translate offline no_service (lit "hello") =
     (Return "[请先在设置中选择并配置翻译服务]"%string, [])
  /\ translate offline azure_without_key (lit "   ") =
     (Return "[无需翻译的空文本]"%string, [])
  /\ translate offline azure_without_key (lit "hello") =
     (Return "[Azure Key/Region 未配置]"%string, []).
Proof.
  destruct (translate_never_raises offline azure_without_key (lit "hello"))
    as [H1 [_ [_ H4]]].
  destruct (translate_never_raises offline no_service (lit "hello"))
    as [_ [H2 _]].
  destruct (translate_never_raises offline azure_without_key (lit "   "))
    as [_ [_ [H3 _]]].
  split; [exact H1|].
  split; [apply H2; reflexivity|].
  split; [apply H3; reflexivity|].
  apply H4; reflexivity.
Defined.

(** C6, as stated, fails where two of its cases meet: with no service
    selected an empty text gets the select-a-service notice, not the
    nothing-to-translate notice; with Azure selected and no key, a text of
    spaces gets the nothing-to-translate notice, not the notice about the
    missing key. *)
Lemma translate_guard_order_counterexample :
  fst (translate offline no_service [])
  = Return "[请先在设置中选择并配置翻译服务]"%string
  /\ fst (translate offline no_service [])
     <> Return "[无需翻译的空文本]"%string
  /\ fst (translate offline azure_without_key (lit "   "))
     = Return "[无需翻译的空文本]"%string
  /\ fst (translate offline azure_without_key (lit "   "))
     <> Return "[Azure Key/Region 未配置]"%string.
Proof.
  repeat split; try reflexivity; vm_compute; discriminate.
Qed.

(** ** The matcher finds only what the pattern describes *)

Section Soundness.
Variable A : Type.

Lemma greedy_sound p min s (k : str -> option A) res :
  greedy p min s k = Some res ->
  exists w rest,
    s = w ++ rest /\ forallb p w = true /\ min <= length w /\ k rest = Some res.
Proof.
  revert min. induction s as [|c s' IH]; intros min H; simpl in H.
  - destruct (min =? 0) eqn:E; [|discriminate].
    apply Nat.eqb_eq in E. exists [], []. repeat split; simpl; auto. lia.
  - assert (Hstop : (if min =? 0 then k (c :: s') else None) = Some res ->
                    exists w rest, c :: s' = w ++ rest /\ forallb p w = true
                                   /\ min <= length w /\ k rest = Some res).
    { destruct (min =? 0) eqn:E; [|discriminate].
      apply Nat.eqb_eq in E. intros Hk.
      exists [], (c :: s'). repeat split; simpl; auto. lia. }
    destruct (p c) eqn:Hp; [|auto].
    destruct (greedy p (pred min) s' k) as [r|] eqn:Hg; [|auto].
    injection H as ->.
    destruct (IH _ Hg) as [w [rest [-> [Hw [Hlen Hk]]]]].
    exists (c :: w), rest. repeat split; simpl; auto.
    + now rewrite Hp, Hw.
    + lia.
Qed.

Lemma lazy_sound p s (k : str -> option A) res :
  lazy p s k = Some res ->
  exists w rest, s = w ++ rest /\ forallb p w = true /\ k rest = Some res.
Proof.
  induction s as [|c s' IH]; intros H; simpl in H.
  - destruct (k []) eqn:Hk; [|discriminate].
    injection H as ->. now exists [], [].
  - destruct (k (c :: s')) eqn:Hk.
    + injection H as ->. now exists [], (c :: s').
    + destruct (p c) eqn:Hp; [|discriminate].
      destruct (IH H) as [w [rest [-> [Hw Hk']]]].
      exists (c :: w), rest. repeat split; simpl; auto. now rewrite Hp, Hw.
Qed.

Lemma bt_sound r :
  forall s caps (k : str -> captures -> option A) res,
    bt r s caps k = Some res ->
    exists w rest caps',
      s = w ++ rest /\ matches r w caps caps' /\ k rest caps' = Some res.
Proof.
  induction r as [|p|r1 IH1 r2 IH2|n r1 IH1|min p|p]; intros s caps k res H;
    simpl in H.
  - exists [], s, caps. repeat split; auto. constructor.
  - destruct s as [|c s']; [discriminate|].
    destruct (p c) eqn:Hp; [|discriminate].
    exists [c], s', caps. repeat split; auto. now constructor.
  - apply IH1 in H as [w1 [rest1 [caps1 [-> [M1 H]]]]].
    apply IH2 in H as [w2 [rest2 [caps2 [-> [M2 H]]]]].
    exists (w1 ++ w2), rest2, caps2. repeat split; auto.
    + now rewrite app_assoc.
    + econstructor; eassumption.
  - apply IH1 in H as [w [rest [caps1 [-> [M H]]]]].
    rewrite length_app, Nat.add_sub, firstn_app, firstn_all, Nat.sub_diag,
      firstn_0, app_nil_r in H.
    exists w, rest, ((n, w) :: caps1). repeat split; auto. now constructor.
  - apply greedy_sound in H as [w [rest [-> [Hw [Hlen H]]]]].
    exists w, rest, caps. repeat split; auto. now constructor.
  - apply lazy_sound in H as [w [rest [-> [Hw H]]]].
    exists w, rest, caps. repeat split; auto. now constructor.
Qed.
End Soundness.

Lemma match_at_sound r s rest caps :
  match_at r s = Some (rest, caps) ->
  exists w, s = w ++ rest /\ matches r w [] caps.
Proof.
  intros H. apply bt_sound in H as [w [rest' [caps' [-> [M H]]]]].
  injection H as -> ->. now exists w.
Qed.

(** Every match of [finditer] is a match of the pattern somewhere in the
    text. *)
Lemma finditer_from_sound r skip s m :
  In m (finditer_from r skip s) ->
  exists pre w rest, s = pre ++ w ++ rest /\ matches r w [] m.
Proof.
  revert skip. induction s as [|c s' IH]; intros skip H; simpl in H.
  - contradiction.
  - assert (Hrest : forall n, In m (finditer_from r n s') ->
                     exists pre w rest, c :: s' = pre ++ w ++ rest
                                        /\ matches r w [] m).
    { intros n Hn. destruct (IH _ Hn) as [pre [w [rest [-> M]]]].
      now exists (c :: pre), w, rest. }
    destruct skip as [|n]; [|eauto].
    destruct (match_at r (c :: s')) as [[rest caps]|] eqn:E; [|eauto].
    destruct H as [<-|H]; [|eauto].
    apply match_at_sound in E as [w [E M]].
    exists [], w, rest. now split.
Qed.

(** ** The shape of a block *)

(** Neither pattern matches the empty text, which is why the scans of
    [finditer_from] and [sub_from] stop at the end of the input. *)
Lemma patterns_need_input :
  match_at pattern [] = None /\ match_at tag_pattern [] = None.
Proof. split; reflexivity. Qed.

Ltac inv H := inversion H; subst; clear H.

Ltac inv_matches :=
  repeat match goal with
         | H : matches (Seq _ _) _ _ _ |- _ => inv H
         | H : matches (Chr _) _ _ _ |- _ => inv H
         | H : matches (Group _ _) _ _ _ |- _ => inv H
         | H : matches (Greedy _ _) _ _ _ |- _ => inv H
         | H : matches (Lazy _) _ _ _ |- _ => inv H
         | H : matches Eps _ _ _ |- _ => inv H
         end.

Lemma is_char_eq a c : is_char a c = true -> c = a.
Proof. apply Ascii.eqb_eq. Qed.

Lemma timestamp_re_inv w caps caps' :
  matches timestamp_re w caps caps' ->
  is_raw_timestamp w = true /\ caps' = caps.
Proof.
  intros H. cbv [timestamp_re seq ch d lit list_ascii_of_string map] in H.
  inv_matches. split; [|reflexivity].
  cbn [app is_raw_timestamp forallb].
  repeat match goal with H : _ = true |- _ => rewrite H; clear H end.
  reflexivity.
Qed.

(** What the pattern [pattern] matches: a raw time stamp, white space, the
    arrow, anything, at least one line break, the text of the block, and at
    least two line breaks; group 1 is the time stamp and group 2 the
    text. *)
Lemma pattern_inv w m :
  matches pattern w [] m ->
  exists ts ws junk nls body term,
    w = ts ++ ws ++ lit "-->" ++ junk ++ nls ++ body ++ term
    /\ is_raw_timestamp ts = true
    /\ forallb is_space ws = true
    /\ forallb nl nls = true /\ 1 <= length nls
    /\ forallb nl term = true /\ 2 <= length term
    /\ m = [(2, body); (1, ts)].
Proof.
  intros H. unfold pattern in H. cbn [seq] in H.
  inv H.
  match goal with H : matches (Group 1 _) _ _ _ |- _ => inv H end.
  match goal with H : matches timestamp_re _ _ _ |- _ =>
    apply timestamp_re_inv in H as [Hts ->] end.
  cbv [ch lit list_ascii_of_string map seq] in *.
  inv_matches.
  repeat match goal with H : is_char _ _ = true |- _ =>
    apply is_char_eq in H; subst end.
  do 6 eexists. split; [cbn [app]; reflexivity|].
  repeat split; assumption.
Qed.

Lemma group_1 body ts : group 1 [(2, body); (1, ts)] = ts.
Proof. reflexivity. Qed.

Lemma group_2 body ts : group 2 [(2, body); (1, ts)] = body.
Proof. reflexivity. Qed.

(** Replacing the full stop by a comma puts a raw time stamp in canonical
    form. *)
Lemma replace_char_digit c :
  is_digit c = true ->
  (if Ascii.eqb c "." then ","%char else c) = c.
Proof.
  intros H. destruct (Ascii.eqb c ".") eqn:E; [|reflexivity].
  apply Ascii.eqb_eq in E. subst c. discriminate.
Qed.

Lemma normalized_timestamp ts :
  is_raw_timestamp ts = true ->
  is_timestamp (replace_char "." "," ts) = true.
Proof.
  intros H.
  do 12 (destruct ts as [|? ts]; [discriminate|]).
  destruct ts; [|discriminate].
  cbn [is_raw_timestamp forallb] in H.
  repeat match type of H with
         | _ && _ = true => let H' := fresh in apply andb_prop in H as [H H']
         end.
  repeat match goal with H : _ && _ = true |- _ =>
    let H' := fresh in apply andb_prop in H as [H H'] end.
  cbn [replace_char map is_timestamp forallb].
  repeat match goal with H : is_digit _ = true |- _ =>
    rewrite (replace_char_digit _ H), H; clear H end.
  repeat match goal with H : is_char ":" _ = true |- _ =>
    apply is_char_eq in H; subst end.
  match goal with H : _ || _ = true |- _ =>
    apply orb_prop in H as [H|H]; apply is_char_eq in H; subst end;
    reflexivity.
Qed.

(** ** Contiguous pieces *)

Lemma infix_refl s : infix s s.
Proof. exists [], []. now rewrite app_nil_r. Qed.

Lemma infix_trans l m s : infix l m -> infix m s -> infix l s.
Proof.
  intros [a [b ->]] [a' [b' ->]]. exists (a' ++ a), (b ++ b').
  now repeat rewrite <- app_assoc.
Qed.

Lemma forallb_infix p l s :
  infix l s -> forallb p s = true -> forallb p l = true.
Proof.
  intros [a [b ->]]. rewrite !forallb_app, !andb_true_iff. tauto.
Qed.

(** ** [strip] *)

Lemma lstrip_suffix s : exists a, s = a ++ lstrip s.
Proof.
  induction s as [|c s' [a IH]]; simpl.
  - now exists [].
  - destruct (is_space c).
    + exists (c :: a). simpl. now rewrite <- IH.
    + now exists [].
Qed.

Lemma lstrip_head s c r : lstrip s = c :: r -> is_space c = false.
Proof.
  induction s as [|x s' IH]; simpl; [discriminate|].
  destruct (is_space x) eqn:E; [assumption|].
  intros H. injection H as <- _. assumption.
Qed.

Lemma strip_infix s : infix (strip s) s.
Proof.
  unfold strip, rstrip.
  destruct (lstrip_suffix s) as [a Ha].
  destruct (lstrip_suffix (rev (lstrip s))) as [b Hb].
  exists a, (rev b).
  rewrite <- rev_app_distr, <- Hb, rev_involutive. exact Ha.
Qed.

Lemma last_rev (u : str) x : last (rev u) x = hd x u.
Proof.
  destruct u as [|y u']; simpl; [reflexivity|]. apply last_last.
Qed.

Lemma trimmed_strip s : trimmed (strip s) = true.
Proof.
  unfold strip, rstrip.
  destruct (lstrip_suffix (rev (lstrip s))) as [b Hb].
  remember (lstrip (rev (lstrip s))) as u eqn:Hu.
  unfold trimmed. destruct (rev u) as [|c r] eqn:Hr; [reflexivity|].
  rewrite <- Hr, last_rev.
  apply (f_equal (@rev ascii)) in Hb.
  rewrite rev_involutive, rev_app_distr, Hr in Hb. simpl in Hb.
  apply lstrip_head in Hb. rewrite Hb. simpl.
  destruct u as [|y u']; [discriminate|]. simpl.
  symmetry in Hu. apply lstrip_head in Hu. now rewrite Hu.
Qed.

(** ** [splitlines] *)

Lemma forallb_rev (p : ascii -> bool) (l : str) :
  forallb p (rev l) = forallb p l.
Proof.
  induction l as [|c l IH]; simpl; [reflexivity|].
  rewrite forallb_app, IH. simpl. rewrite andb_true_r. apply andb_comm.
Qed.

Lemma splitlines_from_spec n :
  forall s cur l,
    length s <= n ->
    forallb (fun c => negb (is_linebreak c)) cur = true ->
    In l (splitlines_from cur s) ->
    infix l (rev cur ++ s)
    /\ forallb (fun c => negb (is_linebreak c)) l = true.
Proof.
  induction n as [|n IH]; intros s cur l Hlen Hcur Hin.
  - destruct s; [|simpl in Hlen; lia]. simpl in Hin.
    destruct cur as [|x cur']; [contradiction|].
    destruct Hin as [<-|[]]. split.
    + rewrite app_nil_r. apply infix_refl.
    + now rewrite forallb_rev.
  - destruct s as [|c s'].
    + simpl in Hin. destruct cur as [|x cur']; [contradiction|].
      destruct Hin as [<-|[]]. split.
      * rewrite app_nil_r. apply infix_refl.
      * now rewrite forallb_rev.
    + simpl in Hlen.
      assert (Hprefix : infix (rev cur) (rev cur ++ c :: s')
                        /\ forallb (fun c => negb (is_linebreak c)) (rev cur)
                           = true).
      { split; [now exists [], (c :: s')|now rewrite forallb_rev]. }
      assert (Htail : forall s'', (exists a, s' = a ++ s'') ->
                  length s'' <= n ->
                  In l (splitlines_from [] s'') ->
                  infix l (rev cur ++ c :: s')
                  /\ forallb (fun c => negb (is_linebreak c)) l = true).
      { intros s'' [a ->] Hl Hl'.
        destruct (IH s'' [] l Hl eq_refl Hl') as [[x [y E]] Hf].
        simpl in E. split; [|assumption].
        exists (rev cur ++ c :: a ++ x), y. rewrite E.
        repeat (rewrite <- app_assoc; simpl). reflexivity. }
      simpl in Hin.
      destruct (Ascii.eqb c CR) eqn:Ecr.
      * destruct s' as [|c2 s''].
        -- destruct Hin as [<-|Hin]; [assumption|].
           apply (Htail []); [now exists []|simpl; lia|assumption].
        -- destruct (Ascii.eqb c2 LF).
           ++ destruct Hin as [<-|Hin]; [assumption|].
              apply (Htail s''); [now exists [c2]|simpl in Hlen; lia|assumption].
           ++ destruct Hin as [<-|Hin]; [assumption|].
              apply (Htail (c2 :: s'')); [now exists []|lia|assumption].
      * destruct (is_linebreak c) eqn:Elb.
        -- destruct Hin as [<-|Hin]; [assumption|].
           apply (Htail s'); [now exists []|lia|assumption].
        -- assert (Hc : forallb (fun c => negb (is_linebreak c)) (c :: cur)
                         = true) by (simpl; now rewrite Elb).
           destruct (IH s' (c :: cur) l ltac:(lia) Hc Hin) as [Hi Hf].
           split; [|assumption].
           simpl in Hi. now rewrite <- app_assoc in Hi.
Qed.

Lemma splitlines_spec s l :
  In l (splitlines s) ->
  infix l s /\ forallb (fun c => negb (is_linebreak c)) l = true.
Proof.
  intros H. now apply (@splitlines_from_spec (length s) s [] l).
Qed.

(** ** Tags *)

Lemma closes_app_gt w rest :
  forallb dot w = true -> closes (w ++ ">"%char :: rest) = true.
Proof.
  induction w as [|c w IH]; simpl; intros H.
  - reflexivity.
  - apply andb_prop in H as [Hc Hw]. unfold dot in Hc.
    destruct (is_char ">" c); [reflexivity|].
    destruct (is_char LF c); [discriminate|]. now apply IH.
Qed.

Lemma closes_prefix l b : closes l = true -> closes (l ++ b) = true.
Proof.
  induction l as [|c l IH]; simpl; [discriminate|].
  destruct (is_char ">" c); [reflexivity|].
  destruct (is_char LF c); [discriminate|]. exact IH.
Qed.

Lemma has_tag_infix l s : infix l s -> has_tag s = false -> has_tag l = false.
Proof.
  intros [a [b ->]]. induction a as [|c a IH]; simpl.
  - induction l as [|c l IH]; simpl; [reflexivity|].
    intros H. apply orb_false_iff in H as [H1 H2].
    rewrite (IH H2), orb_false_r.
    destruct (is_char "<" c); [|reflexivity]. simpl in *.
    destruct (closes l) eqn:E; [|reflexivity].
    now rewrite (@closes_prefix l b E) in H1.
  - intros H. apply orb_false_iff in H as [_ H]. now apply IH.
Qed.

Lemma match_tag_cons c s' :
  match_at tag_pattern (c :: s') =
  if is_char "<" c then lazy dot s' tag_rest else None.
Proof. reflexivity. Qed.

Lemma match_tag_sound s rest caps :
  match_at tag_pattern s = Some (rest, caps) ->
  exists w, s = "<"%char :: w ++ ">"%char :: rest /\ forallb dot w = true.
Proof.
  intros H. apply match_at_sound in H as [w [-> M]].
  cbv [tag_pattern seq ch lit list_ascii_of_string map] in M.
  inv_matches.
  repeat match goal with H : is_char _ _ = true |- _ =>
    apply is_char_eq in H; subst end.
  eexists. split; [|eassumption].
  simpl. now rewrite <- app_assoc.
Qed.

Lemma lazy_tag_complete s :
  closes s = true -> exists r, lazy dot s tag_rest = Some r.
Proof.
  induction s as [|c s IH]; simpl; [discriminate|].
  unfold tag_rest at 1. simpl.
  destruct (is_char ">" c) eqn:Egt; [eauto|].
  unfold dot. destruct (is_char LF c); [discriminate|]. exact IH.
Qed.

Lemma closes_sub_from s :
  forall skip,
    forallb dot (firstn skip s) = true ->
    closes s = false ->
    closes (sub_from tag_pattern [] skip s) = false.
Proof.
  induction s as [|c s' IH]; intros skip Hskip Hc; [reflexivity|].
  simpl in Hc.
  destruct (is_char ">" c) eqn:Egt; [discriminate|].
  destruct skip as [|n].
  - cbn [sub_from].
    destruct (match_at tag_pattern (c :: s')) as [[rest caps]|] eqn:E.
    + exfalso. apply match_tag_sound in E as [w [E Hw]].
      injection E as -> ->. simpl in Hc.
      now rewrite (@closes_app_gt w rest Hw) in Hc.
    + simpl. rewrite Egt.
      destruct (is_char LF c); [reflexivity|]. now apply IH.
  - cbn [sub_from]. simpl in Hskip. apply andb_prop in Hskip as [Hd Hs].
    unfold dot in Hd. destruct (is_char LF c); [discriminate|].
    now apply IH.
Qed.

Lemma has_tag_sub_from s :
  forall skip,
    forallb dot (firstn skip s) = true ->
    has_tag (sub_from tag_pattern [] skip s) = false.
Proof.
  induction s as [|c s' IH]; intros skip Hskip; [reflexivity|].
  destruct skip as [|n].
  - cbn [sub_from].
    destruct (match_at tag_pattern (c :: s')) as [[rest caps]|] eqn:E.
    + cbn [app]. apply IH.
      apply match_tag_sound in E as [w [E Hw]]. injection E as -> ->.
      match goal with |- context [firstn ?n _] =>
        replace n with (length (w ++ [">"%char]))
          by (cbn [length]; rewrite !length_app; cbn [length]; lia) end.
      replace (w ++ ">"%char :: rest) with ((w ++ [">"%char]) ++ rest)
        by now rewrite <- app_assoc.
      rewrite firstn_app, firstn_all, Nat.sub_diag, firstn_0, app_nil_r.
      rewrite forallb_app, Hw. reflexivity.
    + simpl. rewrite (IH 0 eq_refl), orb_false_r.
      destruct (is_char "<" c) eqn:Elt; [|reflexivity]. simpl.
      destruct (closes (sub_from tag_pattern [] 0 s')) eqn:Ec; [|reflexivity].
      exfalso.
      destruct (closes s') eqn:Ec'.
      * destruct (@lazy_tag_complete s' Ec') as [r Hr].
        rewrite match_tag_cons, Elt, Hr in E. discriminate.
      * now rewrite (@closes_sub_from s' 0 eq_refl Ec') in Ec.
  - cbn [sub_from]. simpl in Hskip. apply andb_prop in Hskip as [_ Hs].
    now apply IH.
Qed.

(** After [re.sub(r'<.*?>', '', s)] no tag is left on any line. *)
Lemma has_tag_re_sub s : has_tag (re_sub tag_pattern [] s) = false.
Proof. apply has_tag_sub_from. reflexivity. Qed.

(** ** The entries of a parsed file *)

Lemma collect_In ms e :
  In e (collect ms) <-> exists m, In m ms /\ parse_match m = Some e.
Proof.
  induction ms as [|m ms IH]; simpl.
  - split; [contradiction | intros [m [[] _]]].
  - destruct (parse_match m) as [e'|] eqn:E; simpl; rewrite IH; split.
    + intros [<-|[m' [H1 H2]]]; [exists m; auto | exists m'; auto].
    + intros [m' [[<-|H1] H2]]; [left; congruence | right; eauto].
    + intros [m' [H1 H2]]. exists m'; auto.
    + intros [m' [[<-|H1] H2]]; [congruence | eauto].
Qed.

Lemma parse_match_spec m e :
  parse_match m = Some e ->
  fst e = replace_char "." "," (group 1 m)
  /\ snd e = join [SP] (clean_lines (group 2 m))
  /\ truthy (snd e) = true.
Proof.
  unfold parse_match. fold (clean_lines (group 2 m)).
  destruct (truthy (join [SP] (clean_lines (group 2 m)))) eqn:E;
    [|discriminate].
  intros H. injection H as <-. auto.
Qed.

Lemma clean_lines_clean body : forallb clean_line (clean_lines body) = true.
Proof.
  apply forallb_forall. intros l Hl. unfold clean_lines in Hl.
  apply in_map_iff in Hl as [line [<- Hline]].
  apply filter_In in Hline as [Hline Htruthy].
  apply splitlines_spec in Hline as [Hinfix Hnb].
  unfold clean_line. rewrite Htruthy, trimmed_strip. simpl.
  rewrite (forallb_infix _ (strip_infix line) Hnb). simpl.
  apply negb_true_iff.
  apply (has_tag_infix (strip_infix line)).
  apply (has_tag_infix Hinfix).
  apply has_tag_re_sub.
Qed.

(** A text joined from clean lines has no line boundary and no white space
    at either end. *)
Lemma clean_line_parts l :
  clean_line l = true ->
  truthy l = true /\ trimmed l = true
  /\ forallb (fun c => negb (is_linebreak c)) l = true
  /\ has_tag l = false.
Proof.
  unfold clean_line. rewrite !andb_true_iff, negb_true_iff. tauto.
Qed.

Lemma join_cons sep p q rest :
  join sep (p :: q :: rest) = p ++ sep ++ join sep (q :: rest).
Proof. reflexivity. Qed.

Lemma join_no_linebreak lines :
  forallb clean_line lines = true ->
  forallb (fun c => negb (is_linebreak c)) (join [SP] lines) = true.
Proof.
  induction lines as [|p rest IH]; [reflexivity|].
  intros H. cbn [forallb] in H. apply andb_prop in H as [Hp Hrest].
  apply clean_line_parts in Hp as [_ [_ [Hp _]]].
  destruct rest as [|q rest']; [exact Hp|].
  rewrite join_cons, !forallb_app, Hp, (IH Hrest). reflexivity.
Qed.

Lemma last_app_nonempty (a b : str) x y :
  b <> [] -> last (a ++ b) x = last b y.
Proof.
  intros Hb. destruct (exists_last Hb) as [b' [z ->]].
  now rewrite app_assoc, !last_last.
Qed.

Lemma join_trimmed lines :
  forallb clean_line lines = true ->
  trimmed (join [SP] lines) = true /\ (lines <> [] -> join [SP] lines <> []).
Proof.
  induction lines as [|p rest IH]; [split; [reflexivity|congruence]|].
  intros H. cbn [forallb] in H. apply andb_prop in H as [Hp Hrest].
  apply clean_line_parts in Hp as [Hne [Htr _]].
  destruct p as [|c p']; [discriminate|].
  destruct rest as [|q rest'].
  - split; [exact Htr | discriminate].
  - destruct (IH Hrest) as [Htr' Hne'].
    split; [|discriminate].
    assert (HJ : join [SP] (q :: rest') <> []) by (apply Hne'; discriminate).
    remember (join [SP] (q :: rest')) as J eqn:EJ.
    change (join [SP] ((c :: p') :: q :: rest'))
      with (c :: p' ++ SP :: join [SP] (q :: rest')).
    rewrite <- EJ.
    unfold trimmed in Htr |- *. apply andb_prop in Htr as [Hc _].
    rewrite Hc. cbn [andb].
    replace (c :: p' ++ SP :: J) with ((c :: p' ++ [SP]) ++ J)
      by (simpl; now rewrite <- app_assoc).
    destruct J as [|j J']; [congruence|].
    rewrite (@last_app_nonempty _ (j :: J') c j) by discriminate.
    unfold trimmed in Htr'. apply andb_prop in Htr' as [_ Hl]. exact Hl.
Qed.

Lemma parse_In content e :
  In e (parse content) ->
  exists pre ts ws junk nls body term post,
    content = pre ++ (ts ++ ws ++ lit "-->" ++ junk ++ nls ++ body ++ term)
                  ++ post
    /\ is_raw_timestamp ts = true
    /\ forallb is_space ws = true
    /\ forallb nl nls = true /\ 1 <= length nls
    /\ forallb nl term = true /\ 2 <= length term
    /\ parse_match [(2, body); (1, ts)] = Some e.
Proof.
  unfold parse, finditer. intros H.
  apply collect_In in H as [m [Hm He]].
  apply finditer_from_sound in Hm as [pre [w [post [-> M]]]].
  apply pattern_inv in M
    as [ts [ws [junk [nls [body [term [-> [H1 [H2 [H3 [H4 [H5 [H6 ->]]]]]]]]]]]]].
  exists pre, ts, ws, junk, nls, body, term, post. repeat split; auto.
Qed.

Lemma parse_entry_ok content e : In e (parse content) -> entry_ok e.
Proof.
  intros H.
  apply parse_In in H
    as [pre [ts [ws [junk [nls [body [term [post
       [_ [Hts [_ [_ [_ [_ [_ He]]]]]]]]]]]]]]].
  apply parse_match_spec in He as [Ht [Hx Hne]].
  rewrite group_1 in Ht. rewrite group_2 in Hx.
  pose proof (clean_lines_clean body) as Hc.
  unfold entry_ok. rewrite Ht, Hx. repeat split.
  - now apply normalized_timestamp.
  - now rewrite <- Hx.
  - now apply join_trimmed.
  - now apply join_no_linebreak.
  - now exists (clean_lines body).
Qed.

(** ** What parsing keeps of a block *)

(** Every parsed entry comes from a block of the content: a time stamp
    with comma or full stop, white space, the arrow, a rest, at least one
    line break, the text, at least two line breaks.  Its time stamp is the
    block's with the full stop replaced by a comma, so it has the form
    DD:DD:DD,DDD; its text is not empty and is built from the block's text
    in this order: the text is stripped, the tags that open and close on
    one line are removed, the result is split into lines, each line is
    stripped, the blank lines are dropped and the others are joined by
    single spaces, so that no line of the text holds a tag.  White space
    inside a line is kept; a time stamp written with a full stop is stored
    with a comma; and loading a file with the one block of the end-to-end
    example under any name and searching for hello gives exactly one
    record, with time stamp 00:00:01,000 and text Hello there. *)
Theorem parse_entries_are_cleaned :
  (forall (content : str) (e : entry),
      In e (parse content) ->
      exists pre ts ws junk nls body term post,
        content
        = pre ++ (ts ++ ws ++ lit "-->" ++ junk ++ nls ++ body ++ term) ++ post
        /\ is_raw_timestamp ts = true
        /\ forallb is_space ws = true
        /\ forallb nl nls = true /\ 1 <= length nls
        /\ forallb nl term = true /\ 2 <= length term
        /\ fst e = replace_char "." "," ts
        /\ is_timestamp (fst e) = true
        /\ snd e = join [SP] (clean_lines body)
        /\ forallb clean_line (clean_lines body) = true
        /\ truthy (snd e) = true)
  /\ parse two_spaces_block = [(lit "00:00:03,000", lit "Hello  there")]
  /\ parse (lit "00:00:03.000 --> 00:00:04.000" ++ [LF] ++ lit "Bye" ++ [LF; LF])
     = [(lit "00:00:03,000", lit "Bye")]
  /\ forall name : string,
      search_results
        (fst (search (lit "hello")
                     (fst (select_files [text_file name block1] initial))))
      = [(name, lit "00:00:01,000", lit "Hello there")].
Proof.
  split; [|split; [|split]].
  - intros content e H.
    apply parse_In in H
      as [pre [ts [ws [junk [nls [body [term [post
         [E [Hts [Hws [Hnls [Hnl1 [Hterm [Hlen He]]]]]]]]]]]]]]].
    apply parse_match_spec in He as [Ht [Hx Hne]].
    rewrite group_1 in Ht. rewrite group_2 in Hx.
    exists pre, ts, ws, junk, nls, body, term, post.
    repeat split; auto.
    + rewrite Ht. now apply normalized_timestamp.
    + apply clean_lines_clean.
  - vm_compute. reflexivity.
  - vm_compute. reflexivity.
  - intros name. vm_compute. reflexivity.
Qed.

(** C2: the code at the failing input.  The comment on the cleaning step
    says that the tags are removed, but the tag pattern does not cross a
    line break and runs before the lines are joined: a tag whose two angle
    brackets stand on different lines of the block is kept, and the stored
    text holds a tag. *)
Lemma parse_keeps_split_tag :
  parse split_tag_block = [(lit "00:00:01,000", lit "<i >Hello")]
  /\ has_tag (lit "<i >Hello") = true.
Proof. vm_compute. split; reflexivity. Qed.

(** ** The invariant of the corpus *)

Lemma corpus_ok_initial : corpus_ok (subtitle_data initial).
Proof. intros f subs []. Qed.

Lemma select_files_step_ok total i f p :
  corpus_ok (data p) -> corpus_ok (data (select_files_step total i f p)).
Proof.
  intros Hok. unfold select_files_step.
  destruct (dict_mem (basename f) (data p)); [assumption|].
  unfold load_srt_file.
  destruct (first_decoding SUPPORTED_ENCODINGS f) as [[content enc]|];
    [|assumption].
  destruct (parse content) as [|e es] eqn:E; [assumption|].
  cbn [data]. intros name subs Hin.
  apply dict_set_In in Hin as [Hin|Hin]; [exact (Hok _ _ Hin)|].
  injection Hin as -> ->. split; [discriminate|].
  intros e' He'. apply (@parse_entry_ok content). now rewrite E.
Qed.

Lemma select_files_loop_ok total i files p :
  corpus_ok (data p) -> corpus_ok (data (select_files_loop total i files p)).
Proof.
  revert i p. induction files as [|f rest IH]; intros i p H; simpl.
  - assumption.
  - apply IH. now apply select_files_step_ok.
Qed.

(** C9, as amended: loading, removing, clearing (and searching) keep this
    invariant of the corpus: every stored file has at least one entry, and
    every stored entry has a time stamp of the form DD:DD:DD,DDD and a text
    that is not empty, has no white space at either end, holds no line
    boundary, and is a sequence of lines joined by single spaces, each line
    not empty, stripped and free of tags. *)
Theorem corpus_invariant_preserved :
  forall st : state,
    corpus_ok (subtitle_data st) ->
    (forall files, corpus_ok (subtitle_data (fst (select_files files st))))
    /\ (forall selected_items confirmed,
           corpus_ok
             (subtitle_data (fst (delete_selected selected_items confirmed st))))
    /\ (forall confirmed,
           corpus_ok (subtitle_data (fst (clear_all confirmed st))))
    /\ (forall search_entry,
           corpus_ok (subtitle_data (fst (search search_entry st)))).
Proof.
  intros st Hok. split; [|split; [|split]].
  - intros files. unfold select_files.
    destruct files as [|f rest]; [assumption|].
    cbn [fst subtitle_data]. now apply select_files_loop_ok.
  - intros sel confirmed. unfold delete_selected.
    destruct sel as [|s0 sel']; [assumption|].
    destruct confirmed; [|assumption].
    destruct (delete_loop (s0 :: sel') (subtitle_data st) 0) as [dd n] eqn:E.
    cbn [fst clear_search_results subtitle_data].
    intros name subs Hin. apply (Hok name subs).
    apply (@delete_loop_incl (s0 :: sel') (subtitle_data st) 0).
    now rewrite E.
  - intros confirmed. unfold clear_all.
    destruct (subtitle_data st) as [|item rest] eqn:E.
    + cbn [fst]. now rewrite E.
    + destruct confirmed; cbn [fst clear_search_results subtitle_data].
      * intros name subs [].
      * now rewrite E.
  - intros q. unfold search.
    destruct (negb (truthy (strip q))); [assumption|].
    destruct (subtitle_data st) as [|item rest] eqn:E; cbn [fst subtitle_data].
    + now rewrite E.
    + assumption.
Qed.

Lemma corpus_invariant_preserved_witness :
  corpus_ok (subtitle_data (fst (select_files [file_b; file_a] initial)))
  /\ corpus_ok
       (subtitle_data
          (fst (delete_selected ["b.srt"%string] true
                  (fst (select_files [file_b; file_a] initial))))).
Proof.
  split.
  - apply (proj1 (@corpus_invariant_preserved initial corpus_ok_initial)).
  - apply (@corpus_invariant_preserved
             (fst (select_files [file_b; file_a] initial))).
    apply (proj1 (@corpus_invariant_preserved initial corpus_ok_initial)).
Defined.

(** C9, as stated, fails: only the ends of a line are trimmed, so after
    loading one file from the empty corpus a stored text holds two spaces
    in a row; and another holds a tag, the one that was split over two
    lines. *)
Lemma stored_text_counterexample :
  subtitle_data
    (fst (select_files [text_file "t.srt" (split_tag_block ++ two_spaces_block)]
                       initial))
  = [("t.srt"%string,
      [(lit "00:00:01,000", lit "<i >Hello");
       (lit "00:00:03,000", lit "Hello  there")])]
  /\ has_tag (lit "<i >Hello") = true
  /\ contains [SP; SP] (lit "Hello  there") = true.
Proof. vm_compute. repeat split; reflexivity. Qed.

(** ** Blank lines *)

Lemma has_blank_line_tail c s :
  has_blank_line (c :: s) = false -> has_blank_line s = false.
Proof.
  simpl. destruct s as [|b s']; [reflexivity|].
  intros H. now apply orb_false_iff in H as [_ H].
Qed.

Lemma has_blank_line_app_r u y :
  has_blank_line (u ++ y) = false -> has_blank_line y = false.
Proof.
  induction u as [|c u IH]; simpl app; [auto|].
  intros H. apply IH. exact (@has_blank_line_tail c (u ++ y) H).
Qed.

Lemma has_blank_line_two w rest :
  forallb nl w = true -> 2 <= length w -> has_blank_line (w ++ rest) = true.
Proof.
  destruct w as [|a [|b w']]; simpl; try lia.
  intros H _. apply andb_prop in H as [Ha H]. apply andb_prop in H as [Hb _].
  now rewrite Ha, Hb.
Qed.

(** Without two line breaks in a row the pattern matches nowhere. *)
Lemma no_match_without_blank_line s :
  has_blank_line s = false -> match_at pattern s = None.
Proof.
  intros H. destruct (match_at pattern s) as [[rest m]|] eqn:E; [|reflexivity].
  exfalso. apply match_at_sound in E as [w [-> M]].
  apply pattern_inv in M
    as [ts [ws [junk [nls [body [term [-> [_ [_ [_ [_ [Ht [Hl _]]]]]]]]]]]]].
  repeat rewrite <- app_assoc in H.
  do 6 apply has_blank_line_app_r in H.
  now rewrite (@has_blank_line_two term rest Ht Hl) in H.
Qed.

Lemma finditer_without_blank_line s skip :
  has_blank_line s = false -> finditer_from pattern skip s = [].
Proof.
  revert skip. induction s as [|c s' IH]; intros skip H; [reflexivity|].
  pose proof (@has_blank_line_tail c s' H) as H'.
  simpl. destruct skip as [|n]; [|now apply IH].
  rewrite (@no_match_without_blank_line (c :: s') H). now apply IH.
Qed.

(** ** A tail without a blank line adds nothing *)

Section Tail.
Variable t : str.
Hypothesis t_no_blank_line : has_blank_line t = false.
Hypothesis t_head : starts_with_nl t = false.

Lemma proper_suffix_cons c y : proper_suffix (c :: y) t -> proper_suffix y t.
Proof.
  intros [u [Hu ->]]. exists (u ++ [c]). split.
  - destruct u; discriminate.
  - now rewrite <- app_assoc.
Qed.

Lemma proper_suffix_of_cons c t' : t = c :: t' -> proper_suffix t' t.
Proof. intros E. exists [c]. split; [discriminate|exact E]. Qed.

Lemma tail_cases : t = [] \/ exists c t', t = c :: t'.
Proof. destruct t as [|c t']; [now left | right; now exists c, t']. Qed.

Section Repetitions.
Variables (k k' : str -> option (str * captures)).
Hypothesis k_agree : forall x, k' (x ++ t) = lift_tail t (k x).
Hypothesis k_dead : forall y, proper_suffix y t -> k' y = None.

Lemma greedy_dead p min y :
  proper_suffix y t -> greedy p min y k' = None.
Proof.
  revert min. induction y as [|c y IH]; intros min Hy; simpl.
  - rewrite (@k_dead [] Hy). now destruct (min =? 0).
  - rewrite (IH (pred min) (@proper_suffix_cons c y Hy)), (@k_dead (c :: y) Hy).
    destruct (p c), (min =? 0); reflexivity.
Qed.

Lemma lazy_dead p y : proper_suffix y t -> lazy p y k' = None.
Proof.
  induction y as [|c y IH]; intros Hy; simpl; rewrite (@k_dead _ Hy).
  - reflexivity.
  - rewrite (IH (@proper_suffix_cons c y Hy)). now destruct (p c).
Qed.

Lemma greedy_at_tail p min :
  greedy p min t k' = if min =? 0 then k' t else None.
Proof.
  destruct tail_cases as [Et | [c [t' Et]]]; rewrite Et; [reflexivity|].
  cbn [greedy].
  rewrite (@greedy_dead p (pred min) t' (proper_suffix_of_cons Et)).
  now destruct (p c).
Qed.

Lemma lazy_at_tail p : lazy p t k' = k' t.
Proof.
  destruct tail_cases as [Et | [c [t' Et]]]; rewrite Et; cbn [lazy].
  - now destruct (k' []).
  - rewrite (@lazy_dead p t' (proper_suffix_of_cons Et)).
    destruct (k' (c :: t')); [reflexivity|]. now destruct (p c).
Qed.

Lemma greedy_agree p min x :
  greedy p min (x ++ t) k' = lift_tail t (greedy p min x k).
Proof.
  revert min. induction x as [|c x IH]; intros min.
  - cbn [app greedy]. rewrite greedy_at_tail.
    pose proof (k_agree []) as E. cbn [app] in E. rewrite E.
    now destruct (min =? 0).
  - cbn [app greedy]. rewrite IH.
    change (c :: x ++ t) with ((c :: x) ++ t). rewrite k_agree.
    destruct (p c); [|now destruct (min =? 0)].
    destruct (greedy p (pred min) x k) as [r|]; [reflexivity|].
    cbn. now destruct (min =? 0).
Qed.

Lemma lazy_agree p x : lazy p (x ++ t) k' = lift_tail t (lazy p x k).
Proof.
  induction x as [|c x IH].
  - cbn [app lazy]. rewrite lazy_at_tail.
    pose proof (k_agree []) as E. cbn [app] in E. rewrite E.
    now destruct (k []).
  - cbn [app lazy]. change (c :: x ++ t) with ((c :: x) ++ t).
    rewrite k_agree, IH.
    destruct (k (c :: x)); [reflexivity|]. now destruct (p c).
Qed.
End Repetitions.

Lemma bt_dead r :
  forall k', dead_in_tail t k' ->
             dead_in_tail t (fun s caps => bt r s caps k').
Proof.
  induction r as [|p|r1 IH1 r2 IH2|n r1 IH1|min p|p];
    intros k' Hk y caps Hy; cbn [bt].
  - now apply Hk.
  - destruct y as [|c y]; [reflexivity|].
    destruct (p c); [|reflexivity].
    apply Hk. exact (@proper_suffix_cons c y Hy).
  - apply (IH1 (fun s1 caps1 => bt r2 s1 caps1 k')); [|assumption].
    now apply IH2.
  - apply (IH1 (fun s1 caps1 =>
                  k' s1 ((n, firstn (length y - length s1) y) :: caps1)));
      [|assumption].
    intros y' caps' Hy'. now apply Hk.
  - apply greedy_dead; [|assumption]. intros y' Hy'. now apply Hk.
  - apply lazy_dead; [|assumption]. intros y' Hy'. now apply Hk.
Qed.

Lemma bt_agree r :
  forall k k', agree_on_tail t k k' -> dead_in_tail t k' ->
               agree_on_tail t (fun s caps => bt r s caps k)
                             (fun s caps => bt r s caps k').
Proof.
  induction r as [|p|r1 IH1 r2 IH2|n r1 IH1|min p|p];
    intros k k' Hk Hd x caps; cbn [bt].
  - apply Hk.
  - destruct x as [|c x].
    + cbn [app].
      destruct tail_cases as [Et | [c [t' Et]]]; rewrite Et; [reflexivity|].
      destruct (p c); [|reflexivity].
      apply Hd. exact (proper_suffix_of_cons Et).
    + cbn [app]. destruct (p c); [|reflexivity]. apply Hk.
  - apply (IH1 (fun s1 caps1 => bt r2 s1 caps1 k)
               (fun s1 caps1 => bt r2 s1 caps1 k')).
    + now apply IH2.
    + now apply bt_dead.
  - apply (IH1 (fun s1 caps1 =>
                  k s1 ((n, firstn (length x - length s1) x) :: caps1))
               (fun s1 caps1 =>
                  k' s1 ((n, firstn (length (x ++ t) - length s1) (x ++ t))
                           :: caps1))).
    + intros x1 caps1. cbn beta. rewrite !length_app.
      replace (length x + length t - (length x1 + length t))
        with (length x - length x1) by lia.
      rewrite firstn_app.
      replace (length x - length x1 - length x) with 0 by lia.
      rewrite firstn_0, app_nil_r. apply Hk.
    + intros y caps1 Hy. now apply Hd.
  - apply (@greedy_agree (fun s1 => k s1 caps) (fun s1 => k' s1 caps)).
    + intros x1. apply Hk.
    + intros y Hy. now apply Hd.
  - apply (@lazy_agree (fun s1 => k s1 caps) (fun s1 => k' s1 caps)).
    + intros x1. apply Hk.
    + intros y Hy. now apply Hd.
Qed.

Lemma seq_agree r1 r2 k k' :
  agree_on_tail t (fun s caps => bt r2 s caps k)
                (fun s caps => bt r2 s caps k')
  /\ dead_in_tail t (fun s caps => bt r2 s caps k') ->
  agree_on_tail t (fun s caps => bt (Seq r1 r2) s caps k)
                (fun s caps => bt (Seq r1 r2) s caps k')
  /\ dead_in_tail t (fun s caps => bt (Seq r1 r2) s caps k').
Proof.
  intros [Ha Hd]. split.
  - exact (@bt_agree r1 _ _ Ha Hd).
  - exact (@bt_dead r1 _ Hd).
Qed.

(** The last piece of [pattern], [[\n\r]{2,}], ends a match at the joint
    or before it, never inside the tail. *)
Lemma terminator_agree min x caps :
  greedy nl min (x ++ t) (fun s1 => Some (s1, caps))
  = lift_tail t (greedy nl min x (fun s1 => Some (s1, caps))).
Proof.
  revert min. induction x as [|c x IH]; intros min.
  - cbn [app]. pose proof t_head as Hh.
    destruct tail_cases as [Et | [c [t' Et]]]; rewrite Et in Hh |- *.
    + cbn. now destruct (min =? 0).
    + cbn [greedy]. cbn [starts_with_nl] in Hh. rewrite Hh.
      cbn. now destruct (min =? 0).
  - cbn [app greedy]. rewrite IH.
    destruct (nl c); [|now destruct (min =? 0)].
    destruct (greedy nl (pred min) x (fun s1 => Some (s1, caps)));
      [reflexivity|].
    now destruct (min =? 0).
Qed.

Lemma terminator_dead :
  dead_in_tail t
    (fun s caps => bt (Greedy 2 nl) s caps (fun rest caps' => Some (rest, caps'))).
Proof.
  intros y caps [u [_ Hu]]. cbn [bt].
  destruct (greedy nl 2 y (fun s1 => Some (s1, caps))) as [r|] eqn:E;
    [|reflexivity].
  exfalso. apply greedy_sound in E as [w [rest [-> [Hw [Hl _]]]]].
  pose proof t_no_blank_line as H. rewrite Hu in H.
  apply has_blank_line_app_r in H.
  now rewrite (@has_blank_line_two w rest Hw Hl) in H.
Qed.

Lemma match_at_tail x :
  match_at pattern (x ++ t) = lift_tail t (match_at pattern x).
Proof.
  unfold match_at.
  assert (H : agree_on_tail t
                (fun s caps => bt pattern s caps (fun rest c => Some (rest, c)))
                (fun s caps => bt pattern s caps (fun rest c => Some (rest, c)))
              /\ dead_in_tail t
                   (fun s caps =>
                      bt pattern s caps (fun rest c => Some (rest, c)))).
  { unfold pattern. cbn [seq]. repeat apply seq_agree. split.
    - intros x1 caps. cbn [bt]. apply terminator_agree.
    - apply terminator_dead. }
  apply H.
Qed.

Lemma finditer_from_tail x skip :
  finditer_from pattern skip (x ++ t) = finditer_from pattern skip x.
Proof.
  revert skip. induction x as [|c x IH]; intros skip.
  - cbn [app]. rewrite finditer_without_blank_line by assumption.
    reflexivity.
  - cbn [app finditer_from]. destruct skip as [|n]; [|apply IH].
    change (c :: x ++ t) with ((c :: x) ++ t).
    rewrite match_at_tail.
    destruct (match_at pattern (c :: x)) as [[rest caps]|];
      cbn [lift_tail option_map fst snd].
    + rewrite IH. do 2 f_equal. rewrite !length_app. lia.
    + apply IH.
Qed.

Lemma parse_tail content : parse (content ++ t) = parse content.
Proof. unfold parse, finditer. now rewrite finditer_from_tail. Qed.
End Tail.

(** ** The last block of a file *)

(** C3, as amended: a block is extracted only when two line breaks in a
    row follow its text.  A content without two line breaks in a row has
    no entry; and a tail without two line breaks in a row that does not
    start with a line break (a last block that ends with its caption line,
    or with one line break after it) adds nothing to what comes before it:
    that last block is not extracted. *)
Theorem unterminated_tail_is_dropped :
  forall (content tail : str),
    has_blank_line tail = false ->
    starts_with_nl tail = false ->
    parse (content ++ tail) = parse content
    /\ parse tail = []
    /\ forall other : str, has_blank_line other = false -> parse other = [].
Proof.
  intros content tail Hb Hh. split; [|split].
  - now apply parse_tail.
  - unfold parse, finditer.
    now rewrite finditer_without_blank_line.
  - intros other Ho. unfold parse, finditer.
    now rewrite finditer_without_blank_line.
Qed.

Lemma unterminated_tail_is_dropped_witness :
  parse (block1 ++ unterminated_block) = parse block1
  /\ parse unterminated_block = [].
Proof.
  destruct (@unterminated_tail_is_dropped block1 unterminated_block)
    as [H1 [H2 _]].
  - reflexivity.
  - reflexivity.
  - split; assumption.
Defined.

(** C3, as stated, fails: a well-formed last block that ends with a single
    line break, or with none, is not extracted, alone or after another
    block; with one more line break it is. *)
Lemma unterminated_block_counterexample :
  parse unterminated_block = []
  /\ parse (lit "00:00:01,000 --> 00:00:02,000" ++ [LF] ++ lit "Hello there")
     = []
  /\ parse (block1 ++ unterminated_block)
     = [(lit "00:00:01,000", lit "Hello there")]
  /\ parse (unterminated_block ++ [LF])
     = [(lit "00:00:01,000", lit "Hello there")].
Proof. vm_compute. repeat split; reflexivity. Qed.

(** ** Running the matcher forward *)

Section Forward.
Variable A : Type.

Lemma greedy_takes_all p min w rest (k : str -> option A) r :
  forallb p w = true ->
  match rest with c :: _ => p c = false | [] => True end ->
  min <= length w ->
  k rest = Some r ->
  greedy p min (w ++ rest) k = Some r.
Proof.
  revert min. induction w as [|c w IH]; intros min Hw Hrest Hmin Hk.
  - simpl in Hmin. assert (min = 0) by lia. subst min. cbn [app].
    destruct rest as [|c rest']; cbn [greedy].
    + exact Hk.
    + rewrite Hrest. exact Hk.
  - cbn [app greedy]. simpl in Hw. apply andb_prop in Hw as [Hc Hw].
    rewrite Hc. rewrite (IH (pred min)); auto. simpl in Hmin. lia.
Qed.

Lemma lazy_here p s (k : str -> option A) r :
  k s = Some r -> lazy p s k = Some r.
Proof. intros Hk. destruct s; simpl; now rewrite Hk. Qed.

Lemma lazy_skips p w rest (k : str -> option A) :
  forallb p w = true ->
  (forall w1 w2, w = w1 ++ w2 -> w2 <> [] -> k (w2 ++ rest) = None) ->
  lazy p (w ++ rest) k = lazy p rest k.
Proof.
  induction w as [|c w IH]; intros Hw Hk; [reflexivity|].
  cbn [app lazy]. simpl in Hw. apply andb_prop in Hw as [Hc Hw].
  pose proof (Hk [] (c :: w) eq_refl ltac:(discriminate)) as H0.
  cbn [app] in H0. rewrite H0, Hc. apply IH; [assumption|].
  intros w1 w2 E Hne. apply (Hk (c :: w1) w2); [|assumption].
  now rewrite E.
Qed.

Lemma greedy_needs_two s (k : str -> option A) :
  starts_two_nl s = false -> greedy nl 2 s k = None.
Proof.
  destruct s as [|a [|b s']]; cbn [greedy starts_two_nl pred Nat.eqb].
  - reflexivity.
  - intros _. now destruct (nl a).
  - intros H. destruct (nl a); [|reflexivity].
    cbn [andb] in H. rewrite H. reflexivity.
Qed.

Lemma greedy_needs_one s (k : str -> option A) :
  match s with c :: _ => nl c = false | [] => True end ->
  greedy nl 1 s k = None.
Proof.
  destruct s as [|c s']; cbn [greedy Nat.eqb]; [reflexivity|].
  now intros ->.
Qed.
End Forward.

Lemma firstn_consumed (w rest : str) :
  firstn (length (w ++ rest) - length rest) (w ++ rest) = w.
Proof.
  rewrite length_app, Nat.add_sub, firstn_app, firstn_all, Nat.sub_diag,
    firstn_0. apply app_nil_r.
Qed.

Lemma bt_timestamp A ts rest caps (k : str -> captures -> option A) :
  is_raw_timestamp ts = true ->
  bt timestamp_re (ts ++ rest) caps k = k rest caps.
Proof.
  intros H.
  do 12 (destruct ts as [|? ts]; [discriminate|]).
  destruct ts; [|discriminate].
  cbn [is_raw_timestamp forallb] in H.
  repeat match goal with H : _ && _ = true |- _ =>
    let H' := fresh in apply andb_prop in H as [H H'] end.
  cbv [timestamp_re seq ch d lit list_ascii_of_string map].
  cbn [app bt].
  repeat match goal with H : _ = true |- _ => rewrite H; clear H end.
  reflexivity.
Qed.

(** ** Blank lines inside a caption *)

Lemma has_blank_line_cons a b s :
  has_blank_line (a :: b :: s) = (nl a && nl b) || has_blank_line (b :: s).
Proof. reflexivity. Qed.

Lemma starts_two_nl_suffix w1 w2 :
  has_blank_line (w1 ++ w2) = false -> starts_two_nl w2 = false.
Proof.
  intros H. apply has_blank_line_app_r in H.
  destruct w2 as [|a [|b w]]; try reflexivity.
  simpl in H. now apply orb_false_iff in H as [H _].
Qed.

Lemma nl_is_linebreak c : nl c = true -> is_linebreak c = true.
Proof.
  unfold nl, is_char. intros H. apply orb_prop in H as [H|H];
    apply Ascii.eqb_eq in H; subst c; reflexivity.
Qed.

Lemma no_linebreak_no_nl (l : str) :
  forallb (fun c => negb (is_linebreak c)) l = true ->
  forallb (fun c => negb (nl c)) l = true.
Proof.
  intros H. apply forallb_forall. intros c Hc.
  rewrite forallb_forall in H. specialize (H c Hc).
  destruct (nl c) eqn:E; [|reflexivity].
  now rewrite (@nl_is_linebreak c E) in H.
Qed.

Lemma has_blank_line_after_line p q :
  p <> [] ->
  forallb (fun c => negb (nl c)) p = true ->
  has_blank_line (p ++ q) = has_blank_line (last p LF :: q).
Proof.
  induction p as [|a p IH]; [congruence|]. intros _ Hp.
  simpl in Hp. apply andb_prop in Hp as [Ha Hp].
  destruct p as [|b p'].
  - reflexivity.
  - change ((a :: b :: p') ++ q) with (a :: (b :: p') ++ q).
    change (last (a :: b :: p') LF) with (last (b :: p') LF).
    rewrite <- IH by (assumption || discriminate).
    cbn [app has_blank_line]. apply negb_true_iff in Ha. now rewrite Ha.
Qed.

Lemma last_no_nl p :
  p <> [] -> forallb (fun c => negb (nl c)) p = true -> nl (last p LF) = false.
Proof.
  intros Hne Hp. destruct (exists_last Hne) as [p' [x ->]].
  rewrite last_last. rewrite forallb_app in Hp.
  apply andb_prop in Hp as [_ Hx]. simpl in Hx.
  rewrite andb_true_r in Hx. now apply negb_true_iff.
Qed.

Lemma clean_line_facts l :
  clean_line l = true ->
  l <> [] /\ forallb (fun c => negb (nl c)) l = true
  /\ forallb (fun c => negb (is_linebreak c)) l = true
  /\ trimmed l = true /\ has_tag l = false.
Proof.
  intros H. apply clean_line_parts in H as [H1 [H2 [H3 H4]]].
  repeat split; auto.
  - destruct l; [discriminate|discriminate].
  - now apply no_linebreak_no_nl.
Qed.

(** The caption lines joined by line feeds hold no blank line, also when a
    line feed follows them. *)
Lemma caption_no_blank_line ls :
  forallb clean_line ls = true ->
  has_blank_line (join [LF] ls ++ [LF]) = false.
Proof.
  induction ls as [|p rest IH]; [reflexivity|]. intros H.
  cbn [forallb] in H. apply andb_prop in H as [Hp Hrest].
  apply clean_line_facts in Hp as [Hne [Hnl _]].
  destruct rest as [|q rest'].
  - cbn [join]. rewrite has_blank_line_after_line by assumption.
    cbn [has_blank_line]. rewrite (@last_no_nl p Hne Hnl). reflexivity.
  - rewrite join_cons, <- !app_assoc.
    rewrite has_blank_line_after_line by assumption.
    specialize (IH Hrest).
    cbn [forallb] in Hrest. apply andb_prop in Hrest as [Hq _].
    apply clean_line_facts in Hq as [Hqne [Hqnl _]].
    destruct q as [|c q']; [congruence|].
    simpl in Hqnl. apply andb_prop in Hqnl as [Hc _].
    apply negb_true_iff in Hc.
    assert (EJ : exists J',
               join [LF] (@cons str (c :: q') rest') ++ [LF] = c :: J').
    { destruct rest' as [|q2 rest2].
      - now exists (q' ++ [LF]).
      - exists (q' ++ [LF] ++ join [LF] (q2 :: rest2) ++ [LF]).
        rewrite join_cons. cbn [app]. now rewrite <- !app_assoc. }
    destruct EJ as [J' EJ]. rewrite EJ in IH |- *.
    cbn [app]. rewrite !has_blank_line_cons.
    rewrite (@last_no_nl p Hne Hnl), Hc, andb_false_r. exact IH.
Qed.

(** ** The match at the head of a block *)

Lemma lazy_finds A p w rest (k : str -> option A) r :
  forallb p w = true ->
  (forall w1 w2, w = w1 ++ w2 -> w2 <> [] -> k (w2 ++ rest) = None) ->
  k rest = Some r ->
  lazy p (w ++ rest) k = Some r.
Proof.
  intros Hw Hnone Hk. rewrite lazy_skips by assumption.
  now apply lazy_here.
Qed.

Lemma forallb_dot_all (w : str) : forallb dot_all w = true.
Proof. induction w; simpl; auto. Qed.

Lemma bt_arrow A s caps (k : str -> captures -> option A) :
  bt (ch "-->") (lit "-->" ++ s) caps k = k s caps.
Proof. reflexivity. Qed.

Lemma suffix_head_no_nl (w w1 w2 rest : str) :
  forallb (fun c => negb (nl c)) w = true ->
  w = w1 ++ w2 -> w2 <> [] ->
  match w2 ++ rest with c :: _ => nl c = false | [] => True end.
Proof.
  intros Hw -> Hne. rewrite forallb_app in Hw.
  apply andb_prop in Hw as [_ Hw].
  destruct w2 as [|c w2']; [congruence|]. simpl in Hw |- *.
  apply andb_prop in Hw as [Hc _]. now apply negb_true_iff.
Qed.

Lemma starts_two_nl_before_gap (w2 rest : str) :
  w2 <> [] ->
  starts_two_nl (w2 ++ [LF]) = false ->
  starts_two_nl (w2 ++ [LF; LF] ++ rest) = false.
Proof.
  destruct w2 as [|a [|b w]]; [congruence| |]; intros _ H; exact H.
Qed.

Lemma match_at_block ts after body rest :
  is_raw_timestamp ts = true ->
  forallb (fun c => negb (nl c)) after = true ->
  body <> [] ->
  starts_with_nl body = false ->
  has_blank_line (body ++ [LF]) = false ->
  starts_with_nl rest = false ->
  match_at pattern
    (ts ++ [SP] ++ lit "-->" ++ (SP :: after) ++ [LF] ++ body
        ++ [LF; LF] ++ rest)
  = Some (rest, [(2, body); (1, ts)]).
Proof.
  intros Hts Hafter Hne Hhead Hblank Hrest.
  unfold match_at, pattern. cbn [seq]. cbn [bt].
  rewrite bt_timestamp by assumption. rewrite firstn_consumed.
  apply (@greedy_takes_all _ is_space 0 [SP]);
    [reflexivity | reflexivity | cbn; lia |].
  rewrite bt_arrow. cbn [bt].
  apply (@lazy_finds _ dot_all (SP :: after)).
  { apply forallb_dot_all. }
  { intros w1 w2 E Hw2. apply greedy_needs_one.
    apply (@suffix_head_no_nl (SP :: after) w1 w2); assumption. }
  apply (@greedy_takes_all _ nl 1 [LF]); [reflexivity | | cbn; lia |].
  { destruct body as [|c body']; [congruence|]. exact Hhead. }
  cbn [bt].
  apply (@lazy_finds _ dot_all body).
  { apply forallb_dot_all. }
  { intros w1 w2 E Hw2. apply greedy_needs_two.
    apply starts_two_nl_before_gap; [assumption|].
    apply (@starts_two_nl_suffix w1 (w2 ++ [LF])).
    now rewrite app_assoc, <- E. }
  apply (@greedy_takes_all _ nl 2 [LF; LF]); [reflexivity | | cbn; lia |].
  { destruct rest as [|c rest']; [exact I | exact Hrest]. }
  now rewrite firstn_consumed.
Qed.

(** ** Cleaning a caption that is already clean *)

Lemma lstrip_id (s : str) :
  match s with c :: _ => is_space c = false | [] => True end -> lstrip s = s.
Proof. destruct s as [|c s']; simpl; [reflexivity|]. now intros ->. Qed.

Lemma strip_trimmed s : trimmed s = true -> strip s = s.
Proof.
  intros H. destruct s as [|c s']; [reflexivity|].
  unfold trimmed in H. apply andb_prop in H as [Hc Hl].
  apply negb_true_iff in Hc. apply negb_true_iff in Hl.
  unfold strip, rstrip. rewrite (@lstrip_id (c :: s') Hc).
  assert (Hne : c :: s' <> []) by discriminate.
  destruct (exists_last Hne) as [p [x E]]. rewrite E in Hl |- *.
  rewrite last_last in Hl. rewrite rev_app_distr. cbn [rev app].
  rewrite (@lstrip_id (x :: rev p) Hl).
  cbn [rev]. now rewrite rev_involutive.
Qed.

Lemma join_lines_trimmed x lines :
  forallb clean_line lines = true ->
  trimmed (join [x] lines) = true /\ (lines <> [] -> join [x] lines <> []).
Proof.
  induction lines as [|p rest IH]; [split; [reflexivity|congruence]|].
  intros H. cbn [forallb] in H. apply andb_prop in H as [Hp Hrest].
  apply clean_line_parts in Hp as [Hne [Htr _]].
  destruct p as [|c p']; [discriminate|].
  destruct rest as [|q rest'].
  - split; [exact Htr | discriminate].
  - destruct (IH Hrest) as [Htr' Hne'].
    split; [|discriminate].
    assert (HJ : join [x] (q :: rest') <> []) by (apply Hne'; discriminate).
    change (join [x] ((c :: p') :: q :: rest'))
      with (c :: p' ++ x :: join [x] (q :: rest')).
    destruct (join [x] (q :: rest')) as [|j J'] eqn:EJ; [congruence|].
    unfold trimmed in Htr |- *. apply andb_prop in Htr as [Hc _].
    rewrite Hc. cbn [andb].
    replace (c :: p' ++ x :: j :: J') with ((c :: p' ++ [x]) ++ j :: J')
      by (simpl; now rewrite <- app_assoc).
    rewrite (@last_app_nonempty _ (j :: J') c j) by discriminate.
    unfold trimmed in Htr'. apply andb_prop in Htr' as [_ Hl]. exact Hl.
Qed.

Lemma lazy_tag_none s : closes s = false -> lazy dot s tag_rest = None.
Proof.
  induction s as [|c s IH]; simpl; [reflexivity|].
  unfold tag_rest at 1. simpl.
  destruct (is_char ">" c); [discriminate|].
  unfold dot. destruct (is_char LF c); [reflexivity|]. exact IH.
Qed.

Lemma sub_from_no_tag s : has_tag s = false -> re_sub tag_pattern [] s = s.
Proof.
  unfold re_sub. induction s as [|c s' IH]; [reflexivity|].
  intros H. simpl in H. apply orb_false_iff in H as [Hc Hs].
  cbn [sub_from]. rewrite match_tag_cons.
  destruct (is_char "<" c).
  - simpl in Hc. rewrite (lazy_tag_none _ Hc). now rewrite IH.
  - now rewrite IH.
Qed.

Lemma closes_line p q :
  forallb (fun c => negb (nl c)) p = true ->
  closes (p ++ LF :: q) = closes p.
Proof.
  induction p as [|c p IH]; intros H; [reflexivity|].
  simpl in H. apply andb_prop in H as [Hc Hp]. cbn [app closes].
  destruct (is_char ">" c); [reflexivity|].
  destruct (is_char LF c); [reflexivity|]. now apply IH.
Qed.

Lemma has_tag_line p q :
  forallb (fun c => negb (nl c)) p = true ->
  has_tag (p ++ LF :: q) = has_tag p || has_tag q.
Proof.
  induction p as [|c p IH]; intros H; [reflexivity|].
  simpl in H. apply andb_prop in H as [Hc Hp]. cbn [app has_tag].
  rewrite (IH Hp), (closes_line _ q Hp). now rewrite orb_assoc.
Qed.

Lemma has_tag_join lines :
  forallb clean_line lines = true -> has_tag (join [LF] lines) = false.
Proof.
  induction lines as [|p rest IH]; [reflexivity|]. intros H.
  cbn [forallb] in H. apply andb_prop in H as [Hp Hrest].
  apply clean_line_facts in Hp as [_ [Hnl [_ [_ Htag]]]].
  destruct rest as [|q rest']; [exact Htag|].
  rewrite join_cons. cbn [app].
  now rewrite (has_tag_line _ _ Hnl), Htag, (IH Hrest).
Qed.

Lemma splitlines_from_line p cur rest :
  forallb (fun c => negb (is_linebreak c)) p = true ->
  splitlines_from cur (p ++ rest) = splitlines_from (rev p ++ cur) rest.
Proof.
  revert cur. induction p as [|c p IH]; intros cur H; [reflexivity|].
  simpl in H. apply andb_prop in H as [Hc Hp]. apply negb_true_iff in Hc.
  cbn [app splitlines_from].
  assert (Hcr : Ascii.eqb c CR = false).
  { destruct (Ascii.eqb c CR) eqn:E; [|reflexivity].
    apply Ascii.eqb_eq in E. subst c. discriminate. }
  rewrite Hcr, Hc, IH by assumption.
  cbn [rev]. now rewrite <- app_assoc.
Qed.

Lemma splitlines_join lines :
  forallb clean_line lines = true -> splitlines (join [LF] lines) = lines.
Proof.
  unfold splitlines.
  induction lines as [|p rest IH]; [reflexivity|]. intros H.
  cbn [forallb] in H. apply andb_prop in H as [Hp Hrest].
  apply clean_line_facts in Hp as [Hne [_ [Hlb _]]].
  destruct rest as [|q rest'].
  - cbn [join]. rewrite <- (app_nil_r p) at 1.
    rewrite splitlines_from_line by assumption. rewrite app_nil_r.
    cbn [splitlines_from].
    destruct (rev p) as [|x r] eqn:E.
    + apply (f_equal (@rev ascii)) in E. rewrite rev_involutive in E.
      now subst p.
    + rewrite <- E, rev_involutive. reflexivity.
  - rewrite join_cons. cbn [app].
    rewrite splitlines_from_line by assumption. rewrite app_nil_r.
    cbn [splitlines_from]. change (Ascii.eqb LF CR) with false.
    change (is_linebreak LF) with true. cbn iota.
    rewrite rev_involutive. f_equal. now apply IH.
Qed.

Lemma clean_lines_join lines :
  forallb clean_line lines = true ->
  clean_lines (join [LF] lines) = lines.
Proof.
  intros H. unfold clean_lines.
  rewrite (strip_trimmed _ (proj1 (join_lines_trimmed LF _ H))).
  rewrite (sub_from_no_tag _ (has_tag_join _ H)).
  rewrite (splitlines_join _ H).
  induction lines as [|p rest IH]; [reflexivity|].
  cbn [forallb] in H. apply andb_prop in H as [Hp Hrest].
  apply clean_line_parts in Hp as [Hne [Htr _]].
  cbn [filter]. rewrite (strip_trimmed _ Htr), Hne. cbn [map].
  rewrite (strip_trimmed _ Htr). f_equal. now apply IH.
Qed.

Lemma parse_match_block ts lines :
  lines <> [] ->
  forallb clean_line lines = true ->
  parse_match [(2, join [LF] lines); (1, ts)]
  = Some (replace_char "." "," ts, join [SP] lines).
Proof.
  intros Hne H. unfold parse_match. fold (clean_lines (group 2 [(2, join [LF] lines); (1, ts)])).
  rewrite group_1, group_2, (clean_lines_join _ H).
  destruct (join_lines_trimmed SP _ H) as [_ Hj]. specialize (Hj Hne).
  destruct (join [SP] lines); [congruence|reflexivity].
Qed.

(** ** Scanning a rendered file *)

Lemma raw_timestamp_head ts rest :
  is_raw_timestamp ts = true -> timestamp_head (ts ++ rest) = true.
Proof.
  intros H.
  do 12 (destruct ts as [|? ts]; [discriminate|]).
  destruct ts; [|discriminate].
  cbn [is_raw_timestamp forallb] in H.
  repeat match goal with H : _ && _ = true |- _ =>
    let H' := fresh in apply andb_prop in H as [H H'] end.
  cbn [app timestamp_head].
  repeat match goal with H : _ = true |- _ => rewrite H; clear H end.
  reflexivity.
Qed.

Lemma no_match_without_timestamp_head s :
  timestamp_head s = false -> match_at pattern s = None.
Proof.
  intros H. destruct (match_at pattern s) as [[rest m]|] eqn:E; [|reflexivity].
  exfalso. apply match_at_sound in E as [w [-> M]].
  apply pattern_inv in M
    as [ts [ws [junk [nls [body [term [-> [Hts _]]]]]]]].
  rewrite <- app_assoc, (@raw_timestamp_head ts _ Hts) in H. discriminate.
Qed.

Lemma finditer_skip_prefix pre s :
  (forall w1 w2, pre = w1 ++ w2 -> w2 <> [] ->
                 match_at pattern (w2 ++ s) = None) ->
  finditer_from pattern 0 (pre ++ s) = finditer_from pattern 0 s.
Proof.
  induction pre as [|c pre IH]; intros H; [reflexivity|].
  cbn [app finditer_from].
  pose proof (H [] (c :: pre) eq_refl ltac:(discriminate)) as H0.
  cbn [app] in H0. rewrite H0. apply IH.
  intros w1 w2 E Hne. apply (H (c :: w1) w2); [|assumption].
  now rewrite E.
Qed.

Lemma finditer_skip_covered r (w s : str) :
  finditer_from r (length w) (w ++ s) = finditer_from r 0 s.
Proof.
  induction w as [|c w IH]; [reflexivity|]. cbn [app length finditer_from].
  exact IH.
Qed.

Lemma timestamp_head_first a s :
  is_digit a = false -> timestamp_head (a :: s) = false.
Proof. intros H. destruct s as [|b [|c s']]; cbn; now rewrite ?H. Qed.

Lemma timestamp_head_second a b s :
  is_digit b = false -> timestamp_head (a :: b :: s) = false.
Proof.
  intros H. destruct s as [|c s']; cbn [timestamp_head]; [reflexivity|].
  now rewrite H, andb_false_r.
Qed.

Lemma timestamp_head_third a b c s :
  is_char ":" c = false -> timestamp_head (a :: b :: c :: s) = false.
Proof. intros H. cbn [timestamp_head]. now rewrite H, andb_false_r. Qed.

(** No match starts inside a counter line. *)
Lemma counter_line_no_match i w1 w2 s :
  forallb is_digit i = true ->
  i ++ [LF] = w1 ++ w2 -> w2 <> [] ->
  match_at pattern (w2 ++ s) = None.
Proof.
  intros Hi E Hne. apply no_match_without_timestamp_head.
  destruct (exists_last Hne) as [w2' [x E2]]. subst w2.
  rewrite app_assoc in E. apply app_inj_tail in E as [E <-].
  subst i. rewrite forallb_app in Hi. apply andb_prop in Hi as [_ Hd].
  rewrite <- app_assoc.
  destruct w2' as [|a [|b [|c w]]]; cbn [app].
  - now apply timestamp_head_first.
  - now apply timestamp_head_second.
  - now apply timestamp_head_third.
  - apply timestamp_head_third. cbn [forallb] in Hd.
    apply andb_prop in Hd as [_ Hd]. apply andb_prop in Hd as [_ Hd].
    apply andb_prop in Hd as [Hc _].
    destruct (is_char ":" c) eqn:Ec; [|reflexivity].
    apply is_char_eq in Ec. subst c. discriminate.
Qed.

Lemma well_formed_parts b :
  well_formed b = true ->
  match index b with
  | Some i => truthy i = true /\ forallb is_digit i = true
  | None => True
  end
  /\ is_raw_timestamp (start_time b) = true
  /\ forallb (fun c => negb (nl c)) (end_time b) = true
  /\ lines b <> []
  /\ forallb clean_line (lines b) = true.
Proof.
  unfold well_formed. rewrite !andb_true_iff.
  intros [[[[Hi Hs] He] Hl] Hc]. repeat split; auto.
  - destruct (index b); [|exact I]. now apply andb_prop in Hi.
  - destruct (lines b); [discriminate|discriminate].
Qed.

Lemma digit_not_nl c : is_digit c = true -> nl c = false.
Proof.
  intros H. unfold nl, is_char.
  destruct (Ascii.eqb c LF) eqn:E1.
  - apply Ascii.eqb_eq in E1. subst c. discriminate.
  - destruct (Ascii.eqb c CR) eqn:E2; [|reflexivity].
    apply Ascii.eqb_eq in E2. subst c. discriminate.
Qed.

Lemma raw_timestamp_starts ts rest :
  is_raw_timestamp ts = true -> starts_with_nl (ts ++ rest) = false.
Proof.
  intros H. destruct ts as [|c ts]; [discriminate|].
  cbn [app starts_with_nl]. apply digit_not_nl.
  do 11 (destruct ts as [|? ts]; [discriminate|]).
  destruct ts; [|discriminate].
  cbn [is_raw_timestamp forallb] in H.
  repeat match goal with H : _ && _ = true |- _ =>
    let H' := fresh in apply andb_prop in H as [H H'] end.
  assumption.
Qed.

Lemma render_starts b rest :
  well_formed b = true -> starts_with_nl (render b ++ rest) = false.
Proof.
  intros H. apply well_formed_parts in H as [Hi [Hs _]].
  unfold render, index_line. destruct (index b) as [i|].
  - destruct Hi as [Hne Hd]. destruct i as [|c i]; [discriminate|].
    cbn [app starts_with_nl]. apply digit_not_nl.
    simpl in Hd. now apply andb_prop in Hd as [Hc _].
  - cbn [app]. rewrite <- app_assoc. now apply raw_timestamp_starts.
Qed.

Lemma rendered_starts bs :
  Forall (fun b => well_formed b = true) bs ->
  starts_with_nl (concat (map render bs)) = false.
Proof.
  intros H. destruct H as [|b bs Hb Hbs]; [reflexivity|].
  cbn [map concat]. now apply render_starts.
Qed.

Lemma finditer_render b rest :
  well_formed b = true ->
  starts_with_nl rest = false ->
  finditer_from pattern 0 (render b ++ rest)
  = [(2, join [LF] (lines b)); (1, start_time b)]
      :: finditer_from pattern 0 rest.
Proof.
  intros Hwf Hrest.
  apply well_formed_parts in Hwf as [Hi [Hs [He [Hl Hc]]]].
  unfold render. rewrite <- app_assoc.
  rewrite finditer_skip_prefix.
  2:{ unfold index_line. destruct (index b) as [i|].
      - destruct Hi as [_ Hd]. intros w1 w2 E Hne.
        now apply (@counter_line_no_match i w1 w2).
      - intros w1 w2 E Hne. destruct w1; destruct w2; try discriminate.
        congruence. }
  destruct (join_lines_trimmed LF _ Hc) as [Htr Hne]. specialize (Hne Hl).
  assert (Hhead : starts_with_nl (join [LF] (lines b)) = false).
  { destruct (lines b) as [|p ps]; [congruence|].
    cbn [forallb] in Hc. apply andb_prop in Hc as [Hp _].
    apply clean_line_facts in Hp as [Hpne [Hpnl _]].
    destruct p as [|c p']; [congruence|].
    simpl in Hpnl. apply andb_prop in Hpnl as [Hcnl _].
    apply negb_true_iff in Hcnl.
    destruct ps; cbn [join app starts_with_nl]; exact Hcnl. }
  pose proof (@match_at_block (start_time b) (end_time b)
                (join [LF] (lines b)) rest Hs He Hne Hhead
                (caption_no_blank_line _ Hc) Hrest) as M.
  remember (start_time b ++ [SP] ++ lit "-->" ++ (SP :: end_time b) ++ [LF]
            ++ join [LF] (lines b) ++ [LF; LF] ++ rest) as input eqn:Ein.
  assert (Erender :
    (start_time b ++ lit " --> " ++ end_time b ++ [LF]
       ++ join [LF] (lines b) ++ [LF; LF]) ++ rest = input).
  { rewrite Ein. repeat rewrite <- app_assoc. reflexivity. }
  rewrite Erender.
  assert (Hlen : exists c w, input = c :: w ++ rest).
  { destruct (start_time b) as [|c ts] eqn:Ets; [discriminate|].
    exists c, (ts ++ [SP] ++ lit "-->" ++ (SP :: end_time b) ++ [LF]
               ++ join [LF] (lines b) ++ [LF; LF]).
    rewrite Ein. repeat first [rewrite <- app_assoc | progress cbn [app]].
    reflexivity. }
  destruct Hlen as [c [w Ec]].
  rewrite Ec in M |- *. cbn [finditer_from]. rewrite M. f_equal.
  replace (length (c :: w ++ rest) - length rest - 1) with (length w)
    by (cbn [length]; rewrite length_app; lia).
  apply finditer_skip_covered.
Qed.

Lemma collect_rendered blocks :
  Forall (fun b => well_formed b = true) blocks ->
  collect (finditer_from pattern 0 (concat (map render blocks)))
  = map entry_of blocks.
Proof.
  intros H. induction H as [|b bs Hb Hbs IH]; [reflexivity|].
  cbn [map concat].
  rewrite (@finditer_render b _ Hb (rendered_starts Hbs)).
  apply well_formed_parts in Hb as [_ [_ [_ [Hl Hc]]]].
  cbn [collect]. rewrite (@parse_match_block (start_time b) _ Hl Hc).
  unfold entry_of at 1. f_equal. exact IH.
Qed.

(** X1: parsing a file written block after block (optional counter line,
    time line, caption lines that are already clean, blank line) gives back
    exactly one entry per block, in the order of the blocks: the start time
    with the full stop replaced by a comma, and the caption lines joined by
    single spaces. *)
Theorem parse_render_roundtrip :
  forall blocks : list block,
    Forall (fun b => well_formed b = true) blocks ->
    parse (concat (map render blocks)) = map entry_of blocks.
Proof.
  intros blocks H. unfold parse, finditer.
  now apply collect_rendered.
Qed.

Lemma parse_render_roundtrip_witness :
  parse (concat (map render sample_blocks))
  = [(lit "00:00:01,000", lit "Hello there General Kenobi");
     (lit "00:01:03,250", lit "Bye")].
Proof.
  refine (eq_trans (@parse_render_roundtrip sample_blocks _) _).
  - repeat constructor.
  - reflexivity.
Defined.

(** ** The dictionary operations *)

Section DictMore.
Variable V : Type.
Implicit Types (dd : dict V) (key : string) (v : V).

Lemma dict_set_absent key v dd :
  dict_mem key dd = false -> dict_set key v dd = dd ++ [(key, v)].
Proof.
  induction dd as [|[k w] rest IH]; simpl; intros H; [reflexivity|].
  apply orb_false_iff in H as [Hk Hr]. rewrite Hk. now rewrite IH.
Qed.

Lemma dict_get_set_same key v dd : dict_get key (dict_set key v dd) = Some v.
Proof.
  induction dd as [|[k w] rest IH]; simpl.
  - now rewrite String.eqb_refl.
  - destruct (String.eqb k key) eqn:E; simpl; rewrite E; [reflexivity|exact IH].
Qed.

Lemma dict_get_set_other key key' v dd :
  key <> key' -> dict_get key (dict_set key' v dd) = dict_get key dd.
Proof.
  intros Hne. induction dd as [|[k w] rest IH]; simpl.
  - destruct (String.eqb key' key) eqn:E; [|reflexivity].
    apply String.eqb_eq in E. congruence.
  - destruct (String.eqb k key') eqn:E; simpl.
    + apply String.eqb_eq in E. subst k.
      destruct (String.eqb key' key) eqn:E'; [|reflexivity].
      apply String.eqb_eq in E'. congruence.
    + now rewrite IH.
Qed.

Lemma dict_mem_false_keys key dd : dict_mem key dd = false <-> ~ In key (keys dd).
Proof.
  rewrite <- dict_mem_keys. destruct (dict_mem key dd); split; congruence.
Qed.

Lemma dict_del_keys_incl key dd name :
  In name (keys (dict_del key dd)) -> In name (keys dd).
Proof.
  unfold keys. intros H. apply in_map_iff in H as [[k w] [<- H]].
  apply in_map_iff. exists (k, w). split; [reflexivity|].
  eapply dict_del_incl; eassumption.
Qed.

Lemma dict_del_NoDup key dd :
  NoDup (keys dd) -> NoDup (keys (dict_del key dd)).
Proof.
  induction dd as [|[k w] rest IH]; simpl; intros H; [constructor|].
  inversion H as [|? ? Hk Hrest]; subst.
  destruct (String.eqb k key); [assumption|].
  simpl. constructor; [|now apply IH].
  intros Hin. apply Hk. eapply dict_del_keys_incl; eassumption.
Qed.

Lemma dict_del_removes key dd :
  NoDup (keys dd) -> dict_mem key (dict_del key dd) = false.
Proof.
  induction dd as [|[k w] rest IH]; simpl; intros H; [reflexivity|].
  inversion H as [|? ? Hk Hrest]; subst.
  destruct (String.eqb k key) eqn:E.
  - apply String.eqb_eq in E. subst k. now apply dict_mem_false_keys.
  - simpl. rewrite E. now apply IH.
Qed.

Lemma dict_del_absent key dd : dict_mem key dd = false -> dict_del key dd = dd.
Proof.
  induction dd as [|[k w] rest IH]; simpl; intros H; [reflexivity|].
  apply orb_false_iff in H as [Hk Hr]. rewrite Hk. now rewrite IH.
Qed.

Lemma dict_del_length key dd :
  dict_mem key dd = true -> S (length (dict_del key dd)) = length dd.
Proof.
  induction dd as [|[k w] rest IH]; simpl; [discriminate|].
  destruct (String.eqb k key); simpl; [reflexivity|].
  intros H. now rewrite IH.
Qed.

Lemma dict_mem_del_other key key' dd :
  dict_mem key dd = false -> dict_mem key (dict_del key' dd) = false.
Proof.
  intros H. apply dict_mem_false_keys. apply dict_mem_false_keys in H.
  intros Hin. apply H. eapply dict_del_keys_incl; eassumption.
Qed.
End DictMore.

(** ** One round of the loading loop *)

Lemma NoDup_snoc (l : list string) a :
  NoDup l -> ~ In a l -> NoDup (l ++ [a]).
Proof.
  induction l as [|x l IH]; intros H Ha; simpl.
  - constructor; [tauto|constructor].
  - inversion H as [|? ? Hx Hl]; subst. constructor.
    + rewrite in_app_iff. intros [Hin|[->|[]]]; [tauto|].
      apply Ha. now left.
    + apply IH; [assumption|]. intros Hin. apply Ha. now right.
Qed.

Lemma select_files_step_cases total i f p :
  let p' := select_files_step total i f p in
  (dict_mem (basename f) (data p) = true
   /\ data p' = data p /\ loaded_count p' = loaded_count p
   /\ error_files p' = error_files p)
  \/ (dict_mem (basename f) (data p) = false
      /\ exists content enc,
          first_decoding SUPPORTED_ENCODINGS f = Some (content, enc)
          /\ parse content <> []
          /\ data p' = data p ++ [(basename f, parse content)]
          /\ loaded_count p' = loaded_count p + 1
          /\ error_files p' = error_files p)
  \/ (dict_mem (basename f) (data p) = false
      /\ data p' = data p /\ loaded_count p' = loaded_count p
      /\ exists line, error_files p' = error_files p ++ [line]).
Proof.
  cbv zeta. unfold select_files_step.
  destruct (dict_mem (basename f) (data p)) eqn:Hm; [left; auto|right].
  unfold load_srt_file.
  destruct (first_decoding SUPPORTED_ENCODINGS f) as [[content enc]|] eqn:Hd.
  - destruct (parse content) as [|e es] eqn:Hp.
    + right. cbn. repeat split; eauto.
    + left. split; [reflexivity|]. exists content, enc. cbn.
      rewrite Hp. repeat split; try congruence.
      now apply dict_set_absent.
  - right. cbn. repeat split; eauto.
Qed.

Lemma select_files_step_shown total i f p :
  exists event, shown (select_files_step total i f p) = shown p ++ [event].
Proof.
  unfold select_files_step.
  destruct (dict_mem (basename f) (data p)); [eexists; reflexivity|].
  destruct (load_srt_file (data p) f) as [dd|[]]; eexists; reflexivity.
Qed.

Lemma select_files_step_incl total i f p x :
  In x (data p) -> In x (data (select_files_step total i f p)).
Proof.
  intros H.
  destruct (select_files_step_cases total i f p)
    as [[_ [E _]] | [[_ [c [e [_ [_ [E _]]]]]] | [_ [E _]]]];
    rewrite E; auto. apply in_or_app. now left.
Qed.

Lemma select_files_loop_incl total i files p x :
  In x (data p) -> In x (data (select_files_loop total i files p)).
Proof.
  revert i p. induction files as [|f rest IH]; intros i p H; simpl; auto.
  apply IH. now apply select_files_step_incl.
Qed.

Lemma select_files_step_NoDup total i f p :
  NoDup (keys (data p)) -> NoDup (keys (data (select_files_step total i f p))).
Proof.
  intros H.
  destruct (select_files_step_cases total i f p)
    as [[_ [E _]] | [[Hm [c [e [_ [_ [E _]]]]]] | [_ [E _]]]];
    rewrite E; auto.
  unfold keys. rewrite map_app. cbn [map fst].
  apply NoDup_snoc; [exact H | now apply dict_mem_false_keys].
Qed.

Lemma select_files_loop_NoDup total i files p :
  NoDup (keys (data p)) ->
  NoDup (keys (data (select_files_loop total i files p))).
Proof.
  revert i p. induction files as [|f rest IH]; intros i p H; simpl; auto.
  apply IH. now apply select_files_step_NoDup.
Qed.

Lemma select_files_step_get total i f p name :
  dict_mem name (data p) = true ->
  dict_get name (data (select_files_step total i f p)) = dict_get name (data p).
Proof.
  intros Hn.
  destruct (select_files_step_cases total i f p)
    as [[_ [E _]] | [[Hm [c [e [Hd [Hp [E _]]]]]] | [_ [E _]]]];
    rewrite E; auto.
  rewrite <- (dict_set_absent _ (parse c) _ Hm).
  apply dict_get_set_other. intros ->. congruence.
Qed.

Lemma select_files_loop_get total i files p name :
  dict_mem name (data p) = true ->
  dict_get name (data (select_files_loop total i files p))
  = dict_get name (data p).
Proof.
  revert i p. induction files as [|f rest IH]; intros i p H; simpl; auto.
  rewrite IH by now apply select_files_step_mem.
  now apply select_files_step_get.
Qed.

Lemma select_files_state files st :
  files <> [] ->
  fst (select_files files st)
  = {| subtitle_data :=
         data (select_files_loop (length files) 0 files
                 {| data := subtitle_data st; loaded_count := 0;
                    error_files := [];
                    shown := [UpdateStatus
                                ("开始加载 " ++ str_of_nat (length files)
                                 ++ " 个文件...")%string] |});
       search_results := search_results st |}.
Proof. destruct files; [congruence|reflexivity]. Qed.

(** ** The removal loop *)

Lemma delete_loop_NoDup filenames dd n :
  NoDup (keys dd) -> NoDup (keys (fst (delete_loop filenames dd n))).
Proof.
  revert dd n. induction filenames as [|f rest IH]; intros dd n H; simpl; auto.
  destruct (dict_mem f dd); apply IH; [now apply dict_del_NoDup | assumption].
Qed.

Lemma delete_loop_stays_absent filenames dd n name :
  dict_mem name dd = false ->
  dict_mem name (fst (delete_loop filenames dd n)) = false.
Proof.
  revert dd n. induction filenames as [|f rest IH]; intros dd n H; simpl; auto.
  destruct (dict_mem f dd); apply IH; [now apply dict_mem_del_other | assumption].
Qed.

Lemma delete_loop_removes filenames dd n name :
  NoDup (keys dd) -> In name filenames ->
  dict_mem name (fst (delete_loop filenames dd n)) = false.
Proof.
  revert dd n. induction filenames as [|f rest IH]; intros dd n Hnd Hin;
    [contradiction|].
  simpl. destruct Hin as [->|Hin].
  - destruct (dict_mem name dd) eqn:Hm.
    + apply delete_loop_stays_absent. now apply dict_del_removes.
    + now apply delete_loop_stays_absent.
  - destruct (dict_mem f dd); apply IH; auto. now apply dict_del_NoDup.
Qed.

Lemma delete_loop_count filenames dd n :
  length (fst (delete_loop filenames dd n)) + snd (delete_loop filenames dd n)
  = length dd + n.
Proof.
  revert dd n. induction filenames as [|f rest IH]; intros dd n; simpl;
    [reflexivity|].
  destruct (dict_mem f dd) eqn:Hm; rewrite IH; [|reflexivity].
  apply dict_del_length in Hm. lia.
Qed.

Lemma delete_loop_absent filenames dd n :
  (forall name, In name filenames -> dict_mem name dd = false) ->
  delete_loop filenames dd n = (dd, n).
Proof.
  revert dd n. induction filenames as [|f rest IH]; intros dd n H; simpl;
    [reflexivity|].
  rewrite (H f) by now left. apply IH. intros name Hn. apply H. now right.
Qed.

(** ** The state stays well formed *)

Lemma state_ok_initial : state_ok initial.
Proof.
  split; [constructor|]. intros f t x [].
Qed.

(** X2: loading, removing, clearing and searching keep the state well
    formed: the file names of the corpus stay distinct, and every record of
    the stored result set is an entry of a file that is still loaded. *)
Theorem state_invariant_preserved :
  forall st : state,
    state_ok st ->
    (forall files, state_ok (fst (select_files files st)))
    /\ (forall selected_items confirmed,
           state_ok (fst (delete_selected selected_items confirmed st)))
    /\ (forall confirmed, state_ok (fst (clear_all confirmed st)))
    /\ (forall search_entry, state_ok (fst (search search_entry st))).
Proof.
  intros st Hst. pose proof Hst as [Hnd Hres]. split; [|split; [|split]].
  - intros files. destruct files as [|f rest]; [exact Hst|].
    rewrite select_files_state by discriminate. split; cbn [subtitle_data].
    + now apply select_files_loop_NoDup.
    + intros name t x Hin. cbn [search_results] in Hin.
      destruct (Hres name t x Hin) as [subs [H1 H2]].
      exists subs. split; [|assumption]. cbn [subtitle_data].
      now apply select_files_loop_incl.
  - intros sel confirmed. unfold delete_selected.
    destruct sel as [|s0 sel']; [exact Hst|].
    destruct confirmed; [|exact Hst].
    destruct (delete_loop (s0 :: sel') (subtitle_data st) 0) as [dd n] eqn:E.
    split; cbn.
    + change dd with (fst (dd, n)). rewrite <- E.
      now apply delete_loop_NoDup.
    + intros name t x [].
  - intros confirmed. unfold clear_all.
    destruct (subtitle_data st) as [|item rest] eqn:E; [exact Hst|].
    destruct confirmed; [|exact Hst].
    split; cbn; [constructor|intros name t x []].
  - intros q. unfold search.
    destruct (negb (truthy (strip q))); [exact Hst|].
    destruct (subtitle_data st) as [|item rest] eqn:E; [exact Hst|].
    split; cbn [fst subtitle_data search_results].
    + exact Hnd.
    + intros name t x Hin. cbn [fst search_results] in Hin.
      apply In_search_task in Hin as [subs [H1 [H2 _]]].
      exists subs. now split.
Qed.

Lemma state_invariant_preserved_witness :
  state_ok
    (fst (search (lit "hello") (fst (select_files [file_b; file_a] initial)))).
Proof.
  apply (@state_invariant_preserved
           (fst (select_files [file_b; file_a] initial))).
  apply (proj1 (@state_invariant_preserved initial state_ok_initial)).
Defined.

(** ** Loading: what it keeps, what it counts *)

(** X3: a load never changes a file that is already in the corpus: its
    entries are the same after any batch, also when the batch holds a file
    of that name; and the stored result set is not touched. *)
Theorem loading_keeps_loaded_files :
  forall (files : list file) (st : state) (name : string),
    dict_mem name (subtitle_data st) = true ->
    dict_get name (subtitle_data (fst (select_files files st)))
    = dict_get name (subtitle_data st)
    /\ search_results (fst (select_files files st)) = search_results st.
Proof.
  intros files st name Hm. destruct files as [|f rest]; [now split|].
  rewrite select_files_state by discriminate. cbn [subtitle_data search_results].
  split; [|reflexivity]. now apply select_files_loop_get.
Qed.

Lemma loading_keeps_loaded_files_witness :
  dict_get "a.srt"
    (subtitle_data
       (fst (select_files [text_file "a.srt" (block1 ++ block1); file_b]
                          (fst (select_files [file_a] initial)))))
  = dict_get "a.srt" (subtitle_data (fst (select_files [file_a] initial))).
Proof.
  apply (@loading_keeps_loaded_files
           [text_file "a.srt" (block1 ++ block1); file_b]
           (fst (select_files [file_a] initial)) "a.srt").
  reflexivity.
Defined.

(** X4: the loading loop accounts for every file of the batch: the corpus
    grows by exactly the number of files counted as loaded, the files
    counted as loaded or listed as failed are never more than the files of
    the batch (the others were skipped as already loaded), and each file
    puts exactly one message on the status line. *)
Theorem loading_counts :
  forall (total i : nat) (files : list file) (p : progress),
    length (data (select_files_loop total i files p)) + loaded_count p
    = length (data p) + loaded_count (select_files_loop total i files p)
    /\ loaded_count (select_files_loop total i files p)
       + length (error_files (select_files_loop total i files p))
       <= loaded_count p + length (error_files p) + length files
    /\ loaded_count p <= loaded_count (select_files_loop total i files p)
    /\ length (shown (select_files_loop total i files p))
       = length (shown p) + length files.
Proof.
  intros total i files. revert i.
  induction files as [|f rest IH]; intros i p; cbn [select_files_loop length].
  - repeat split; lia.
  - destruct (IH (i + 1) (select_files_step total i f p)) as [H1 [H2 [H3 H4]]].
    destruct (select_files_step_shown total i f p) as [ev Hev].
    rewrite Hev, length_app in H4. cbn [length] in H4.
    destruct (select_files_step_cases total i f p)
      as [[_ [Ed [El Ee]]] | [[_ [c [e [_ [_ [Ed [El Ee]]]]]]] | [_ [Ed [El [line Ee]]]]]];
      rewrite Ed, El, Ee in *; try rewrite !length_app in *; cbn [length] in *;
      repeat split; lia.
Qed.

(** X5: [load_srt_file] raises the cannot-decode error exactly when none of
    the supported encodings reads the file; and in the loading loop such a
    file, when its name is new, leaves the corpus and the load count as they
    were and adds its name with that message to the failure list. *)
Theorem undecodable_file_is_reported :
  forall (f : file),
    (forall subtitle_data,
        load_srt_file subtitle_data f = Raise (ValueError undecodable_msg)
        <-> forall e, In e SUPPORTED_ENCODINGS -> read f e = None)
    /\ ((forall e, In e SUPPORTED_ENCODINGS -> read f e = None) ->
        forall total i p,
          dict_mem (basename f) (data p) = false ->
          data (select_files_step total i f p) = data p
          /\ loaded_count (select_files_step total i f p) = loaded_count p
          /\ error_files (select_files_step total i f p)
             = error_files p
               ++ [(basename f ++ " (" ++ undecodable_msg ++ ")")%string]).
Proof.
  intros f.
  assert (Hnone : (forall e, In e SUPPORTED_ENCODINGS -> read f e = None)
                  <-> first_decoding SUPPORTED_ENCODINGS f = None).
  { unfold SUPPORTED_ENCODINGS. cbn [first_decoding]. split.
    - intros H. rewrite !H by (cbn; tauto). reflexivity.
    - intros H e He.
      destruct (read f utf_8) eqn:E1; [discriminate|].
      destruct (read f gbk) eqn:E2; [discriminate|].
      destruct (read f gb2312) eqn:E3; [discriminate|].
      destruct (read f utf_16) eqn:E4; [discriminate|].
      cbn in He. destruct He as [<-|[<-|[<-|[<-|[]]]]]; assumption. }
  split.
  - intros dd. rewrite Hnone. unfold load_srt_file.
    destruct (first_decoding SUPPORTED_ENCODINGS f) as [[content enc]|].
    + destruct (parse content); split; intros H; discriminate.
    + split; reflexivity.
  - intros H total i p Hm. apply Hnone in H.
    unfold select_files_step, load_srt_file. rewrite Hm, H. cbn. auto.
Qed.

(** X6: the loop over the encodings takes the first encoding of the list
    that reads the file: it yields a content and an encoding exactly when
    that encoding gives that content and every encoding before it in the
    list fails. *)
Theorem first_decoding_first_success :
  forall (encodings : list encoding) (f : file) (content : str)
         (e : encoding),
    first_decoding encodings f = Some (content, e)
    <-> exists before after,
        encodings = before ++ e :: after
        /\ read f e = Some content
        /\ forall e', In e' before -> read f e' = None.
Proof.
  intros encodings f content e. induction encodings as [|x rest IH].
  - split; [discriminate|]. intros [before [after [E _]]].
    destruct before; discriminate.
  - cbn [first_decoding]. destruct (read f x) as [c|] eqn:Ex.
    + split.
      * intros H. injection H as -> ->. exists [], rest. repeat split; auto.
        intros e' [].
      * intros [before [after [E [Hr Hb]]]].
        destruct before as [|b before'].
        -- injection E as -> _. congruence.
        -- injection E as -> _. rewrite (Hb b) in Ex by now left.
           discriminate.
    + rewrite IH. split.
      * intros [before [after [E [Hr Hb]]]]. exists (x :: before), after.
        repeat split; auto.
        -- now rewrite E.
        -- intros e' [<-|He']; auto.
      * intros [before [after [E [Hr Hb]]]].
        destruct before as [|b before'].
        -- injection E as -> _. congruence.
        -- injection E as -> E. exists before', after. repeat split; auto.
           intros e' He'. apply Hb. now right.
Qed.

(** X7: loading a readable file whose name is new and whose content is
    written as well-formed blocks puts it last in the corpus, with exactly
    one entry per block, in the order of the blocks. *)
Theorem load_rendered_file :
  forall (st : state) (f : file) (enc : encoding) (blocks : list block),
    blocks <> [] ->
    Forall (fun b => well_formed b = true) blocks ->
    first_decoding SUPPORTED_ENCODINGS f
    = Some (concat (map render blocks), enc) ->
    dict_mem (basename f) (subtitle_data st) = false ->
    subtitle_data (fst (select_files [f] st))
    = subtitle_data st ++ [(basename f, map entry_of blocks)]
    /\ dict_get (basename f) (subtitle_data (fst (select_files [f] st)))
       = Some (map entry_of blocks).
Proof.
  intros st f enc blocks Hne Hwf Hd Hm.
  assert (E : subtitle_data (fst (select_files [f] st))
              = subtitle_data st ++ [(basename f, map entry_of blocks)]).
  { cbn [select_files fst subtitle_data select_files_loop length].
    unfold select_files_step. cbn [data]. rewrite Hm.
    rewrite (load_srt_file_decoded _ _ Hd).
    unfold parse, finditer. rewrite (collect_rendered Hwf).
    destruct blocks as [|b bs]; [congruence|]. cbn [map data].
    now apply dict_set_absent. }
  split; [exact E|]. rewrite E.
  rewrite <- (dict_set_absent _ (map entry_of blocks) _ Hm).
  apply dict_get_set_same.
Qed.

Lemma load_rendered_file_witness :
  dict_get "new.srt"
    (subtitle_data
       (fst (select_files
               [text_file "new.srt" (concat (map render sample_blocks))]
               (fst (select_files [file_a] initial)))))
  = Some (map entry_of sample_blocks).
Proof.
  refine (proj2 (@load_rendered_file
                   (fst (select_files [file_a] initial))
                   (text_file "new.srt" (concat (map render sample_blocks)))
                   utf_8 sample_blocks _ _ _ _)).
  - discriminate.
  - repeat constructor.
  - reflexivity.
  - reflexivity.
Defined.

(** ** Removing files *)

Lemma loaded_b_then_a_keys : NoDup (keys (subtitle_data loaded_b_then_a)).
Proof.
  change (NoDup ["b.srt"%string; "a.srt"%string]).
  constructor; [intros [H|[]]; discriminate|].
  constructor; [intros []|constructor].
Qed.

(** X8: with distinct file names in the corpus, a confirmed removal leaves
    none of the selected names in the corpus, and removing the same
    selection a second time changes nothing. *)
Theorem delete_selected_removes :
  forall (selected_items : list string) (st : state),
    NoDup (keys (subtitle_data st)) ->
    (forall name,
        In name selected_items ->
        dict_mem name
          (subtitle_data (fst (delete_selected selected_items true st)))
        = false)
    /\ fst (delete_selected selected_items true
                            (fst (delete_selected selected_items true st)))
       = fst (delete_selected selected_items true st).
Proof.
  intros sel st Hnd.
  destruct sel as [|s0 sel']; [split; [intros name []|reflexivity]|].
  unfold delete_selected.
  destruct (delete_loop (s0 :: sel') (subtitle_data st) 0) as [dd n] eqn:E.
  assert (Hgone : forall name, In name (s0 :: sel') -> dict_mem name dd = false).
  { intros name Hin. change dd with (fst (dd, n)). rewrite <- E.
    now apply delete_loop_removes. }
  cbn [fst clear_search_results subtitle_data search_results].
  split; [exact Hgone|].
  now rewrite (@delete_loop_absent (s0 :: sel') dd 0 Hgone).
Qed.

Lemma delete_selected_removes_witness :
  dict_mem "b.srt"
    (subtitle_data (fst (delete_selected ["b.srt"%string] true loaded_b_then_a)))
  = false.
Proof.
  apply (proj1 (@delete_selected_removes ["b.srt"%string] loaded_b_then_a
                  loaded_b_then_a_keys)).
  now left.
Defined.

(** X9: after a confirmed removal the status line tells how many files left
    the corpus: the number shown is the size of the corpus before minus its
    size after, so a name that is not loaded, or selected twice, is not
    counted; when no selected name is loaded the corpus is unchanged. *)
Theorem delete_selected_reports_count :
  forall (selected_items : list string) (st : state),
    selected_items <> [] ->
    snd (delete_selected selected_items true st)
    = [UpdateStatus
         ("已移除 "
          ++ str_of_nat
               (length (subtitle_data st)
                - length (subtitle_data
                            (fst (delete_selected selected_items true st))))
          ++ " 个文件")%string]
    /\ ((forall name, In name selected_items ->
                      dict_mem name (subtitle_data st) = false) ->
        subtitle_data (fst (delete_selected selected_items true st))
        = subtitle_data st).
Proof.
  intros sel st Hne. destruct sel as [|s0 sel']; [congruence|].
  unfold delete_selected.
  pose proof (delete_loop_count (s0 :: sel') (subtitle_data st) 0) as Hc.
  destruct (delete_loop (s0 :: sel') (subtitle_data st) 0) as [dd n] eqn:E.
  cbn [fst snd clear_search_results subtitle_data] in *. split.
  - replace (length (subtitle_data st) - length dd) with n by lia.
    reflexivity.
  - intros Habs.
    rewrite (@delete_loop_absent (s0 :: sel') (subtitle_data st) 0 Habs) in E.
    now injection E as <- _.
Qed.

Lemma delete_selected_reports_count_witness :
  snd (delete_selected ["b.srt"%string; "zzz.srt"%string; "b.srt"%string] true
                       loaded_b_then_a)
  = [UpdateStatus "已移除 1 个文件"].
Proof.
  refine (eq_trans
            (proj1 (@delete_selected_reports_count
                      ["b.srt"%string; "zzz.srt"%string; "b.srt"%string]
                      loaded_b_then_a _)) _).
  - discriminate.
  - reflexivity.
Defined.

Lemma delete_loop_all (dd : dict (list entry)) n :
  delete_loop (keys dd) dd n = ([], n + length dd).
Proof.
  revert n. induction dd as [|[k v] rest IH]; intros n; cbn.
  - now rewrite Nat.add_0_r.
  - rewrite String.eqb_refl. cbn. rewrite IH. f_equal. lia.
Qed.

(** X10: selecting every loaded file and confirming the removal leaves the
    same state as a confirmed clear: no file and no result. *)
Theorem delete_all_is_clear_all :
  forall st : state,
    subtitle_data st <> [] ->
    fst (delete_selected (keys (subtitle_data st)) true st)
    = fst (clear_all true st)
    /\ fst (clear_all true st) = initial.
Proof.
  intros st Hne. unfold delete_selected, clear_all.
  destruct (subtitle_data st) as [|item rest] eqn:E; [congruence|].
  rewrite <- E. rewrite delete_loop_all. rewrite E. cbn. split; reflexivity.
Qed.

Lemma delete_all_is_clear_all_witness :
  fst (delete_selected (keys (subtitle_data loaded_b_then_a)) true
                       loaded_b_then_a)
  = fst (clear_all true loaded_b_then_a).
Proof.
  apply (@delete_all_is_clear_all loaded_b_then_a). discriminate.
Defined.

(** ** The query *)

Lemma lstrip_spaces a s : forallb is_space a = true -> lstrip (a ++ s) = lstrip s.
Proof.
  induction a as [|c a IH]; simpl; [reflexivity|].
  intros H. apply andb_prop in H as [Hc Ha]. now rewrite Hc, IH.
Qed.

Lemma lstrip_app q b :
  lstrip (q ++ b) = match lstrip q with [] => lstrip b | l => l ++ b end.
Proof.
  induction q as [|c q IH]; simpl.
  - now destruct (lstrip b).
  - destruct (is_space c); [exact IH|reflexivity].
Qed.

Lemma rstrip_spaces s b : forallb is_space b = true -> rstrip (s ++ b) = rstrip s.
Proof.
  intros H. unfold rstrip. rewrite rev_app_distr, lstrip_spaces; [reflexivity|].
  now rewrite forallb_rev.
Qed.

Lemma lstrip_all_spaces b : forallb is_space b = true -> lstrip b = [].
Proof.
  intros H. rewrite <- (app_nil_r b), lstrip_spaces; auto.
Qed.

Lemma strip_padding a q b :
  forallb is_space a = true -> forallb is_space b = true ->
  strip (a ++ q ++ b) = strip q.
Proof.
  intros Ha Hb. unfold strip. rewrite (@lstrip_spaces a _ Ha), lstrip_app.
  destruct (lstrip q) as [|c l] eqn:E.
  - now rewrite (@lstrip_all_spaces b Hb).
  - now apply rstrip_spaces.
Qed.

(** X11: a search box that is empty or holds only white space is refused
    with the enter-a-keyword warning, whatever the corpus; no search is run
    and the state, with its stored result set, is unchanged. *)
Theorem blank_query_is_refused :
  forall (search_entry : str) (st : state),
    forallb is_space search_entry = true ->
    search search_entry st = (st, [ShowWarning "提示" "请输入搜索关键字"]).
Proof.
  intros q st H. unfold search, strip.
  now rewrite (@lstrip_all_spaces q H).
Qed.

Lemma blank_query_is_refused_witness :
  search (lit "   ") loaded_b_then_a
  = (loaded_b_then_a, [ShowWarning "提示" "请输入搜索关键字"]).
Proof.
  apply (@blank_query_is_refused (lit "   ") loaded_b_then_a). reflexivity.
Defined.

(** X12: white space typed before and after the query does not count: the
    search gives the same state and shows the same messages as the search
    for the query without it. *)
Theorem query_is_trimmed :
  forall (before query after : str) (st : state),
    forallb is_space before = true ->
    forallb is_space after = true ->
    search (before ++ query ++ after) st = search query st.
Proof.
  intros a q b st Ha Hb. unfold search.
  now rewrite (@strip_padding a q b Ha Hb).
Qed.

Lemma query_is_trimmed_witness :
  search (lit "  " ++ lit "hello" ++ lit " ") loaded_b_then_a
  = search (lit "hello") loaded_b_then_a.
Proof.
  apply (@query_is_trimmed (lit "  ") (lit "hello") (lit " ") loaded_b_then_a);
    reflexivity.
Defined.

(** X13: narrowing a query never adds results.  When the lower-case form
    of a query occurs inside the lower-case form of another query, every
    record found for the other query is found for it.  The condition is on
    the lower-case forms, as the search compares them: lower case is not
    taken letter by letter in every script, so a query that occurs inside
    another need not have its lower-case form inside the other's. *)
Theorem search_narrows :
  forall (subtitle_data : dict (list entry)) (long query : str)
         (record : match_record),
    contains (lower query) (lower long) = true ->
    In record (search_task subtitle_data long) ->
    In record (search_task subtitle_data query).
Proof.
  intros dd long q [[f t] x] Hq H.
  apply In_search_task in H as [subs [H1 [H2 H3]]].
  apply In_search_task. exists subs. repeat split; auto.
  apply contains_iff in Hq as [a [b Eq]].
  apply contains_iff in H3 as [c [d E]]. apply contains_iff.
  exists (c ++ a), (b ++ d).
  rewrite E, Eq. now repeat rewrite <- app_assoc.
Qed.

Lemma search_narrows_witness :
  In ("a.srt"%string, lit "00:00:01,000", lit "Hello there")
     (search_task (subtitle_data loaded_b_then_a) (lit "LO")).
Proof.
  apply (@search_narrows (subtitle_data loaded_b_then_a)
           (lit "hello th") (lit "LO")).
  - reflexivity.
  - vm_compute. right. left. reflexivity.
Defined.

(** ** What [translate] sends and hands back *)

(** X14: [translate] makes at most one provider call, so it sends at most
    one request; it never calls the free Google endpoint; a call is made
    only when a service is selected and the text is not blank; the call is
    to the provider of the selected service, with the stored credentials,
    none of them empty; and the Google and DeepL calls get the text as it
    was given.  Nothing is said of the text of the Azure call:
    [_translate_azure] splices the text into a JSON body template before
    its request, which can fail before any request or change the text. *)
Theorem translate_sends_at_most_one :
  forall (backend : request -> py string) (self : TranslatorService)
         (text : str),
    length (snd (translate backend self text)) <= 1
    /\ forall rq,
        In rq (snd (translate backend self text)) ->
        is_free_request rq = false
        /\ service_selected self = true
        /\ negb (truthy text) || isspace text = false
        /\ call_of_selected_service self text rq.
Proof.
  intros backend self text. unfold translate.
  destruct (service_selected self); cbn [negb];
    [|split; [cbn; lia | intros rq []]].
  destruct (negb (truthy text) || isspace text);
    [split; [cbn; lia | intros rq []]|].
  unfold translate_try, is_service.
  destruct (current_service self) as [name|] eqn:Es;
    [|split; [cbn; lia | intros rq []]].
  destruct (String.eqb name "Azure") eqn:Ea;
    [apply String.eqb_eq in Ea; subst name|].
  { destruct (nonempty (azure_key self)) eqn:Ek; cbn [negb orb];
      [|split; [cbn; lia | intros rq []]].
    destruct (nonempty (azure_region self)) eqn:Er; cbn [negb];
      [|split; [cbn; lia | intros rq []]].
    split; [cbn; lia|]. intros rq [<-|[]].
    cbn [is_free_request call_of_selected_service]. auto 10. }
  destruct (String.eqb name "Google") eqn:Eg;
    [apply String.eqb_eq in Eg; subst name|].
  { destruct (nonempty (google_key self)) eqn:Ek;
      [|split; [cbn; lia | intros rq []]].
    split; [cbn; lia|]. intros rq [<-|[]].
    cbn [is_free_request call_of_selected_service]. auto 10. }
  destruct (String.eqb name "DeepL") eqn:Ed;
    [apply String.eqb_eq in Ed; subst name|split; [cbn; lia | intros rq []]].
  destruct (nonempty (deepl_key self)) eqn:Ek; cbn [negb];
    [|split; [cbn; lia | intros rq []]].
  split; [cbn; lia|]. intros rq [<-|[]].
  cbn [is_free_request call_of_selected_service]. auto 10.
Qed.

(** X15: when [translate] has sent a request, what it hands back is decided
    by the provider's answer to that request: the provider's text, as it
    is; or a bracketed notice that holds the provider's error message, of
    the network kind for a connection error or a time-out, of the service
    kind for a value, key or index error, of the unknown kind for any other
    exception. *)
Theorem translate_hands_back_answer :
  forall (backend : request -> py string) (self : TranslatorService)
         (text : str) (rq : request),
    In rq (snd (translate backend self text)) ->
    (forall s, backend rq = Return s ->
               fst (translate backend self text) = Return s)
    /\ (forall m,
           backend rq = Raise (ConnectionError m)
           \/ backend rq = Raise (TimeoutError m) ->
           fst (translate backend self text)
           = Return ("[翻译网络错误: " ++ m ++ "]")%string)
    /\ (forall m,
           backend rq = Raise (ValueError m)
           \/ backend rq = Raise (KeyError m)
           \/ backend rq = Raise (IndexError m) ->
           fst (translate backend self text)
           = Return ("[翻译服务返回错误: " ++ m ++ "]")%string)
    /\ (forall m,
           backend rq = Raise (RuntimeError m)
           \/ backend rq = Raise (OtherException m) ->
           fst (translate backend self text)
           = Return ("[翻译时发生未知错误: " ++ m ++ "]")%string).
Proof.
  intros backend self text rq. unfold translate.
  destruct (service_selected self); cbn [negb]; [|intros []].
  destruct (negb (truthy text) || isspace text); [intros []|].
  unfold translate_try.
  repeat match goal with
         | |- context [if ?b then _ else _] => destruct b
         end;
    cbn [fst snd]; intros Hin; cbn in Hin;
    first [ contradiction
          | destruct Hin as [<-|Hin]; [|contradiction];
            (split; [|split; [|split]]);
            [ intros s -> | intros m [-> | ->] | intros m [-> | [-> | ->]]
            | intros m [-> | ->] ]; reflexivity ].
Qed.

Lemma translate_hands_back_answer_witness :
  fst (translate offline deepl_with_key (lit "hello"))
  = Return "[翻译网络错误: offline]"%string.
Proof.
  exact (proj1 (proj2 (@translate_hands_back_answer offline deepl_with_key
                         (lit "hello")
                         (translate_deepl (lit "hello") "k")
                         (or_introl eq_refl)))
               "offline"%string (or_introl eq_refl)).
Defined.

(** ** The probe [test_api] *)

Lemma test_api_except_returns service r :
  exists ok message, test_api_except service r = Return (ok, message).
Proof.
  destruct r as [[ok message]|e]; [now exists ok, message|].
  destruct e; eexists _, _; reflexivity.
Qed.


(** X16: [test_api] never raises: it always hands back a verdict with a
    message; it sends at most one request, and that request carries the
    fixed test phrase. *)
Theorem test_api_never_raises :
  forall (backend : request -> py string) (self : TranslatorService)
         (service : string) (kwargs : test_kwargs),
    (exists ok message,
        fst (test_api backend self service kwargs) = Return (ok, message))
    /\ length (snd (test_api backend self service kwargs)) <= 1
    /\ forall rq, In rq (snd (test_api backend self service kwargs)) ->
                  request_text rq = test_text.
Proof.
  intros backend self service kwargs. unfold test_api.
  destruct (test_api_try backend self service kwargs) as [r sent] eqn:E.
  cbn [fst snd]. split; [apply test_api_except_returns|].
  unfold test_api_try, test_api_call in E.
  repeat match type of E with
         | context [if ?b then _ else _] => destruct b
         end;
    injection E as _ <-; (split; [cbn; lia|]); intros rq Hin; cbn in Hin;
    first [ contradiction
          | destruct Hin as [<-|Hin]; [reflexivity | contradiction] ].
Qed.


Lemma test_api_try_google backend self kwargs :
  test_api_try backend self "Google" kwargs
  = if nonempty (kwargs_get (kw_google_key kwargs) (google_key self))
    then test_api_call backend "Google"
           (translate_google_paid test_text
              (kwargs_get (kw_google_key kwargs) (google_key self)))
    else test_api_call backend "Google" (translate_google_free test_text).
Proof. reflexivity. Qed.

(** X18: when the Google key that a probe goes by is empty (the key
    field of the settings window is empty, whatever key is stored; or no
    key is passed and none is stored), [test_api] probes the free endpoint,
    and reports success when that endpoint answers with a translation; but
    when the probe was the Test button of the settings window and those
    entries are saved with Google chosen, [translate] makes no call and
    hands back the notice that the key is missing, for every text that is
    not blank. *)
Theorem google_probe_uses_free_endpoint :
  forall (backend : request -> py string) (self : TranslatorService)
         (kwargs : test_kwargs),
    kwargs_get (kw_google_key kwargs) (google_key self) = ""%string ->
    snd (test_api backend self "Google" kwargs)
    = [translate_google_free test_text]
    /\ (forall answer,
           backend (translate_google_free test_text) = Return answer ->
           nonempty answer = true ->
           answer <> "Hello, world!"%string ->
           fst (test_api backend self "Google" kwargs)
           = Return (true, "Google API 测试成功"%string))
    /\ (forall (entries : settings) (text : str),
           kwargs = google_test_kwargs entries ->
           service_var entries = "Google"%string ->
           negb (truthy text) || isspace text = false ->
           translate backend (save_settings entries) text
           = (Return "[Google API Key 未配置]"%string, [])).
Proof.
  intros backend self kwargs Hk.
  assert (E : test_api backend self "Google" kwargs
              = (test_api_except "Google"
                   (fst (test_api_call backend "Google"
                           (translate_google_free test_text))),
                 [translate_google_free test_text])).
  { unfold test_api. rewrite test_api_try_google. rewrite Hk. reflexivity. }
  rewrite E. cbn [fst snd]. split; [reflexivity|split].
  - intros answer Ha Hn Hne. unfold test_api_call. cbn [fst].
    rewrite Ha. cbn [test_api_except]. unfold test_api_check. rewrite Hn.
    apply String.eqb_neq in Hne. now rewrite Hne.
  - intros entries text -> Hs Ht.
    cbn [google_test_kwargs kw_google_key kwargs_get] in Hk.
    unfold translate, service_selected, translate_try, is_service.
    cbn [save_settings current_service google_key].
    rewrite Hs, Ht, Hk. reflexivity.
Qed.

Lemma google_probe_uses_free_endpoint_witness :
  snd (test_api answering google_with_key "Google"
                (google_test_kwargs google_chosen_no_key))
  = [translate_google_free test_text]
  /\ fst (test_api answering google_with_key "Google"
                   (google_test_kwargs google_chosen_no_key))
     = Return (true, "Google API 测试成功"%string)
  /\ translate answering (save_settings google_chosen_no_key) (lit "hello")
     = (Return "[Google API Key 未配置]"%string, []).
Proof.
  destruct (@google_probe_uses_free_endpoint
              answering google_with_key
              (google_test_kwargs google_chosen_no_key) eq_refl)
    as [H0 [H1 H2]].
  split; [exact H0|]. split.
  - apply (H1 "你好"%string); [reflexivity | reflexivity | discriminate].
  - apply (H2 google_chosen_no_key (lit "hello"));  reflexivity.
Defined.

(** ** Translating every result *)

Lemma translate_returns backend self text :
  exists s, fst (translate backend self text) = Return s.
Proof.
  unfold translate.
  destruct (service_selected self); simpl; [|eauto].
  destruct (negb (truthy text) || isspace text); simpl; [eauto|].
  destruct (translate_try backend self text) as [r sent]. simpl.
  destruct r as [s|e]; simpl; [eauto|]. destruct e; simpl; eauto.
Qed.

Lemma translate_all_loop_map backend self results acc sent :
  translate_all_loop backend self results acc sent
  = (Return (acc ++ map (fun r => (r, translated backend self (snd r)))
                        results),
     sent ++ flat_map (fun r => snd (translate backend self (snd r))) results).
Proof.
  revert acc sent.
  induction results as [|[[f t] x] rest IH]; intros acc sent.
  - cbn. now rewrite !app_nil_r.
  - cbn [translate_all_loop map flat_map snd].
    unfold translated at 1. cbn [snd].
    destruct (translate_returns backend self x) as [s Hs].
    destruct (translate backend self x) as [r req]. cbn [fst snd] in *.
    rewrite Hs. rewrite IH. now rewrite <- !app_assoc.
Qed.

(** X19: translating every stored result never raises and keeps the
    results one to one and in order: the list handed back is the stored
    result list, each record followed by what [translate] gives for its
    text; the requests sent are those of the single translations, in
    order, so there are never more requests than results. *)
Theorem translate_all_results_is_map :
  forall (backend : request -> py string) (self : TranslatorService)
         (st : state),
    translate_all_results backend self st
    = (Return (map (fun r => (r, translated backend self (snd r)))
                   (search_results st)),
       flat_map (fun r => snd (translate backend self (snd r)))
                (search_results st))
    /\ length (snd (translate_all_results backend self st))
       <= length (search_results st).
Proof.
  intros backend self st. unfold translate_all_results.
  rewrite translate_all_loop_map. cbn [app fst snd]. split; [reflexivity|].
  induction (search_results st) as [|r rest IH]; [cbn; lia|].
  cbn [flat_map length]. rewrite length_app.
  assert (H : length (snd (translate backend self (snd r))) <= 1).
  { unfold translate.
    destruct (service_selected self); cbn [negb]; [|cbn; lia].
    destruct (negb (truthy (snd r)) || isspace (snd r)); [cbn; lia|].
    unfold translate_try.
    repeat match goal with
           | |- context [if ?b then _ else _] => destruct b
           end; cbn; lia. }
  lia.
Qed.

(* ================================================================== *)
(** * The answers of the providers *)

Lemma dict_get_mem V key (dd : dict V) v :
  dict_get key dd = Some v -> dict_mem key dd = true.
Proof.
  induction dd as [|[k w] rest IH]; cbn; [discriminate|].
  destruct (String.eqb k key); [reflexivity|exact IH].
Qed.

Lemma dict_mem_get V key (dd : dict V) :
  dict_mem key dd = true -> exists v, dict_get key dd = Some v.
Proof.
  induction dd as [|[k w] rest IH]; cbn; [discriminate|].
  destruct (String.eqb k key); [intros _; eexists; reflexivity|exact IH].
Qed.

Ltac answer_cbn :=
  cbn [bind py_and py_path py_first py_getitem py_in nonempty_list].

Ltac answer_cbn_in H :=
  cbn [bind py_and py_path py_first py_getitem py_in nonempty_list] in H.

(** Splits on whatever decides the next branch of an answer check. *)
Ltac answer_split H :=
  repeat (answer_cbn_in H; try discriminate H;
          match type of H with
          | context [nonempty_list ?x] => is_var x; destruct x as [| | | |[|? ?]|]
          | context [py_first _ ?x] => is_var x; destruct x
          | context [py_in _ _ ?x] => is_var x; destruct x
          | context [py_getitem _ ?x _] => is_var x; destruct x
          | context [match ?x with _ => _ end] =>
              let E := fresh "E" in destruct x eqn:E
          | context [if ?x then _ else _] =>
              let E := fresh "E" in destruct x eqn:E
          end);
  answer_cbn_in H; try discriminate H.

Section AnswerProps.
Variable py_repr : json -> string.
Variable type_error_text : json -> string.

Lemma azure_answer_inv data v :
  azure_answer py_repr type_error_text data = Return v ->
  exists members rest tmembers trest,
    data = JArray (JObject members :: rest) /\
    dict_get "translations" members = Some (JArray (JObject tmembers :: trest)) /\
    dict_get "text" tmembers = Some v.
Proof.
  unfold azure_answer. intros H.
  answer_split H.
  injection H as <-.
  do 4 eexists. split; [reflexivity|]. split; eassumption.
Qed.

Lemma azure_answer_intro members rest tmembers trest v :
  dict_get "translations" members = Some (JArray (JObject tmembers :: trest)) ->
  dict_get "text" tmembers = Some v ->
  azure_answer py_repr type_error_text (JArray (JObject members :: rest))
  = Return v.
Proof.
  intros Ht Hv. unfold azure_answer. answer_cbn.
  rewrite (dict_get_mem _ _ Ht). answer_cbn. rewrite Ht. answer_cbn.
  rewrite (dict_get_mem _ _ Hv). answer_cbn. rewrite Hv. reflexivity.
Qed.

Lemma azure_answer_raises data e :
  azure_answer py_repr type_error_text data = Raise e ->
  e = ValueError ("Azure API 返回了非预期的格式: " ++ py_repr data)%string
  \/ exists x, e = TypeError type_error_text x.
Proof.
  unfold azure_answer. intros H.
  answer_split H;
    try (injection H as <-; first [left; reflexivity
                                  | right; eexists; reflexivity]).
  all: exfalso.
  all: match goal with
       | Hm : dict_mem ?k ?m = true, Hg : dict_get ?k ?m = None |- _ =>
           destruct (dict_mem_get _ _ Hm) as [w Hw]; congruence
       end.
Qed.

Lemma google_paid_answer_inv data v :
  google_paid_answer py_repr type_error_text data = Return v ->
  exists members dmembers tmembers trest,
    data = JObject members /\
    dict_get "data" members = Some (JObject dmembers) /\
    dict_get "translations" dmembers
    = Some (JArray (JObject tmembers :: trest)) /\
    dict_get "translatedText" tmembers = Some v.
Proof.
  unfold google_paid_answer. intros H.
  answer_split H.
  injection H as <-.
  do 4 eexists. split; [reflexivity|]. split; [eassumption|].
  split; eassumption.
Qed.

Lemma google_paid_answer_intro members dmembers tmembers trest v :
  dict_get "data" members = Some (JObject dmembers) ->
  dict_get "translations" dmembers
  = Some (JArray (JObject tmembers :: trest)) ->
  dict_get "translatedText" tmembers = Some v ->
  google_paid_answer py_repr type_error_text (JObject members) = Return v.
Proof.
  intros Hd Ht Hv. unfold google_paid_answer. answer_cbn.
  rewrite (dict_get_mem _ _ Hd). answer_cbn. rewrite Hd. answer_cbn.
  rewrite (dict_get_mem _ _ Ht). answer_cbn. rewrite Ht. answer_cbn.
  rewrite (dict_get_mem _ _ Hv). answer_cbn. rewrite Hv. reflexivity.
Qed.

Lemma google_paid_answer_raises data e :
  google_paid_answer py_repr type_error_text data = Raise e ->
  e = ValueError ("Google Paid API 返回了非预期的格式: " ++ py_repr data)%string
  \/ exists x, e = TypeError type_error_text x.
Proof.
  unfold google_paid_answer. intros H.
  answer_split H;
    try (injection H as <-; first [left; reflexivity
                                  | right; eexists; reflexivity]).
  all: exfalso.
  all: match goal with
       | Hm : dict_mem ?k ?m = true, Hg : dict_get ?k ?m = None |- _ =>
           destruct (dict_mem_get _ _ Hm) as [w Hw]; congruence
       end.
Qed.

Lemma deepl_answer_inv data v :
  deepl_answer py_repr type_error_text data = Return v ->
  exists members tmembers trest,
    data = JObject members /\
    dict_get "translations" members
    = Some (JArray (JObject tmembers :: trest)) /\
    dict_get "text" tmembers = Some v.
Proof.
  unfold deepl_answer. intros H.
  answer_split H.
  injection H as <-.
  do 3 eexists. split; [reflexivity|]. split; eassumption.
Qed.

Lemma deepl_answer_intro members tmembers trest v :
  dict_get "translations" members
  = Some (JArray (JObject tmembers :: trest)) ->
  dict_get "text" tmembers = Some v ->
  deepl_answer py_repr type_error_text (JObject members) = Return v.
Proof.
  intros Ht Hv. unfold deepl_answer. answer_cbn.
  rewrite (dict_get_mem _ _ Ht). answer_cbn. rewrite Ht. answer_cbn.
  rewrite (dict_get_mem _ _ Hv). answer_cbn. rewrite Hv. reflexivity.
Qed.

Lemma deepl_answer_raises data e :
  deepl_answer py_repr type_error_text data = Raise e ->
  e = ValueError ("DeepL API 返回了非预期的格式: " ++ py_repr data)%string
  \/ exists x, e = TypeError type_error_text x.
Proof.
  unfold deepl_answer. intros H.
  answer_split H;
    try (injection H as <-; first [left; reflexivity
                                  | right; eexists; reflexivity]).
  all: exfalso.
  all: match goal with
       | Hm : dict_mem ?k ?m = true, Hg : dict_get ?k ?m = None |- _ =>
           destruct (dict_mem_get _ _ Hm) as [w Hw]; congruence
       end.
Qed.
(** X20.  [_translate_azure] hands back a translation exactly when the
    answer is a list whose first item is an object, whose ["translations"]
    is a list whose first item is an object with a ["text"]; what it hands
    back is that ["text"], of whatever type. *)
Theorem azure_answer_accepted_shape data v :
  azure_answer py_repr type_error_text data = Return v <->
  exists members rest tmembers trest,
    data = JArray (JObject members :: rest) /\
    dict_get "translations" members
    = Some (JArray (JObject tmembers :: trest)) /\
    dict_get "text" tmembers = Some v.
Proof.
  split; [apply azure_answer_inv|].
  intros (members & rest & tmembers & trest & -> & Ht & Hv).
  exact (@azure_answer_intro members rest tmembers trest v Ht Hv).
Qed.

(** X21.  [_translate_google_paid] hands back a translation exactly when
    the answer is an object whose ["data"] is an object, whose
    ["translations"] is a list whose first item is an object with a
    ["translatedText"]; what it hands back is that ["translatedText"]. *)
Theorem google_paid_answer_accepted_shape data v :
  google_paid_answer py_repr type_error_text data = Return v <->
  exists members dmembers tmembers trest,
    data = JObject members /\
    dict_get "data" members = Some (JObject dmembers) /\
    dict_get "translations" dmembers
    = Some (JArray (JObject tmembers :: trest)) /\
    dict_get "translatedText" tmembers = Some v.
Proof.
  split; [apply google_paid_answer_inv|].
  intros (members & dmembers & tmembers & trest & -> & Hd & Ht & Hv).
  exact (@google_paid_answer_intro members dmembers tmembers trest v Hd Ht Hv).
Qed.

(** X22.  [_translate_deepl] hands back a translation exactly when the
    answer is an object whose ["translations"] is a list whose first item
    is an object with a ["text"]; what it hands back is that ["text"]. *)
Theorem deepl_answer_accepted_shape data v :
  deepl_answer py_repr type_error_text data = Return v <->
  exists members tmembers trest,
    data = JObject members /\
    dict_get "translations" members
    = Some (JArray (JObject tmembers :: trest)) /\
    dict_get "text" tmembers = Some v.
Proof.
  split; [apply deepl_answer_inv|].
  intros (members & tmembers & trest & -> & Ht & Hv).
  exact (@deepl_answer_intro members tmembers trest v Ht Hv).
Qed.

Lemma rejected_kinds_azure data e :
  azure_answer py_repr type_error_text data = Raise e ->
  (exists m, e = ValueError m) \/
  (exists x, e = TypeError type_error_text x).
Proof.
  intros H. destruct (azure_answer_raises _ H) as [->|Hx];
    [left; eexists; reflexivity|right; exact Hx].
Qed.

Lemma rejected_kinds_google_paid data e :
  google_paid_answer py_repr type_error_text data = Raise e ->
  (exists m, e = ValueError m) \/
  (exists x, e = TypeError type_error_text x).
Proof.
  intros H. destruct (google_paid_answer_raises _ H) as [->|Hx];
    [left; eexists; reflexivity|right; exact Hx].
Qed.

Lemma rejected_kinds_deepl data e :
  deepl_answer py_repr type_error_text data = Raise e ->
  (exists m, e = ValueError m) \/
  (exists x, e = TypeError type_error_text x).
Proof.
  intros H. destruct (deepl_answer_raises _ H) as [->|Hx];
    [left; eexists; reflexivity|right; exact Hx].
Qed.

(** X23.  An answer that one of the three checks turns down ends in a
    [ValueError] or in a [TypeError], never in a [KeyError] or an
    [IndexError]: every subscript is guarded by the test before it, but a
    text or a list that merely contains the key passes the [in] test and
    then cannot be indexed by it. *)
Theorem rejected_answer_error_kinds data e :
  azure_answer py_repr type_error_text data = Raise e \/
  google_paid_answer py_repr type_error_text data = Raise e \/
  deepl_answer py_repr type_error_text data = Raise e ->
  (exists m, e = ValueError m) \/
  (exists x, e = TypeError type_error_text x).
Proof.
  intros [H|[H|H]].
  - exact (@rejected_kinds_azure data e H).
  - exact (@rejected_kinds_google_paid data e H).
  - exact (@rejected_kinds_deepl data e H).
Qed.

Lemma make_request_cases t :
  (t = timed_out /\ _make_request t = Raise (TimeoutError "请求超时")) \/
  (exists e, network_failure t e /\
             _make_request t
             = Raise (ConnectionError ("网络请求失败: " ++ e)%string)) \/
  (exists status_code http_error content,
      t = responded status_code http_error content /\
      ~ 400 <= status_code < 600 /\
      _make_request t = Return content).
Proof.
  destruct t as [|error|status_code http_error content];
    unfold _make_request.
  - left. split; reflexivity.
  - right; left. exists error. split; [left; reflexivity|reflexivity].
  - destruct ((400 <=? status_code) && (status_code <? 600)) eqn:E.
    + right; left. exists http_error. split; [|reflexivity].
      right. exists status_code, content. split; [reflexivity|].
      apply andb_true_iff in E. destruct E as [E1 E2].
      apply Nat.leb_le in E1. apply Nat.ltb_lt in E2. lia.
    + right; right. exists status_code, http_error, content.
      split; [reflexivity|]. split; [|reflexivity].
      intros [H1 H2]. apply Nat.leb_le in H1. apply Nat.ltb_lt in H2.
      rewrite H1, H2 in E. discriminate.
Qed.

Lemma network_failure_not_timed_out e : ~ network_failure timed_out e.
Proof.
  intros [H|(s & c & H & _)]; discriminate.
Qed.

Lemma network_failure_unique t e e' :
  network_failure t e -> network_failure t e' -> e = e'.
Proof.
  intros [->|(s & c & -> & _)] [H|(s' & c' & H & _)];
    try discriminate; injection H; congruence.
Qed.

(** The outcome of a provider call whose answer check raises nothing but a
    [ValueError] or a [TypeError]. *)
Lemma provider_call_network (check : json -> py json) t :
  (forall data e, check data = Raise e ->
                  (exists m, e = ValueError m) \/
                  (exists x, e = TypeError type_error_text x)) ->
  let call := bind (_make_request t)
                   (fun response => bind (response_json response) check) in
  (forall m, call = Raise (TimeoutError m) <->
             t = timed_out /\ m = "请求超时"%string) /\
  (forall m, call = Raise (ConnectionError m) <->
             exists e, m = ("网络请求失败: " ++ e)%string /\
                       network_failure t e).
Proof.
  intros Hcheck call. subst call.
  assert (Hbody : forall content e,
             bind (response_json content) check = Raise e ->
             (exists m, e = ValueError m) \/
             (exists x, e = TypeError type_error_text x)).
  { intros [data|error] e; cbn.
    - apply Hcheck.
    - intros H; injection H as <-. left. eexists; reflexivity. }
  destruct (make_request_cases t)
    as [[-> Hr]|[(e & Hf & Hr)|(s & h & c & -> & Hs & Hr)]];
    rewrite Hr; cbn [bind].
  - split; intros m; split.
    + intros H; injection H as <-. split; reflexivity.
    + intros [_ ->]. reflexivity.
    + discriminate.
    + intros (e & _ & Hf). destruct (network_failure_not_timed_out Hf).
  - split; intros m; split.
    + discriminate.
    + intros [-> _]. destruct (network_failure_not_timed_out Hf).
    + intros H; injection H as <-. exists e. split; [reflexivity|exact Hf].
    + intros (e' & -> & Hf'). rewrite (network_failure_unique Hf Hf').
      reflexivity.
  - split; intros m; split.
    + intros H. destruct (Hbody _ _ H) as [[m' H']|[x H']]; discriminate.
    + intros [H _]; discriminate.
    + intros H. destruct (Hbody _ _ H) as [[m' H']|[x H']]; discriminate.
    + intros (e & _ & [H|(s' & c' & H & Hs')]); [discriminate|].
      injection H as -> -> ->. contradiction.
Qed.

(** X24.  Whichever provider is called, a [TimeoutError] leaves the call
    exactly when the request timed out, and a [ConnectionError] exactly when
    the request failed otherwise or came back with a status from 400 to
    599, with the text of that failure; an answer with such a status is
    never read, and no answer, however malformed, is reported as a network
    error. *)
Theorem network_errors_come_from_the_request call t :
  In call [_translate_azure py_repr type_error_text;
           _translate_google_paid py_repr type_error_text;
           _translate_deepl py_repr type_error_text] ->
  (forall m, call t = Raise (TimeoutError m) <->
             t = timed_out /\ m = "请求超时"%string) /\
  (forall m, call t = Raise (ConnectionError m) <->
             exists e, m = ("网络请求失败: " ++ e)%string /\
                       network_failure t e).
Proof.
  intros [<-|[<-|[<-|[]]]].
  - apply (@provider_call_network (azure_answer py_repr type_error_text)).
    intros data e H. apply (@rejected_kinds_azure data e H).
  - apply (@provider_call_network
             (google_paid_answer py_repr type_error_text)).
    intros data e H. apply (@rejected_kinds_google_paid data e H).
  - apply (@provider_call_network (deepl_answer py_repr type_error_text)).
    intros data e H. apply (@rejected_kinds_deepl data e H).
Qed.
End AnswerProps.

Lemma rejected_answer_error_kinds_witness :
  let e := OtherException "str" in
  azure_answer (fun _ => "data"%string) (fun _ => "str"%string)
               text_holding_the_key = Raise e /\
  ((exists m, e = ValueError m) \/
   (exists x, e = TypeError (fun _ => "str"%string) x)).
Proof.
  split; [reflexivity|].
  apply (@rejected_answer_error_kinds
           (fun _ => "data"%string) (fun _ => "str"%string)
           text_holding_the_key).
  left. reflexivity.
Defined.

Lemma network_errors_come_from_the_request_witness :
  let call := _translate_deepl (fun _ => "data"%string)
                               (fun _ => "str"%string) in
  let t := responded 403 "403 Client Error" (parsed JNull) in
  call t = Raise (ConnectionError "网络请求失败: 403 Client Error") /\
  (forall m, call t = Raise (TimeoutError m) <->
             t = timed_out /\ m = "请求超时"%string).
Proof.
  split; [reflexivity|].
  apply (@network_errors_come_from_the_request
           (fun _ => "data"%string) (fun _ => "str"%string)
           (_translate_deepl (fun _ => "data"%string)
                             (fun _ => "str"%string))
           (responded 403 "403 Client Error" (parsed JNull))).
  right; right; left. reflexivity.
Defined.

(* ================================================================== *)
(** * The file list *)

From Stdlib Require Import Permutation Sorted.
From Stdlib Require OrdersEx.

Lemma compare_as_OT a b :
  String.compare a b = OrdersEx.String_as_OT.compare a b.
Proof.
  revert b; induction a as [|c a IH]; intros [|d b]; reflexivity.
Qed.

Lemma leb_lt_or_eq a b :
  String.leb a b = true <-> a = b \/ OrdersEx.String_as_OT.lt a b.
Proof.
  unfold String.leb, OrdersEx.String_as_OT.lt. rewrite compare_as_OT.
  destruct (OrdersEx.String_as_OT.compare_spec a b) as [H|H|H].
  - split; [intros _; left; exact H|reflexivity].
  - split; [intros _; right; reflexivity|reflexivity].
  - split; [discriminate|]. intros [->|H']; [|discriminate].
    exfalso.
    exact (@RelationClasses.StrictOrder_Irreflexive
             _ _ OrdersEx.String_as_OT.lt_strorder b H).
Qed.

Lemma name_le_refl a : name_le a a.
Proof. apply leb_lt_or_eq. left; reflexivity. Qed.

Lemma name_le_trans a b c : name_le a b -> name_le b c -> name_le a c.
Proof.
  unfold name_le. rewrite !leb_lt_or_eq.
  intros [->|H1] [->|H2]; auto.
  right.
  exact (@RelationClasses.StrictOrder_Transitive
           _ _ OrdersEx.String_as_OT.lt_strorder a b c H1 H2).
Qed.

Lemma name_le_antisym a b : name_le a b -> name_le b a -> a = b.
Proof. apply String.leb_antisym. Qed.

Lemma name_le_total a b : String.leb a b = false -> name_le b a.
Proof.
  intros H. destruct (String.leb_total a b) as [H'|H']; [congruence|exact H'].
Qed.

Lemma insert_sorted_perm x l : Permutation (insert_sorted x l) (x :: l).
Proof.
  induction l as [|y l IH]; cbn; [reflexivity|].
  destruct (String.leb x y); [reflexivity|].
  rewrite IH. apply perm_swap.
Qed.

Lemma sorted_perm l : Permutation (sorted l) l.
Proof.
  induction l as [|x l IH]; cbn; [reflexivity|].
  rewrite insert_sorted_perm. now constructor.
Qed.

Lemma insert_sorted_sorted x l :
  StronglySorted name_le l -> StronglySorted name_le (insert_sorted x l).
Proof.
  induction 1 as [|y l Hs IH Hall]; cbn.
  - constructor; constructor.
  - destruct (String.leb x y) eqn:E.
    + constructor; [constructor; assumption|].
      constructor; [exact E|].
      apply Forall_forall. intros z Hz.
      apply name_le_trans with y; [exact E|].
      exact (proj1 (Forall_forall _ _) Hall z Hz).
    + constructor; [exact IH|].
      apply Forall_forall. intros z Hz.
      apply (Permutation_in _ (insert_sorted_perm x l)) in Hz.
      destruct Hz as [<-|Hz]; [exact (name_le_total _ _ E)|].
      exact (proj1 (Forall_forall _ _) Hall z Hz).
Qed.

Lemma sorted_sorted l : StronglySorted name_le (sorted l).
Proof.
  induction l as [|x l IH]; cbn; [constructor|].
  apply insert_sorted_sorted, IH.
Qed.

Lemma sorted_unique l1 l2 :
  StronglySorted name_le l1 -> StronglySorted name_le l2 ->
  Permutation l1 l2 -> l1 = l2.
Proof.
  intros H1; revert l2.
  induction H1 as [|x l1 Hs1 IH Hall1]; intros l2 H2 Hp.
  - apply Permutation_nil in Hp. now subst.
  - destruct H2 as [|y l2 Hs2 Hall2].
    + apply Permutation_sym, Permutation_nil in Hp. discriminate.
    + assert (x = y) as <-.
      { assert (Hx : In x (y :: l2))
          by (apply (Permutation_in _ Hp); left; reflexivity).
        assert (Hy : In y (x :: l1))
          by (apply (Permutation_in _ (Permutation_sym Hp)); left;
              reflexivity).
        destruct Hx as [->|Hx]; [reflexivity|].
        destruct Hy as [->|Hy]; [reflexivity|].
        apply name_le_antisym.
        - exact (proj1 (Forall_forall _ _) Hall1 y Hy).
        - exact (proj1 (Forall_forall _ _) Hall2 x Hx). }
      f_equal. apply IH; [exact Hs2|].
      exact (Permutation_cons_inv Hp).
Qed.

Lemma sorted_of_permutation l1 l2 :
  Permutation l1 l2 -> sorted l1 = sorted l2.
Proof.
  intros Hp. apply sorted_unique; try apply sorted_sorted.
  rewrite !sorted_perm. exact Hp.
Qed.

Lemma sorted_ascending l : StronglySorted name_le l -> ascending l = true.
Proof.
  induction 1 as [|x l Hs IH Hall]; [reflexivity|].
  destruct l as [|y l]; [reflexivity|].
  change (ascending (x :: y :: l))
    with (String.leb x y && ascending (y :: l)).
  rewrite IH, andb_true_r.
  exact (proj1 (Forall_forall _ _) Hall y (or_introl eq_refl)).
Qed.

Lemma filter_sorted (f : string -> bool) l :
  StronglySorted name_le l -> StronglySorted name_le (filter f l).
Proof.
  induction 1 as [|x l Hs IH Hall]; cbn; [constructor|].
  destruct (f x); [|exact IH].
  constructor; [exact IH|].
  apply Forall_forall. intros z Hz. apply filter_In in Hz.
  exact (proj1 (Forall_forall _ _) Hall z (proj1 Hz)).
Qed.

Lemma name_in_iff item items : name_in item items = true <-> In item items.
Proof.
  unfold name_in. rewrite existsb_exists. split.
  - intros (x & Hx & E). apply String.eqb_eq in E. now subst.
  - intros H. exists item. split; [exact H|apply String.eqb_refl].
Qed.

Lemma filter_filter_and A (f g : A -> bool) l :
  filter f (filter g l) = filter (fun x => g x && f x) l.
Proof.
  induction l as [|x l IH]; cbn; [reflexivity|].
  destruct (g x); cbn; [destruct (f x); now rewrite IH|exact IH].
Qed.

Lemma filter_none A (f : A -> bool) l :
  (forall x, In x l -> f x = false) -> filter f l = [].
Proof.
  induction l as [|x l IH]; cbn; intros H; [reflexivity|].
  rewrite (H x (or_introl eq_refl)). apply IH. intros y Hy. apply H. now right.
Qed.

Lemma filter_all A (f : A -> bool) l :
  (forall x, In x l -> f x = true) -> filter f l = l.
Proof.
  induction l as [|x l IH]; cbn; intros H; [reflexivity|].
  rewrite (H x (or_introl eq_refl)). f_equal. apply IH.
  intros y Hy. apply H. now right.
Qed.

Lemma filter_map_swap A B (f : B -> bool) (g : A -> B) l :
  filter f (map g l) = map g (filter (fun x => f (g x)) l).
Proof.
  induction l as [|x l IH]; cbn; [reflexivity|].
  destruct (f (g x)); cbn; now rewrite IH.
Qed.

Lemma filter_permutation A (f : A -> bool) l l' :
  Permutation l l' -> Permutation (filter f l) (filter f l').
Proof.
  induction 1 as [|x l l' Hp IH|x y l|l l' l'' Hp1 IH1 Hp2 IH2]; cbn.
  - constructor.
  - destruct (f x); [now constructor|exact IH].
  - destruct (f x), (f y); try reflexivity. apply perm_swap.
  - now transitivity (filter f l').
Qed.

Lemma bool_eq_of_iff (a b : bool) : (a = true <-> b = true) -> a = b.
Proof.
  destruct a, b; intros [H1 H2]; try reflexivity.
  - symmetry. now apply H1.
  - now apply H2.
Qed.

Lemma tree_eta tree :
  {| children := children tree; selection := selection tree |} = tree.
Proof. destruct tree; reflexivity. Qed.

Lemma delete_children_spec items tree :
  delete_children items tree
  = {| children := filter (fun r => negb (name_in (fst r) items))
                          (children tree);
       selection := filter (fun i => negb (name_in i items))
                           (selection tree) |}.
Proof.
  revert tree. induction items as [|item rest IH]; intros tree; cbn.
  - rewrite !filter_all by reflexivity. symmetry. apply tree_eta.
  - rewrite IH. unfold tree_delete. cbn [children selection].
    rewrite !filter_filter_and. f_equal; apply filter_ext; intros x;
      now rewrite negb_orb.
Qed.

Lemma delete_all_children tree :
  incl (selection tree) (map fst (children tree)) ->
  delete_children (map fst (children tree)) tree
  = {| children := []; selection := [] |}.
Proof.
  intros Hsel. rewrite delete_children_spec. f_equal.
  - apply filter_none. intros r Hr. apply negb_false_iff, name_in_iff.
    now apply in_map.
  - apply filter_none. intros i Hi. apply negb_false_iff, name_in_iff.
    now apply Hsel.
Qed.

Lemma row_of_name data name : fst (row_of data name) = name.
Proof. reflexivity. Qed.

Lemma rows_names data names : map fst (map (row_of data) names) = names.
Proof.
  rewrite map_map. cbn. apply map_id.
Qed.

Lemma tree_exists_iff item tree :
  tree_exists item tree = true <-> In item (map fst (children tree)).
Proof. apply name_in_iff. Qed.

Lemma fill_tree_spec names data tree :
  NoDup names ->
  (forall n, In n names -> dict_mem n data = true) ->
  (forall n, In n names -> ~ In n (map fst (children tree))) ->
  fill_tree names data tree
  = Return {| children := children tree ++ map (row_of data) names;
              selection := selection tree |}.
Proof.
  revert tree. induction names as [|n rest IH]; intros tree Hnd Hin Hnew.
  - cbn. rewrite app_nil_r, tree_eta. reflexivity.
  - inversion Hnd as [|? ? Hn Hrest]; subst.
    cbn [fill_tree].
    destruct (dict_mem_get _ _ (Hin n (or_introl eq_refl))) as [subs Hsubs].
    rewrite Hsubs. unfold tree_insert.
    destruct (tree_exists n tree) eqn:E.
    { apply tree_exists_iff in E. destruct (Hnew n (or_introl eq_refl) E). }
    cbn [bind]. rewrite IH.
    + cbn [children selection map]. unfold row_of at 2. rewrite Hsubs.
      rewrite <- app_assoc. reflexivity.
    + exact Hrest.
    + intros m Hm. apply Hin. now right.
    + intros m Hm. cbn [children]. rewrite map_app, in_app_iff.
      intros [H|[H|[]]].
      * exact (Hnew m (or_intror Hm) H).
      * cbn in H. subst m. exact (Hn Hm).
Qed.

Lemma sorted_keys_NoDup (data : dict (list entry)) :
  NoDup (keys data) -> NoDup (sorted (keys data)).
Proof.
  intros H. exact (Permutation_NoDup (Permutation_sym (sorted_perm _)) H).
Qed.

Lemma sorted_keys_In (data : dict (list entry)) name :
  In name (sorted (keys data)) <-> dict_mem name data = true.
Proof.
  rewrite dict_mem_keys. split; intros H.
  - exact (Permutation_in _ (sorted_perm _) H).
  - exact (Permutation_in _ (Permutation_sym (sorted_perm _)) H).
Qed.

(** What [update_file_list] leaves on screen. *)
Lemma update_file_list_spec data tree :
  NoDup (keys data) ->
  incl (selection tree) (map fst (children tree)) ->
  update_file_list data tree
  = Return {| children := map (row_of data) (sorted (keys data));
              selection := filter (fun i => dict_mem i data)
                                  (selection tree) |}.
Proof.
  intros Hnd Hsel. unfold update_file_list.
  rewrite (@delete_all_children tree Hsel).
  rewrite fill_tree_spec.
  - cbn [bind children selection app].
    assert (E : filter (fun item =>
                          tree_exists item
                            {| children := map (row_of data)
                                               (sorted (keys data));
                               selection := [] |}) (selection tree)
                = filter (fun i => dict_mem i data) (selection tree)).
    { apply filter_ext. intros i. apply bool_eq_of_iff.
      rewrite tree_exists_iff. cbn [children]. rewrite rows_names.
      apply sorted_keys_In. }
    rewrite E.
    destruct (filter (fun i => dict_mem i data) (selection tree));
      reflexivity.
  - now apply sorted_keys_NoDup.
  - intros n Hn. now apply sorted_keys_In.
  - intros n _ [].
Qed.

Lemma shows_after_update data tree :
  NoDup (keys data) ->
  incl (selection tree) (map fst (children tree)) ->
  exists tree', update_file_list data tree = Return tree' /\ shows tree' data.
Proof.
  intros Hnd Hsel. eexists. split; [exact (@update_file_list_spec data tree Hnd Hsel)|].
  split; [reflexivity|].
  cbn [children selection]. rewrite rows_names.
  intros i Hi. apply filter_In in Hi. now apply sorted_keys_In.
Qed.

Lemma update_of_shown data tree :
  NoDup (keys data) -> shows tree data ->
  update_file_list data tree = Return tree.
Proof.
  intros Hnd [Hc Hs]. rewrite (@update_file_list_spec data tree Hnd Hs).
  rewrite <- Hc. rewrite filter_all; [now rewrite tree_eta|].
  intros i Hi. apply sorted_keys_In. apply Hs in Hi.
  rewrite Hc, rows_names in Hi. exact Hi.
Qed.

Lemma keys_dict_del (data : dict (list entry)) key :
  NoDup (keys data) ->
  keys (dict_del key data)
  = filter (fun n => negb (String.eqb n key)) (keys data).
Proof.
  induction data as [|[k w] rest IH]; cbn; intros H; [reflexivity|].
  inversion H as [|? ? Hk Hrest]; subst.
  destruct (String.eqb k key) eqn:E; cbn.
  - apply String.eqb_eq in E. subst k. symmetry. apply filter_all.
    intros n Hn. apply negb_true_iff, String.eqb_neq. now intros ->.
  - f_equal. now apply IH.
Qed.

Lemma listing_del (data : dict (list entry)) key :
  NoDup (keys data) ->
  filter (fun r => negb (String.eqb (fst r) key))
         (map (row_of data) (sorted (keys data)))
  = map (row_of (dict_del key data)) (sorted (keys (dict_del key data))).
Proof.
  intros Hnd. rewrite filter_map_swap.
  assert (E : sorted (keys (dict_del key data))
              = filter (fun n => negb (String.eqb n key))
                       (sorted (keys data))).
  { apply sorted_unique.
    - apply sorted_sorted.
    - apply filter_sorted, sorted_sorted.
    - rewrite sorted_perm, (@keys_dict_del data key Hnd).
      apply filter_permutation, Permutation_sym, sorted_perm. }
  rewrite E. apply map_ext_in. intros n Hn. apply filter_In in Hn.
  destruct Hn as [_ Hn]. apply negb_true_iff, String.eqb_neq in Hn.
  unfold row_of. cbn [fst] in Hn.
  rewrite dict_get_del_other by exact Hn. reflexivity.
Qed.

Lemma delete_loop_tree_shows filenames :
  forall data tree n,
    NoDup (keys data) -> shows tree data ->
    shows (delete_loop_tree filenames data tree)
          (fst (delete_loop filenames data n)).
Proof.
  induction filenames as [|f rest IH]; intros data tree n Hnd Hsh;
    [exact Hsh|].
  cbn [delete_loop_tree delete_loop].
  destruct (dict_mem f data) eqn:Hm; [|now apply IH].
  apply IH; [now apply dict_del_NoDup|].
  destruct Hsh as [Hc Hs].
  assert (Hex : tree_exists f tree = true).
  { apply tree_exists_iff. rewrite Hc, rows_names.
    now apply sorted_keys_In. }
  rewrite Hex. split.
  - unfold tree_delete. cbn [children]. rewrite Hc.
    now apply listing_del.
  - unfold tree_delete. cbn [children selection].
    intros i Hi. apply filter_In in Hi. destruct Hi as [Hi Hne].
    apply Hs in Hi. apply in_map_iff in Hi.
    destruct Hi as (r & <- & Hr).
    apply in_map. apply filter_In. split; assumption.
Qed.

Lemma dict_get_In (data : dict (list entry)) key v :
  NoDup (keys data) -> (dict_get key data = Some v <-> In (key, v) data).
Proof.
  induction data as [|[k w] rest IH]; cbn; intros H.
  - split; [discriminate|tauto].
  - inversion H as [|? ? Hk Hrest]; subst.
    destruct (String.eqb k key) eqn:E.
    + apply String.eqb_eq in E. subst k. split.
      * intros Hv; injection Hv as <-. now left.
      * intros [Hv|Hv]; [now injection Hv as <-|].
        destruct Hk. change key with (fst (key, v)). now apply in_map.
    + apply String.eqb_neq in E. rewrite (IH Hrest). split.
      * now right.
      * intros [Hv|Hv]; [injection Hv as -> _; now destruct E|exact Hv].
Qed.

Lemma dict_get_permutation (data1 data2 : dict (list entry)) key :
  NoDup (keys data1) -> Permutation data1 data2 ->
  dict_get key data1 = dict_get key data2.
Proof.
  intros H1 Hp.
  assert (H2 : NoDup (keys data2))
    by exact (Permutation_NoDup (Permutation_map fst Hp) H1).
  destruct (dict_get key data1) as [v|] eqn:E1.
  - symmetry. apply (@dict_get_In data2 key v H2).
    apply (Permutation_in _ Hp). now apply (@dict_get_In data1 key v H1).
  - destruct (dict_get key data2) as [v|] eqn:E2; [|reflexivity].
    apply (@dict_get_In data2 key v H2) in E2.
    apply (Permutation_in _ (Permutation_sym Hp)) in E2.
    apply (@dict_get_In data1 key v H1) in E2. congruence.
Qed.

(** X25.  After [update_file_list] the file list has one row for each
    loaded file and no other: the rows ascend by file name, each shows the
    number of entries of its file, and the rows that were selected and are
    still loaded are selected again.  No step of it raises. *)
Theorem file_list_shows_loaded_files data tree :
  NoDup (keys data) ->
  incl (selection tree) (map fst (children tree)) ->
  exists tree',
    update_file_list data tree = Return tree' /\
    ascending (map fst (children tree')) = true /\
    NoDup (map fst (children tree')) /\
    (forall name count,
        In (name, count) (children tree') <->
        exists subtitles,
          dict_get name data = Some subtitles /\
          count = count_text (length subtitles)) /\
    selection tree'
    = filter (fun item => dict_mem item data) (selection tree).
Proof.
  intros Hnd Hsel. eexists.
  split; [exact (@update_file_list_spec data tree Hnd Hsel)|].
  cbn [children selection]. rewrite rows_names.
  split; [apply sorted_ascending, sorted_sorted|].
  split; [now apply sorted_keys_NoDup|].
  split; [|reflexivity].
  intros name count. rewrite in_map_iff. split.
  - intros (n & Hrow & Hn). apply sorted_keys_In in Hn.
    destruct (dict_mem_get _ _ Hn) as [subtitles Hs].
    unfold row_of in Hrow. rewrite Hs in Hrow.
    injection Hrow as -> <-. exists subtitles. split; [exact Hs|reflexivity].
  - intros (subtitles & Hs & ->). exists name. split.
    + unfold row_of. now rewrite Hs.
    + apply sorted_keys_In. exact (dict_get_mem _ _ Hs).
Qed.

(** X26.  The file list does not depend on the order in which the files
    were loaded: two corpora with the same files give the same rows and
    the same selection. *)
Theorem file_list_ignores_load_order data1 data2 tree :
  NoDup (keys data1) ->
  Permutation data1 data2 ->
  incl (selection tree) (map fst (children tree)) ->
  update_file_list data1 tree = update_file_list data2 tree.
Proof.
  intros H1 Hp Hsel.
  assert (Hk : Permutation (keys data1) (keys data2))
    by exact (Permutation_map fst Hp).
  assert (H2 : NoDup (keys data2)) by exact (Permutation_NoDup Hk H1).
  rewrite (@update_file_list_spec data1 tree H1 Hsel).
  rewrite (@update_file_list_spec data2 tree H2 Hsel).
  rewrite (sorted_of_permutation Hk). do 2 f_equal.
  - apply map_ext. intros n. unfold row_of.
    now rewrite (@dict_get_permutation data1 data2 n H1 Hp).
  - apply filter_ext. intros i. apply bool_eq_of_iff.
    rewrite !dict_mem_keys. split; intros H.
    + exact (Permutation_in _ Hk H).
    + exact (Permutation_in _ (Permutation_sym Hk) H).
Qed.

(** X27.  [delete_selected] takes the rows off the file list one by one
    and never refreshes it; what it leaves is what [update_file_list] would
    show for the files that remain: a refresh after it changes nothing. *)
Theorem delete_keeps_file_list_current data tree0 tree filenames n :
  NoDup (keys data) ->
  incl (selection tree0) (map fst (children tree0)) ->
  update_file_list data tree0 = Return tree ->
  update_file_list (fst (delete_loop filenames data n))
                   (delete_loop_tree filenames data tree)
  = Return (delete_loop_tree filenames data tree).
Proof.
  intros Hnd Hsel Hup.
  destruct (@shows_after_update data tree0 Hnd Hsel) as (tree' & Hup' & Hsh).
  rewrite Hup in Hup'. injection Hup' as <-.
  apply update_of_shown.
  - now apply delete_loop_NoDup.
  - now apply delete_loop_tree_shows.
Qed.

Lemma file_list_shows_loaded_files_witness :
  exists tree',
    update_file_list (subtitle_data loaded_b_then_a) empty_tree
    = Return tree' /\
    ascending (map fst (children tree')) = true /\
    NoDup (map fst (children tree')) /\
    (forall name count,
        In (name, count) (children tree') <->
        exists subtitles,
          dict_get name (subtitle_data loaded_b_then_a) = Some subtitles /\
          count = count_text (length subtitles)) /\
    selection tree'
    = filter (fun item => dict_mem item (subtitle_data loaded_b_then_a))
             (selection empty_tree).
Proof.
  apply (@file_list_shows_loaded_files
           (subtitle_data loaded_b_then_a) empty_tree).
  - exact loaded_b_then_a_keys.
  - intros i [].
Defined.

Lemma file_list_ignores_load_order_witness :
  update_file_list (subtitle_data loaded_b_then_a) empty_tree
  = update_file_list (rev (subtitle_data loaded_b_then_a)) empty_tree.
Proof.
  apply (@file_list_ignores_load_order
           (subtitle_data loaded_b_then_a)
           (rev (subtitle_data loaded_b_then_a)) empty_tree).
  - exact loaded_b_then_a_keys.
  - apply Permutation_rev.
  - intros i [].
Defined.

Lemma delete_keeps_file_list_current_witness :
  exists tree,
    update_file_list (subtitle_data loaded_b_then_a) empty_tree
    = Return tree /\
    update_file_list
      (fst (delete_loop ["a.srt"%string] (subtitle_data loaded_b_then_a) 0))
      (delete_loop_tree ["a.srt"%string] (subtitle_data loaded_b_then_a) tree)
    = Return (delete_loop_tree ["a.srt"%string]
                               (subtitle_data loaded_b_then_a) tree).
Proof.
  eexists. split; [vm_compute; reflexivity|].
  apply (@delete_keeps_file_list_current
           (subtitle_data loaded_b_then_a) empty_tree).
  - exact loaded_b_then_a_keys.
  - intros i [].
  - vm_compute; reflexivity.
Defined.
